(** * atl::forward_list over atl::allocator: a heap model

    The singly linked list of [forward_list.tpp] and the allocator of
    [allocator.h], embedded as programs of a small state-and-error monad
    over an explicit store of nodes and of list objects.  Pointers are
    addresses into the store, [Node**] cursors are links, loops carry a
    step budget derived from the number of live nodes.

    The model comes first, then the vocabulary of the specifications
    (chains, ownership, the lists the loops compute), then the proofs:
    one specification per operation in terms of the chains the list
    objects own, the preservation of the structural invariant, the
    properties of the specification, what the operations free, keep and
    leave valid, and the instances of all of these on concrete
    stores. *)

From stdpp Require Import gmap list sorting.
From Stdlib Require Import ZArith.

Set Warnings "-clear-no-such-hyp".

(** ** Element types

    The template parameter [Type] with the operations the list uses:
    [operator==] (remove, unique), [operator<] (merge) and the value
    [Type()] (the default fill of resize, value-initialisation). *)
Class Elem (T : Type) := {
  elt_eqb : T → T → bool;
  elt_ltb : T → T → bool;
  elt_default : T;
}.

#[global] Instance Z_Elem : Elem Z :=
  {| elt_eqb := Z.eqb; elt_ltb := Z.ltb; elt_default := 0%Z |}.

(** Addresses of nodes and of list objects; [None] is [nullptr]. *)
Abbreviation loc := positive.
Abbreviation lid := positive.
Abbreviation ptr := (option loc).

Section ForwardList.
Context {T : Type} `{Elem T}.

(** ** Store *)

(** [fwd_list_node<Type>]: a value slot and a successor link.  A field
    is [None] while nothing has been constructed or stored in it: the
    memory [allocate] returns is raw, and [create_node] constructs the
    value only. *)
Record fwd_list_node := Node {
  value : option T;
  next : option ptr;
}.

(** A node whose value is constructed and whose link is stored. *)
Definition cell (v : T) (q : ptr) : fwd_list_node := Node (Some v) (Some q).

(** The store: the live nodes by address, and for every live
    [forward_list] object its [head].  The two allocator members of
    [forward_list_base] are stateless and carry no data. *)
Record state := State {
  nodes : gmap loc fwd_list_node;
  lists : gmap lid ptr;
}.

(** ** Outcomes and the monad

    [Undefined]: undefined behaviour (a null, dangling or indeterminate
    read).  [Diverge]: a loop exhausted its step budget.  [IllFormed]:
    the instantiation of a template has no viable constructor. *)
Inductive outcome (A : Type) :=
  | Ok (a : A) (s : state)
  | Undefined
  | Diverge
  | IllFormed.
Arguments Ok {A} a s.
Arguments Undefined {A}.
Arguments Diverge {A}.
Arguments IllFormed {A}.

Definition M (A : Type) : Type := state → outcome A.

#[global] Instance M_ret : MRet M := λ A a s, Ok a s.
#[global] Instance M_bind : MBind M := λ A B f c s,
  match c s with
  | Ok a s' => f a s'
  | Undefined => Undefined
  | Diverge => Diverge
  | IllFormed => IllFormed
  end.

Definition undefined {A} : M A := λ _, Undefined.
Definition diverge {A} : M A := λ _, Diverge.
Definition ill_formed {A} : M A := λ _, IllFormed.

(** The step budget of a loop: twice the number of live nodes, plus one.
    A walk over a chain without cycles visits every node once; merge
    visits a node of the argument once when it is moved and once more
    when the cursor passes it. *)
Definition budget (s : state) : nat := S (2 * size (nodes s)).
Definition with_budget {A} (loop : nat → M A) : M A := λ s, loop (budget s) s.

(** ** Memory primitives *)

Definition load (p : ptr) : M fwd_list_node := λ s,
  match p with
  | Some a => match nodes s !! a with Some n => Ok n s | None => Undefined end
  | None => Undefined
  end.

Definition store (a : loc) (n : fwd_list_node) : M unit := λ s,
  Ok tt (State (<[a := n]> (nodes s)) (lists s)).

(** [p->next] and [p->value] read; [p->next = q] written. *)
Definition get_next (p : ptr) : M ptr :=
  n ← load p; match next n with Some q => mret q | None => undefined end.

Definition get_value (p : ptr) : M T :=
  n ← load p; match value n with Some v => mret v | None => undefined end.

Definition set_next (p q : ptr) : M unit :=
  n ← load p;
  match p with
  | Some a => store a (Node (value n) (Some q))
  | None => undefined
  end.

(** [l.head] read and written. *)
Definition get_head (l : lid) : M ptr := λ s,
  match lists s !! l with Some p => Ok p s | None => Undefined end.

Definition set_head (l : lid) (p : ptr) : M unit := λ s,
  match lists s !! l with
  | Some _ => Ok tt (State (nodes s) (<[l := p]> (lists s)))
  | None => Undefined
  end.

(** A [const Type&] parameter that the function reads after it has
    freed nodes: what it refers to is an object outside the nodes (a
    local, a temporary) or the value of the node at an address, and
    it is read anew each time the function reads it. *)
Inductive ref :=
  | RefValue (v : T)
  | RefNode (a : loc).

Definition read_ref (r : ref) : M T :=
  match r with
  | RefValue v => mret v
  | RefNode a => get_value (Some a)
  end.

(** A [Node**] cursor: the address of a list's [head] or of a node's
    [next] field. *)
Inductive link :=
  | HeadOf (l : lid)
  | NextOf (a : loc).

Definition deref (k : link) : M ptr :=
  match k with
  | HeadOf l => get_head l
  | NextOf a => get_next (Some a)
  end.

Definition assign_link (k : link) (p : ptr) : M unit :=
  match k with
  | HeadOf l => set_head l p
  | NextOf a => set_next (Some a) p
  end.

(** The address of the [next] field of the node the cursor refers to. *)
Definition next_link (k : link) : M link :=
  p ← deref k;
  match p with
  | Some a => load p;; mret (NextOf a)
  | None => undefined
  end.

(** ** allocator.h *)

(** [allocate(1)]: [::operator new] returns storage that is not live;
    the request is taken to succeed.  Nothing is constructed in it. *)
Definition allocate : M loc := λ s,
  let a := fresh (dom (nodes s)) in
  Ok a (State (<[a := Node None None]> (nodes s)) (lists s)).

(** [deallocate(p, 1)]: [::operator delete], a no-op on [nullptr]. *)
Definition deallocate (p : ptr) : M unit := λ s,
  match p with
  | None => Ok tt s
  | Some a =>
      match nodes s !! a with
      | Some _ => Ok tt (State (delete a (nodes s)) (lists s))
      | None => Undefined
      end
  end.

(** An argument of a construct call: an element, or an rvalue node
    living at an address. *)
Inductive arg :=
  | ArgValue (v : T)
  | ArgNode (x : loc).

(** [allocator<Type>::construct(p, args...)], the rebound allocator
    [value_alloc], as [create_node] calls it through allocator_traits:
    [::new(p) Type(value)] stores a copy of [value] in the value slot. *)
Definition construct_value (p : ptr) (v : T) : M unit :=
  n ← load p;
  match p with
  | Some a => store a (Node (Some v) (next n))
  | None => undefined
  end.

(** [allocator<fwd_list_node<Type>>::construct(p, args...)], the node
    allocator [alloc]: [::new(p) fwd_list_node<Type>(args...)].  The
    node type has two constructors.  The defaulted default constructor,
    reached by value-initialisation, leaves [Type()] and a null link.
    The move constructor takes the value and the link of its argument
    and nulls the argument's link.  No constructor takes an element. *)
Definition construct_node (p : ptr) (args : list arg) : M unit :=
  match args with
  | [] =>
      load p;;
      match p with
      | Some a => store a (Node (Some elt_default) (Some None))
      | None => undefined
      end
  | [ArgNode x] =>
      load p;;
      q ← get_next (Some x);
      v ← get_value (Some x);
      match p with
      | Some a => store a (Node (Some v) (Some q));; set_next (Some x) None
      | None => undefined
      end
  | _ => ill_formed
  end.

(** allocator_traits' [destroy(value_alloc, &node->value)]: the value's
    lifetime ends, the storage stays. *)
Definition destroy_value (p : ptr) : M unit :=
  n ← load p;
  match p with
  | Some a => store a (Node None (next n))
  | None => undefined
  end.

(** ** forward_list_base *)

(** Raw memory for one node, and its release. *)
Definition allocate_node : M ptr := a ← allocate; mret (Some a).

Definition deallocate_node (node : ptr) : M unit := deallocate node.

(** [create_node(value)], for both overloads: the value is constructed,
    the link is left as [allocate] gave it. *)
Definition create_node (v : T) : M ptr :=
  node ← allocate_node;
  construct_value node v;;
  mret node.

(** [destroy_node(node)]: the value is destroyed, the memory released. *)
Definition destroy_node (node : ptr) : M unit :=
  destroy_value node;;
  deallocate_node node.

(** [clear()]: the head node is unlinked and destroyed until the head
    is null. *)
Fixpoint clear_loop (fuel : nat) (this : lid) : M unit :=
  match fuel with
  | O => diverge
  | S fuel' =>
      h ← get_head this;
      match h with
      | None => mret tt
      | Some _ =>
          let tmp := h in
          nx ← get_next h;
          set_head this nx;;
          destroy_node tmp;;
          clear_loop fuel' this
      end
  end.

Definition clear (this : lid) : M unit := with_budget (λ n, clear_loop n this).

(** [forward_list_base(const Allocator&)]: a new list object with a
    null head. *)
Definition base_ctor : M lid := λ s,
  let l := fresh (dom (lists s)) in
  Ok l (State (nodes s) (<[l := None]> (lists s))).

(** The end of a list object's lifetime. *)
Definition end_of_life (this : lid) : M unit := λ s,
  match lists s !! this with
  | Some _ => Ok tt (State (nodes s) (delete this (lists s)))
  | None => Undefined
  end.

(** [~forward_list_base()]: clear, then the object is gone. *)
Definition dtor (this : lid) : M unit :=
  clear this;;
  end_of_life this.

(** ** forward_list *)

(** [forward_list(const Allocator&)] *)
Definition ctor : M lid := base_ctor.

(** [front()] reads through the head without a test. *)
Definition front (this : lid) : M T :=
  h ← get_head this; get_value h.

Definition empty (this : lid) : M bool :=
  h ← get_head this; mret (bool_decide (h = None)).

(** [push_front(value)], for both overloads. *)
Definition push_front (this : lid) (v : T) : M unit :=
  new_node ← create_node v;
  h ← get_head this;
  set_next new_node h;;
  set_head this new_node.

(** [emplace_front(args...)]: the node is allocated, then
    [this->alloc.construct(&new_node->value, args...)], the construct of
    the node allocator, then the node is linked. *)
Definition emplace_front (this : lid) (args : list arg) : M unit :=
  new_node ← allocate_node;
  construct_node new_node args;;
  h ← get_head this;
  set_next new_node h;;
  set_head this new_node.

Definition pop_front (this : lid) : M unit :=
  h ← get_head this;
  match h with
  | Some _ =>
      let tmp := h in
      nx ← get_next h;
      set_head this nx;;
      destroy_node tmp
  | None => mret tt
  end.

(** [for (current = other.head; current; current = current->next)
       push_front(current->value);] *)
Fixpoint copy_loop (fuel : nat) (this : lid) (current : ptr) : M unit :=
  match fuel with
  | O => diverge
  | S fuel' =>
      match current with
      | None => mret tt
      | Some _ =>
          v ← get_value current;
          push_front this v;;
          nx ← get_next current;
          copy_loop fuel' this nx
      end
  end.

(** [forward_list(const forward_list&)] *)
Definition copy_ctor (other : lid) : M lid :=
  this ← base_ctor;
  h ← get_head other;
  with_budget (λ n, copy_loop n this h);;
  mret this.

(** [forward_list(forward_list&&)]: the new object takes the head, the
    source is left with a null head. *)
Definition move_ctor (other : lid) : M lid :=
  h ← get_head other;
  this ← base_ctor;
  set_head this h;;
  set_head other None;;
  mret this.

(** [operator=(const forward_list&)], guarded by [this != &other]. *)
Definition copy_assign (this other : lid) : M unit :=
  if bool_decide (this ≠ other) then
    clear this;;
    h ← get_head other;
    with_budget (λ n, copy_loop n this h)
  else mret tt.

(** [operator=(forward_list&&)], guarded by [this != &other]. *)
Definition move_assign (this other : lid) : M unit :=
  if bool_decide (this ≠ other) then
    clear this;;
    h ← get_head other;
    set_head this h;;
    set_head other None
  else mret tt.

(** A counted loop of push_front, and one of pop_front. *)
Fixpoint push_n (count : nat) (this : lid) (v : T) : M unit :=
  match count with
  | O => mret tt
  | S count' => push_front this v;; push_n count' this v
  end.

Fixpoint pop_n (count : nat) (this : lid) : M unit :=
  match count with
  | O => mret tt
  | S count' => pop_front this;; pop_n count' this
  end.

(** [assign(count, value)]: the list is cleared, then [value], a
    reference, is read for each of the [count] calls of push_front. *)
Fixpoint assign_loop (count : nat) (this : lid) (value : ref) : M unit :=
  match count with
  | O => mret tt
  | S count' =>
      v ← read_ref value;
      push_front this v;;
      assign_loop count' this value
  end.

Definition assign (this : lid) (count : nat) (value : ref) : M unit :=
  clear this;;
  assign_loop count this value.

(** The counting walk of resize. *)
Fixpoint size_loop (fuel : nat) (current : ptr) (current_size : nat) : M nat :=
  match fuel with
  | O => diverge
  | S fuel' =>
      match current with
      | None => mret current_size
      | Some _ =>
          nx ← get_next current;
          size_loop fuel' nx (S current_size)
      end
  end.

(** [resize(count, value)]: the length is counted; while it is above
    [count] the front is popped, while it is below [value] is pushed.
    Each of the two loops changes the difference by one a turn. *)
Definition resize (this : lid) (count : nat) (v : T) : M unit :=
  h ← get_head this;
  current_size ← with_budget (λ n, size_loop n h 0);
  if bool_decide (count < current_size) then pop_n (current_size - count) this
  else if bool_decide (current_size < count) then push_n (count - current_size) this v
  else mret tt.

(** [swap(other)]: the heads change places; the allocators carry no
    data. *)
Definition swap (this other : lid) : M unit :=
  a ← get_head this;
  b ← get_head other;
  set_head this b;;
  set_head other a.

(** The loop of merge, [while ( *pos && other.head)], returning the
    cursor it ends with. *)
Fixpoint merge_loop (fuel : nat) (pos : link) (other : lid) : M link :=
  match fuel with
  | O => diverge
  | S fuel' =>
      p ← deref pos;
      oh ← get_head other;
      match p, oh with
      | Some _, Some _ =>
          x ← get_value p;
          y ← get_value oh;
          if elt_ltb x y then
            pos' ← next_link pos;
            merge_loop fuel' pos' other
          else
            let temp := oh in
            nx ← get_next oh;
            set_head other nx;;
            p' ← deref pos;
            set_next temp p';;
            assign_link pos temp;;
            merge_loop fuel' pos other
      | _, _ => mret pos
      end
  end.

(** [merge(other)]: the loop from [&this->head], then what is left of
    [other] is linked at the cursor. *)
Definition merge (this other : lid) : M unit :=
  pos ← with_budget (λ n, merge_loop n (HeadOf this) other);
  oh ← get_head other;
  match oh with
  | Some _ => assign_link pos oh;; set_head other None
  | None => mret tt
  end.

(** [while (last->next) last = last->next;] *)
Fixpoint last_loop (fuel : nat) (last : ptr) : M ptr :=
  match fuel with
  | O => diverge
  | S fuel' =>
      nx ← get_next last;
      match nx with
      | Some _ => last_loop fuel' nx
      | None => mret last
      end
  end.

(** [splice_after(pos, other)]; the receiver is reached through the
    handle only. *)
Definition splice_after (this : lid) (pos : ptr) (other : lid) : M unit :=
  oh ← get_head other;
  match oh with
  | None => mret tt
  | Some _ =>
      last ← with_budget (λ n, last_loop n oh);
      pn ← get_next pos;
      set_next last pn;;
      oh' ← get_head other;
      set_next pos oh';;
      set_head other None
  end.

(** The loop of remove_if from the cursor [pos]. *)
Fixpoint remove_if_loop (fuel : nat) (pred : T → bool) (pos : link) : M unit :=
  match fuel with
  | O => diverge
  | S fuel' =>
      p ← deref pos;
      match p with
      | None => mret tt
      | Some _ =>
          x ← get_value p;
          if pred x then
            let temp := p in
            nx ← get_next p;
            assign_link pos nx;;
            destroy_node temp;;
            remove_if_loop fuel' pred pos
          else
            pos' ← next_link pos;
            remove_if_loop fuel' pred pos'
      end
  end.

(** [remove_if(pred)]: the loop from [&this->head]. *)
Definition remove_if (this : lid) (pred : T → bool) : M unit :=
  with_budget (λ n, remove_if_loop n pred (HeadOf this)).

(** [remove(value)] has the loop of remove_if with the test
    [( *pos)->value == value]; [value] is a reference and is read at
    each test, also after a node has been destroyed. *)
Fixpoint remove_loop (fuel : nat) (value : ref) (pos : link) : M unit :=
  match fuel with
  | O => diverge
  | S fuel' =>
      p ← deref pos;
      match p with
      | None => mret tt
      | Some _ =>
          x ← get_value p;
          y ← read_ref value;
          if elt_eqb x y then
            let temp := p in
            nx ← get_next p;
            assign_link pos nx;;
            destroy_node temp;;
            remove_loop fuel' value pos
          else
            pos' ← next_link pos;
            remove_loop fuel' value pos'
      end
  end.

Definition remove (this : lid) (value : ref) : M unit :=
  with_budget (λ n, remove_loop n value (HeadOf this)).

(** [reverse()]: every link is turned to the node before; the last
    node met becomes the head. *)
Fixpoint reverse_loop (fuel : nat) (prev current : ptr) : M ptr :=
  match fuel with
  | O => diverge
  | S fuel' =>
      match current with
      | None => mret prev
      | Some _ =>
          nx ← get_next current;
          set_next current prev;;
          reverse_loop fuel' current nx
      end
  end.

Definition reverse (this : lid) : M unit :=
  h ← get_head this;
  prev ← with_budget (λ n, reverse_loop n None h);
  set_head this prev.

(** [unique()]: while [current] has a successor, the successor is
    unlinked and destroyed if its value equals the value at [current],
    else [current] moves to it. *)
Fixpoint unique_loop (fuel : nat) (current : ptr) : M unit :=
  match fuel with
  | O => diverge
  | S fuel' =>
      match current with
      | None => mret tt
      | Some _ =>
          nx ← get_next current;
          match nx with
          | None => mret tt
          | Some _ =>
              x ← get_value current;
              y ← get_value nx;
              if elt_eqb x y then
                let temp := nx in
                nn ← get_next nx;
                set_next current nn;;
                destroy_node temp;;
                unique_loop fuel' current
              else
                unique_loop fuel' nx
          end
      end
  end.

Definition unique (this : lid) : M unit :=
  h ← get_head this;
  with_budget (λ n, unique_loop n h).

(** ** fwd_list_iterator: a handle is the node pointer it wraps. *)

Definition begin (this : lid) : M ptr := get_head this.
Definition end_ (this : lid) : M ptr := mret None.

Definition iter_deref (it : ptr) : M T := get_value it.
Definition iter_incr (it : ptr) : M ptr := get_next it.
Definition iter_eq (a b : ptr) : bool := bool_decide (a = b).

(** The values met by a traversal from [begin()] to [end()], each read
    through the handle before it advances: what the list iterates as. *)
Fixpoint iterate_loop (fuel : nat) (it e : ptr) : M (list T) :=
  match fuel with
  | O => diverge
  | S fuel' =>
      if negb (iter_eq it e) then
        v ← iter_deref it;
        it' ← iter_incr it;
        vs ← iterate_loop fuel' it' e;
        mret (v :: vs)
      else mret []
  end.

Definition iterate (this : lid) : M (list T) :=
  b ← begin this;
  e ← end_ this;
  with_budget (λ n, iterate_loop n b e).

End ForwardList.

Arguments fwd_list_node T : clear implicits.
Arguments state T : clear implicits.
Arguments outcome T A : clear implicits.
Arguments M T A : clear implicits.
Arguments arg T : clear implicits.
Arguments ref T : clear implicits.
Arguments Ok {T A} a s.
Arguments Undefined {T A}.
Arguments Diverge {T A}.
Arguments IllFormed {T A}.
Arguments Node {T} value next.
Arguments State {T} nodes lists.
Arguments ArgValue {T} v.
Arguments ArgNode {T} x.
Arguments RefValue {T} v.
Arguments RefNode {T} a.

(** * Vocabulary of the specifications *)

(** [operator<] as a strict weak order, the requirement merge puts on
    it: [x <= y] stands for [!(y < x)]. *)
Definition elt_le {T} `{Elem T} (x y : T) : Prop := elt_ltb y x = false.

Class ElemOrder (T : Type) `{Elem T} : Prop := {
  elt_lt_asym : ∀ x y : T, elt_ltb x y = true → elt_ltb y x = false;
  elt_le_trans : ∀ x y z : T, elt_le x y → elt_le y z → elt_le x z;
}.

(** [operator==] as an equivalence, up to reflexivity which no
    operation relies on. *)
Class ElemEq (T : Type) `{Elem T} : Prop := {
  elt_eqb_sym : ∀ x y : T, elt_eqb x y = elt_eqb y x;
  elt_eqb_trans : ∀ x y z : T,
    elt_eqb x y = true → elt_eqb y z = true → elt_eqb x z = true;
}.

(** What a program returned, if it returned. *)
Definition returned {T A} (o : outcome T A) : option A :=
  match o with
  | Ok a _ => Some a
  | _ => None
  end.

Section Vocabulary.
Context {T : Type} `{Elem T}.
Implicit Types (s : state T) (h : gmap loc (fwd_list_node T)).
Implicit Types (p q : ptr) (a b : loc) (l this other : lid) (v : T).
Implicit Types (xs ys zs : list (loc * T)) (ch : gmap lid (list (loc * T))).

(** [chain h p xs]: from [p], the store [h] holds the nodes at the
    addresses [xs.*1] with the values [xs.*2], linked in this order, and
    the last link is null.  A chain is finite and ends in null by
    construction; [chain_NoDup] shows that it has no cycle. *)
Fixpoint chain h p xs : Prop :=
  match xs with
  | [] => p = None
  | (a, v) :: xs' => p = Some a ∧ ∃ q, h !! a = Some (cell v q) ∧ chain h q xs'
  end.

(** The list object [l] is live and its head starts the chain [xs]. *)
Definition owns s l xs : Prop :=
  ∃ p, lists s !! l = Some p ∧ chain (nodes s) p xs.

(** [owned_by s ch]: the live list objects of [s] are those of [ch],
    each one heads the chain [ch] gives it, and the chains of two list
    objects share no node: ownership of a node is exclusive. *)
Definition owned_by s ch : Prop :=
  (∀ l, ch !! l = None ↔ lists s !! l = None) ∧
  (∀ l xs, ch !! l = Some xs → owns s l xs) ∧
  (∀ l1 l2 xs1 xs2, l1 ≠ l2 → ch !! l1 = Some xs1 → ch !! l2 = Some xs2 →
     xs1.*1 ## xs2.*1).

(** The structural invariant of a store: every live list object has a
    head that is null or starts a chain that ends in null, and no node
    is in the chains of two lists. *)
Definition wf s : Prop := ∃ ch, owned_by s ch.

(** What a cursor reads, the store after a write through it, and the
    node it lies in. *)
Definition link_get (k : link) s : ptr :=
  match k with
  | HeadOf l => default None (lists s !! l)
  | NextOf b => default None (n ← nodes s !! b; next n)
  end.

Definition link_set (k : link) p s : state T :=
  match k with
  | HeadOf l => State (nodes s) (<[l := p]> (lists s))
  | NextOf b =>
      State (alter (λ n, Node (value n) (Some p)) b (nodes s)) (lists s)
  end.

Definition link_live (k : link) s : Prop :=
  match k with
  | HeadOf l => is_Some (lists s !! l)
  | NextOf b => ∃ v q, nodes s !! b = Some (cell v q)
  end.

Definition link_out (k : link) (bs : list loc) : Prop :=
  match k with
  | HeadOf _ => True
  | NextOf b => b ∉ bs
  end.

(** [link_frame k bs s s']: from [s] to [s'] nothing changed but the
    nodes [bs] and what the cursor [k] refers to; the node the cursor
    lies in kept its value. *)
Definition link_frame (k : link) (bs : list loc) s s' : Prop :=
  (∀ l, k ≠ HeadOf l → lists s' !! l = lists s !! l) ∧
  (∀ a, a ∉ bs → k ≠ NextOf a → nodes s' !! a = nodes s !! a) ∧
  (∀ a v q, k = NextOf a → nodes s !! a = Some (cell v q) →
     ∃ q', nodes s' !! a = Some (cell v q')).

(** The chain unique leaves, read off its loop: [x] is the node at
    [current], [r] what follows it. *)
Fixpoint unique_from (x : loc * T) (r : list (loc * T)) : list (loc * T) :=
  match r with
  | [] => [x]
  | y :: r' =>
      if elt_eqb x.2 y.2 then unique_from x r' else x :: unique_from y r'
  end.

(** The chain unique leaves of the chain [xs]. *)
Definition unique_list xs : list (loc * T) :=
  match xs with
  | [] => []
  | x :: r => unique_from x r
  end.

(** The chain merge leaves at its cursor, read off its loop: [xs] is
    the chain at the cursor, [ys] the chain of the argument.  A node of
    [xs] that is less than the head of [ys] is passed; otherwise the
    head of [ys] is put in front of it and the cursor stays where it is,
    so the moved node is the next one compared. *)
Fixpoint merge_list (xs ys : list (loc * T)) {struct ys} : list (loc * T) :=
  match ys with
  | [] => xs
  | y :: ys' =>
      (fix pass (xs : list (loc * T)) : list (loc * T) :=
         match xs with
         | [] => y :: ys'
         | x :: xs' =>
             if elt_ltb x.2 y.2 then x :: pass xs'
             else merge_list (y :: x :: xs') ys'
         end) xs
  end.

(** The step after the loop: what is left of the argument is linked at
    the cursor. *)
Definition merge_tail (pos : link) (other : lid) : M T unit :=
  oh ← get_head other;
  match oh with
  | Some _ => assign_link pos oh;; set_head other None
  | None => mret tt
  end.

(** The frame of merge: as [link_frame], and the head of the argument
    may change too. *)
Definition merge_frame (k : link) (other : lid) (bs : list loc) s s' : Prop :=
  (∀ l, k ≠ HeadOf l → l ≠ other → lists s' !! l = lists s !! l) ∧
  (∀ a, a ∉ bs → k ≠ NextOf a → nodes s' !! a = nodes s !! a) ∧
  (∀ a v q, k = NextOf a → nodes s !! a = Some (cell v q) →
     ∃ q', nodes s' !! a = Some (cell v q')).


(** Order on nodes by their keys. *)
Definition key_le (u w : loc * T) : Prop := elt_le u.2 w.2.

(** unique in the words of its specification: a node goes when its
    value equals the value of its immediate predecessor in the list as
    it was; [prev] is that predecessor. *)
Fixpoint keep_after (prev : loc * T) (r : list (loc * T)) : list (loc * T) :=
  match r with
  | [] => []
  | y :: r' =>
      if elt_eqb prev.2 y.2 then keep_after y r' else y :: keep_after y r'
  end.

(** The first node always stays. *)
Definition adjacent_unique xs : list (loc * T) :=
  match xs with
  | [] => []
  | x :: r => x :: keep_after x r
  end.

(** A call of a public member of forward_list or of its base class,
    whose members are public too.  The members get_allocator, cbegin
    and cend, which touch neither a head nor a node, are left out. *)
Inductive operation :=
  | OpCtor
  | OpCopyCtor (other : lid)
  | OpMoveCtor (other : lid)
  | OpDtor (this : lid)
  | OpCopyAssign (this other : lid)
  | OpMoveAssign (this other : lid)
  | OpAssign (this : lid) (count : nat) (value : ref T)
  | OpFront (this : lid)
  | OpEmpty (this : lid)
  | OpPushFront (this : lid) (v : T)
  | OpEmplaceFront (this : lid) (args : list (arg T))
  | OpPopFront (this : lid)
  | OpResize (this : lid) (count : nat) (v : T)
  | OpSwap (this other : lid)
  | OpMerge (this other : lid)
  | OpSpliceAfter (this : lid) (pos : ptr) (other : lid)
  | OpRemove (this : lid) (value : ref T)
  | OpRemoveIf (this : lid) (pred : T → bool)
  | OpReverse (this : lid)
  | OpUnique (this : lid)
  | OpBegin (this : lid)
  | OpEnd (this : lid)
  | OpClear (this : lid)
  | OpAllocateNode
  | OpDeallocateNode (node : ptr)
  | OpCreateNode (v : T)
  | OpDestroyNode (node : ptr).


(** [l] is the address of a list object within its lifetime. *)
Definition live s l : Prop := is_Some (lists s !! l).

(** The reference [r] refers to a constructed value, [v]. *)
Definition refers_to (r : ref T) v s : Prop :=
  match r with
  | RefValue w => w = v
  | RefNode a => ∃ oq, nodes s !! a = Some (Node (Some v) oq)
  end.

(** The reference [r] does not refer into the chain [xs]. *)
Definition apart_from (r : ref T) xs : Prop :=
  match r with
  | RefValue _ => True
  | RefNode a => a ∉ xs.*1
  end.

(** The node at [a] is live and in the chain of no list. *)
Definition unowned s a : Prop :=
  is_Some (nodes s !! a) ∧ ∀ l xs, owns s l xs → a ∉ xs.*1.

(** The preconditions of a call: the list objects it names are live;
    front is called on a non-empty list; the arguments of emplace_front
    select a constructor of the node, and a node argument is a
    constructed one; merge gets two different list objects; the handle
    given to splice_after refers to a node of the receiver; the value
    given to assign and to remove is not an element of the receiver;
    deallocate_node and destroy_node get a node that is in no list. *)
Definition pre (op : operation) s : Prop :=
  match op with
  | OpCtor => True
  | OpCopyCtor other | OpMoveCtor other => live s other
  | OpCopyAssign this other | OpMoveAssign this other | OpSwap this other =>
      live s this ∧ live s other
  | OpFront this => ∃ a, lists s !! this = Some (Some a)
  | OpEmplaceFront this args =>
      live s this ∧
      (args = [] ∨ ∃ x v q, args = [ArgNode x] ∧ nodes s !! x = Some (cell v q))
  | OpMerge this other => live s this ∧ live s other ∧ this ≠ other
  | OpSpliceAfter this pos other =>
      live s other ∧ ∃ a xs, pos = Some a ∧ owns s this xs ∧ a ∈ xs.*1
  | OpAssign this _ value | OpRemove this value =>
      live s this ∧ (∃ v, refers_to value v s) ∧
      (∀ xs, owns s this xs → apart_from value xs)
  | OpAllocateNode | OpCreateNode _ => True
  | OpDeallocateNode node => node = None ∨ ∃ a, node = Some a ∧ unowned s a
  | OpDestroyNode node => ∃ a, node = Some a ∧ unowned s a
  | OpDtor this | OpEmpty this | OpPushFront this _
  | OpPopFront this | OpResize this _ _ | OpRemoveIf this _
  | OpReverse this | OpUnique this | OpBegin this | OpEnd this | OpClear this =>
      live s this
  end.

(** What remove_if with [pred] leaves of the chain [xs] of [this]: the
    nodes that do not match, in their order, the matching ones freed. *)
Definition removed_exactly (pred : T → bool) s ch this xs s' : Prop :=
  let kept := filter (λ u, pred u.2 = false) xs in
  owned_by s' (<[this := kept]> ch) ∧
  iterate this s' = Ok kept.*2 s' ∧
  (∀ a w, (a, w) ∈ xs → pred w = true → nodes s' !! a = None) ∧
  kept `sublist_of` xs ∧
  length kept + length (filter (λ u, pred u.2 = true) xs) = length xs.

(** A sequence of push_front and pop_front calls. [run_ops] runs it
    and counts the pops that found the list non-empty, as [empty]
    reports it before each of them; [pushes] counts the pushes. *)
Inductive stack_op :=
  | Push (v : T)
  | Pop.

Fixpoint run_ops (this : lid) (ops : list stack_op) : M T nat :=
  match ops with
  | [] => mret 0
  | Push v :: ops' => push_front this v;; run_ops this ops'
  | Pop :: ops' =>
      e ← empty this;
      pop_front this;;
      k ← run_ops this ops';
      mret (if (e : bool) then k else S k)
  end.

Fixpoint pushes (ops : list stack_op) : nat :=
  match ops with
  | [] => 0
  | Push _ :: ops' => S (pushes ops')
  | Pop :: ops' => pushes ops'
  end.

(** A handle moved forward [n] times by the pre-increment of the
    iterator, [for (i = 0; i < n; ++i) ++it;]. *)
Fixpoint advance (n : nat) (it : ptr) : M T ptr :=
  match n with
  | O => mret it
  | S n' => it' ← iter_incr it; advance n' it'
  end.

(** The store [s'] has the nodes of [s] but those at [gone], which
    are not live in it. *)
Definition released (gone : list loc) s s' : Prop :=
  (∀ a, a ∈ gone → nodes s' !! a = None) ∧
  (∀ a, a ∉ gone → nodes s' !! a = nodes s !! a) ∧
  size (nodes s') + length gone = size (nodes s).

(** A program that neither allocates nor frees: when it returns, the
    live nodes and the live list objects are those it started with. *)
Definition relinks {A} (c : M T A) : Prop :=
  ∀ s (x : A) s', c s = Ok x s' →
    dom (nodes s') = dom (nodes s) ∧ dom (lists s') = dom (lists s).

(** A program that constructs no value: a node that holds a value
    when it returns held this value when it started. *)
Definition keeps_values {A} (c : M T A) : Prop :=
  ∀ s (x : A) s', c s = Ok x s' →
    ∀ a v oq', nodes s' !! a = Some (Node (Some v) oq') →
      ∃ oq, nodes s !! a = Some (Node (Some v) oq).

End Vocabulary.

(** ** Concrete stores *)

Section Stores.
Local Open Scope Z_scope.

(** Two list objects: list 1 iterates as 1, 3, 5 over the nodes 1, 2, 3
    and list 2 as 2, 3, 4 over the nodes 4, 5, 6. *)
Definition two_chains : gmap lid (list (loc * Z)) :=
  <[1%positive := [(1%positive, 1); (2%positive, 3); (3%positive, 5)]]>
    (<[2%positive := [(4%positive, 2); (5%positive, 3); (6%positive, 4)]]> ∅).

Definition two_lists : state Z :=
  State
    (list_to_map
       [(1%positive, cell 1 (Some 2%positive));
        (2%positive, cell 3 (Some 3%positive));
        (3%positive, cell 5 None);
        (4%positive, cell 2 (Some 5%positive));
        (5%positive, cell 3 (Some 6%positive));
        (6%positive, cell 4 None)])
    (<[1%positive := Some 1%positive]> (<[2%positive := Some 4%positive]> ∅)).

(** One list object that iterates as 1, 1, 2, 2, 2, 3, 1 over the nodes
    1 to 7. *)
Definition dups_chain : gmap lid (list (loc * Z)) :=
  <[1%positive := [(1%positive, 1); (2%positive, 1); (3%positive, 2);
                   (4%positive, 2); (5%positive, 2); (6%positive, 3);
                   (7%positive, 1)]]> ∅.

Definition dups_list : state Z :=
  State
    (list_to_map
       [(1%positive, cell 1 (Some 2%positive));
        (2%positive, cell 1 (Some 3%positive));
        (3%positive, cell 2 (Some 4%positive));
        (4%positive, cell 2 (Some 5%positive));
        (5%positive, cell 2 (Some 6%positive));
        (6%positive, cell 3 (Some 7%positive));
        (7%positive, cell 1 None)])
    (<[1%positive := Some 1%positive]> ∅).

(** One empty list object and no node. *)
Definition empty_chain : gmap lid (list (loc * Z)) := <[1%positive := []]> ∅.

Definition empty_list : state Z := State ∅ (<[1%positive := None]> ∅).

(** Two list objects: list 1 iterates as 4, 2 over the nodes 1, 2 and
    list 2 is empty. *)
Definition half_chains : gmap lid (list (loc * Z)) :=
  <[1%positive := [(1%positive, 4); (2%positive, 2)]]> (<[2%positive := []]> ∅).

Definition half_lists : state Z :=
  State
    (list_to_map
       [(1%positive, cell 4 (Some 2%positive)); (2%positive, cell 2 None)])
    (<[1%positive := Some 1%positive]> (<[2%positive := None]> ∅)).

(** One list object whose only node is its own successor. *)
Definition cyclic_list : state Z :=
  State (list_to_map [(1%positive, cell 7 (Some 1%positive))])
        (<[1%positive := Some 1%positive]> ∅).

End Stores.

(** * Evaluating programs *)

(** Unfold the primitives, then reduce the reads of the store. *)
Ltac munfold :=
  unfold push_front, pop_front, create_node, destroy_node, allocate_node,
    deallocate_node, allocate, deallocate, construct_value, destroy_value,
    deref, assign_link, next_link,
    get_head, set_head, get_next, get_value, set_next, store, load,
    undefined, with_budget, mbind, M_bind, mret, M_ret.

Ltac mred :=
  repeat first
    [ progress simpl
    | rewrite lookup_insert_eq
    | rewrite lookup_delete_eq
    | rewrite lookup_insert_ne by congruence
    | rewrite lookup_delete_ne by congruence
    | match goal with
      | E : ?m !! ?k = _ |- context [?m !! ?k] => rewrite E
      end ].

Section Run.
Context {T : Type} `{Elem T}.
Implicit Types (s : state T) (h : gmap loc (fwd_list_node T)).
Implicit Types (p q : ptr) (a : loc) (l : lid) (v : T).
Implicit Types (xs ys : list (loc * T)).

Lemma bind_Ok {A B} (c : M T A) (f : A → M T B) s (x : A) s' :
  c s = Ok x s' → (c ≫= f) s = f x s'.
Proof. intros Hc. unfold mbind, M_bind. by rewrite Hc. Qed.

Lemma bind_inv {A B} (c : M T A) (f : A → M T B) s (y : B) s' :
  (c ≫= f) s = Ok y s' → ∃ (x : A) s1, c s = Ok x s1 ∧ f x s1 = Ok y s'.
Proof. unfold mbind, M_bind. destruct (c s) as [x s1| | |]; [eauto|done..]. Qed.

Lemma Ok_inj {A} (x y : A) s s' : @Ok T A x s = Ok y s' → x = y ∧ s = s'.
Proof. by intros [= -> ->]. Qed.

Lemma state_eta s : State (nodes s) (lists s) = s.
Proof. by destruct s. Qed.

Lemma budget_size s : budget s = S (2 * size (nodes s)).
Proof. done. Qed.

Lemma get_head_Ok s l p : lists s !! l = Some p → get_head l s = Ok p s.
Proof. intros E. munfold. by mred. Qed.

Lemma set_head_Ok s l p p' :
  lists s !! l = Some p →
  set_head l p' s = Ok tt (State (nodes s) (<[l := p']> (lists s))).
Proof. intros E. munfold. by mred. Qed.

Lemma get_next_Ok s a (ov : option T) q :
  nodes s !! a = Some (Node ov (Some q)) → get_next (Some a) s = Ok q s.
Proof. intros E. munfold. by mred. Qed.

Lemma get_value_Ok s a v (oq : option ptr) :
  nodes s !! a = Some (Node (Some v) oq) → get_value (Some a) s = Ok v s.
Proof. intros E. munfold. by mred. Qed.

Lemma set_next_Ok s a n q :
  nodes s !! a = Some n →
  set_next (Some a) q s =
    Ok tt (State (<[a := Node (value n) (Some q)]> (nodes s)) (lists s)).
Proof. intros E. munfold. by mred. Qed.

Lemma destroy_node_Ok s a n :
  nodes s !! a = Some n →
  destroy_node (Some a) s = Ok tt (State (delete a (nodes s)) (lists s)).
Proof. intros E. munfold. mred. by rewrite delete_insert_eq. Qed.

Lemma push_front_Ok s this p v :
  lists s !! this = Some p →
  push_front this v s =
    Ok tt (State (<[fresh (dom (nodes s)) := cell v p]> (nodes s))
                 (<[this := Some (fresh (dom (nodes s)))]> (lists s))).
Proof. intros E. munfold. mred. by rewrite !insert_insert_eq. Qed.

Lemma pop_front_cons s this a v q :
  lists s !! this = Some (Some a) → nodes s !! a = Some (cell v q) →
  pop_front this s = Ok tt (State (delete a (nodes s)) (<[this := q]> (lists s))).
Proof. intros E1 E2. munfold. mred. by rewrite delete_insert_eq. Qed.

Lemma pop_front_nil s this :
  lists s !! this = Some None → pop_front this s = Ok tt s.
Proof. intros E. munfold. by mred. Qed.

End Run.

Opaque budget.

(** * Reasoning about the store *)

Section Chains.
Context {T : Type} `{Elem T}.
Implicit Types (s : state T) (h : gmap loc (fwd_list_node T)).
Implicit Types (p q : ptr) (a : loc) (l : lid) (v : T).
Implicit Types (xs ys : list (loc * T)) (ch : gmap lid (list (loc * T))).

Lemma chain_nil h p : chain h p [] ↔ p = None.
Proof. done. Qed.

Lemma chain_cons h p a v xs :
  chain h p ((a, v) :: xs) ↔ p = Some a ∧ ∃ q, h !! a = Some (cell v q) ∧ chain h q xs.
Proof. done. Qed.

Lemma chain_None h xs : chain h None xs → xs = [].
Proof. destruct xs as [|[a v] xs]; [done|]. by intros [? _]. Qed.

Lemma chain_inj h p xs ys : chain h p xs → chain h p ys → xs = ys.
Proof.
  revert p ys. induction xs as [|[a v] xs IH]; intros p ys Hx Hy.
  - simpl in Hx. subst p. by apply chain_None in Hy.
  - destruct Hx as (-> & q & Ha & Hx).
    destruct ys as [|[b w] ys]; [done|].
    destruct Hy as ([= <-] & q' & Hb & Hy).
    rewrite Ha in Hb. unfold cell in Hb.
    assert (q' = q) as -> by congruence.
    assert (w = v) as -> by congruence. f_equal. eauto.
Qed.

Lemma chain_frame h h' p xs :
  (∀ a, a ∈ xs.*1 → h' !! a = h !! a) → chain h p xs → chain h' p xs.
Proof.
  revert p. induction xs as [|[a v] xs IH]; intros p Hf Hx; [done|].
  destruct Hx as (-> & q & Ha & Hx). split; [done|]. exists q. split.
  - rewrite Hf; [done|]. set_solver.
  - apply IH; [|done]. intros b Hb. apply Hf. set_solver.
Qed.

Lemma chain_elem h p xs a :
  chain h p xs → a ∈ xs.*1 →
  ∃ pre v suf, xs = pre ++ (a, v) :: suf ∧ chain h (Some a) ((a, v) :: suf).
Proof.
  revert p. induction xs as [|[b w] xs IH]; intros p Hx Ha; [set_solver|].
  destruct (decide (a = b)) as [->|Hne].
  - exists [], w, xs. split; [done|]. destruct Hx as (-> & Hx). done.
  - destruct Hx as (-> & q & Hb & Hx).
    destruct (IH q Hx) as (pre & v & suf & -> & Hs); [set_solver|].
    exists ((b, w) :: pre), v, suf. done.
Qed.

Lemma chain_lookup h p xs a :
  chain h p xs → a ∈ xs.*1 → ∃ v q, h !! a = Some (cell v q).
Proof.
  intros Hx Ha. destruct (chain_elem _ _ _ _ Hx Ha) as (pre & v & suf & _ & Hs).
  destruct Hs as (_ & q & Hq & _). eauto.
Qed.

(** A chain ending in null visits no node twice. *)
Lemma chain_NoDup h p xs : chain h p xs → NoDup xs.*1.
Proof.
  revert p. induction xs as [|[a v] xs IH]; intros p Hx; [constructor|].
  pose proof Hx as (-> & q & Ha & Hq).
  rewrite fmap_cons. apply NoDup_cons. split; [|by eapply IH].
  intros Hin.
  destruct (chain_elem _ _ _ _ Hq Hin) as (pre & w & suf & -> & Hs).
  pose proof (chain_inj _ _ _ _ Hx Hs) as Heq.
  apply (f_equal length) in Heq. simpl in Heq. rewrite length_app in Heq.
  simpl in Heq. lia.
Qed.

Lemma chain_length h p xs : chain h p xs → length xs ≤ size h.
Proof.
  intros Hx.
  assert (length xs = size (list_to_set (C := gset loc) xs.*1)) as ->.
  { rewrite size_list_to_set; [by rewrite length_fmap|]. by eapply chain_NoDup. }
  rewrite <- size_dom. apply subseteq_size.
  intros a Ha. rewrite elem_of_list_to_set in Ha.
  destruct (chain_lookup _ _ _ _ Hx Ha) as (v & q & Hq).
  apply elem_of_dom. eauto.
Qed.


Lemma owned_by_owns s ch l xs : owned_by s ch → ch !! l = Some xs → owns s l xs.
Proof. intros (_ & Ho & _). apply Ho. Qed.

Lemma owned_by_live s ch l :
  owned_by s ch → is_Some (lists s !! l) → ∃ xs, ch !! l = Some xs.
Proof.
  intros (Hd & _ & _) Hl. destruct (ch !! l) as [xs|] eqn:E; [eauto|].
  apply Hd in E. rewrite E in Hl. by destruct Hl.
Qed.

Lemma owned_by_disjoint s ch l1 l2 xs1 xs2 :
  owned_by s ch → l1 ≠ l2 → ch !! l1 = Some xs1 → ch !! l2 = Some xs2 →
  xs1.*1 ## xs2.*1.
Proof. intros (_ & _ & Hd). apply Hd. Qed.

(** One list object changes its chain to [xs']; the nodes of the other
    lists are untouched and none of them is in the new chain. *)
Lemma owned_by_change s s' ch this p' xs' :
  owned_by s ch → is_Some (ch !! this) →
  lists s' = <[this := p']> (lists s) →
  chain (nodes s') p' xs' →
  (∀ l zs a, l ≠ this → ch !! l = Some zs → a ∈ zs.*1 →
     (a ∉ xs'.*1) ∧ nodes s' !! a = nodes s !! a) →
  owned_by s' (<[this := xs']> ch).
Proof.
  intros (Hd & Ho & Hx) [xs Hthis] Hl Hc Hrest.
  assert (∀ l zs, l ≠ this → ch !! l = Some zs → owns s' l zs) as Hother.
  { intros l zs Hne Hz. destruct (Ho _ _ Hz) as (p & Hp & Hzs).
    exists p. split; [by rewrite Hl, lookup_insert_ne|].
    eapply chain_frame; [|done]. intros a Ha. by eapply Hrest. }
  split; [|split].
  - intros l. rewrite Hl. destruct (decide (l = this)) as [->|Hne].
    + by rewrite !lookup_insert_eq.
    + by rewrite !lookup_insert_ne.
  - intros l zs. destruct (decide (l = this)) as [->|Hne].
    + rewrite lookup_insert_eq. intros [= <-]. exists p'.
      by rewrite Hl, lookup_insert_eq.
    + rewrite lookup_insert_ne by done. intros Hz. by apply Hother.
  - intros l1 l2 xs1 xs2 Hne.
    destruct (decide (l1 = this)) as [->|Hne1];
      destruct (decide (l2 = this)) as [->|Hne2]; [done|..].
    + rewrite lookup_insert_eq, lookup_insert_ne by done. intros [= <-] Hz.
      intros a Ha Ha'. by apply (Hrest l2 xs2 a).
    + rewrite lookup_insert_eq, lookup_insert_ne by done. intros Hz [= <-].
      intros a Ha Ha'. by apply (Hrest l1 xs1 a).
    + rewrite !lookup_insert_ne by done. by apply Hx.
Qed.

(** The same when the new chain is made of nodes of the old one and of
    nodes that were not live, and live nodes outside the old chain are
    untouched. *)
Lemma owned_by_update s s' ch this xs p' xs' :
  owned_by s ch → ch !! this = Some xs →
  lists s' = <[this := p']> (lists s) →
  chain (nodes s') p' xs' →
  (∀ a, a ∈ xs'.*1 → a ∈ xs.*1 ∨ nodes s !! a = None) →
  (∀ a, a ∉ xs.*1 → is_Some (nodes s !! a) → nodes s' !! a = nodes s !! a) →
  owned_by s' (<[this := xs']> ch).
Proof.
  intros Hown Hthis Hl Hc Hfoot Hframe.
  eapply owned_by_change; [done|by eauto|done..|].
  intros l zs a Hne Hz Ha.
  destruct (owned_by_owns _ _ _ _ Hown Hz) as (p & Hp & Hzs).
  destruct (chain_lookup _ _ _ _ Hzs Ha) as (v & q & E).
  assert (a ∉ xs.*1) as Hnin.
  { intros Hin. by apply (owned_by_disjoint _ _ _ _ _ _ Hown Hne Hz Hthis a). }
  split.
  - intros Ha'. destruct (Hfoot _ Ha') as [Hin|Hnone]; [done|congruence].
  - apply Hframe; [done|]. rewrite E. eauto.
Qed.

(** Two list objects exchange nodes: the new chains are disjoint, made
    of nodes of the two old ones, and every other node is untouched. *)
Lemma owned_by_update2 s s' ch this other xs ys pt po xs' ys' :
  owned_by s ch → this ≠ other →
  ch !! this = Some xs → ch !! other = Some ys →
  lists s' = <[other := po]> (<[this := pt]> (lists s)) →
  chain (nodes s') pt xs' → chain (nodes s') po ys' →
  (∀ a, a ∈ xs'.*1 → a ∈ ys'.*1 → False) →
  (∀ a, a ∈ xs'.*1 ∨ a ∈ ys'.*1 → a ∈ xs.*1 ∨ a ∈ ys.*1) →
  (∀ a, a ∉ xs.*1 → a ∉ ys.*1 → nodes s' !! a = nodes s !! a) →
  owned_by s' (<[other := ys']> (<[this := xs']> ch)).
Proof.
  intros Hown Hne Hthis Hoth Hl Hcx Hcy Hdisj Hfoot Hframe.
  assert (∀ l zs a, l ≠ this → l ≠ other → ch !! l = Some zs → a ∈ zs.*1 →
            (a ∉ xs.*1) ∧ (a ∉ ys.*1)) as Hout.
  { intros l zs a H1 H2 Hz Ha. split; intros Hin.
    - by apply (owned_by_disjoint _ _ _ _ _ _ Hown H1 Hz Hthis a).
    - by apply (owned_by_disjoint _ _ _ _ _ _ Hown H2 Hz Hoth a). }
  set (s0 := State (nodes s) (<[other := None]> (lists s))).
  assert (owned_by s0 (<[other := []]> ch)) as Hown0.
  { eapply owned_by_change; [done|by eauto|done..|].
    intros l zs a ? ? ?. split; [|done]. simpl. apply not_elem_of_nil. }
  set (s1 := State (nodes s') (<[this := pt]> (lists s0))).
  assert (owned_by s1 (<[this := xs']> (<[other := []]> ch))) as Hown1.
  { eapply owned_by_change; [done| |done..|].
    { rewrite lookup_insert_ne by done. eauto. }
    intros l zs a Hl1. destruct (decide (l = other)) as [->|Hl2].
    - rewrite lookup_insert_eq. intros [= <-] Ha. simpl in Ha.
      by apply not_elem_of_nil in Ha.
    - rewrite lookup_insert_ne by done. intros Hz Ha.
      destruct (Hout l zs a Hl1 Hl2 Hz Ha) as [Hx Hy]. split.
      + intros Hin. destruct (Hfoot a); auto.
      + simpl. by apply Hframe. }
  assert (s' = State (nodes s1) (<[other := po]> (lists s1))) as Hs'.
  { destruct s' as [n' l']. simpl in *. subst l'. f_equal.
    rewrite (insert_insert_ne _ this other) by done.
    by rewrite insert_insert_eq. }
  assert ((<[other := ys']> (<[this := xs']> ch)) =
          (<[other := ys']> (<[this := xs']> (<[other := []]> ch)))) as Hch.
  { rewrite (insert_insert_ne ch this other) by done.
    by rewrite insert_insert_eq. }
  rewrite Hs', Hch.
  eapply owned_by_change; [done| |done..|].
  { rewrite lookup_insert_ne, lookup_insert_eq by done. eauto. }
  intros l zs a Hl2 Hz Ha. split; [|done].
  destruct (decide (l = this)) as [->|Hl1].
  - rewrite lookup_insert_eq in Hz. injection Hz as <-.
    intros Hin. by apply (Hdisj a).
  - rewrite !lookup_insert_ne in Hz by done.
    destruct (Hout l zs a Hl1 Hl2 Hz Ha) as [Hx Hy].
    intros Hin. destruct (Hfoot a); auto.
Qed.

End Chains.

(** * Specifications of the operations *)

Section Specs.
Context {T : Type} `{Elem T}.
Implicit Types (s : state T) (h : gmap loc (fwd_list_node T)).
Implicit Types (p q : ptr) (a : loc) (l this other : lid) (v : T).
Implicit Types (xs ys : list (loc * T)) (ch : gmap lid (list (loc * T))).

Lemma chain_insert_ne h p xs a n :
  a ∉ xs.*1 → chain h p xs → chain (<[a := n]> h) p xs.
Proof.
  intros Ha. apply chain_frame. intros b Hb.
  apply lookup_insert_ne. by intros ->.
Qed.

Lemma chain_delete_ne h p xs a :
  a ∉ xs.*1 → chain h p xs → chain (delete a h) p xs.
Proof.
  intros Ha. apply chain_frame. intros b Hb.
  apply lookup_delete_ne. by intros ->.
Qed.

Lemma chain_not_live h p xs a : chain h p xs → h !! a = None → a ∉ xs.*1.
Proof.
  intros Hx Ha Hin. destruct (chain_lookup _ _ _ _ Hx Hin) as (v & q & E).
  congruence.
Qed.

Lemma fresh_not_live s : nodes s !! fresh (dom (nodes s)) = None.
Proof. apply not_elem_of_dom, is_fresh. Qed.

Lemma ctor_spec s ch :
  owned_by s ch →
  ∃ l s', ch !! l = None ∧ ctor s = Ok l s' ∧
    s' = State (nodes s) (<[l := None]> (lists s)) ∧
    owned_by s' (<[l := []]> ch).
Proof.
  intros (Hd & Ho & Hx). set (l := fresh (dom (lists s))).
  assert (lists s !! l = None) as Hl by apply not_elem_of_dom, is_fresh.
  exists l, (State (nodes s) (<[l := None]> (lists s))).
  split; [by apply Hd|]. split; [done|]. split; [done|].
  split; [|split].
  - intros l'. simpl. destruct (decide (l' = l)) as [->|Hne].
    + by rewrite !lookup_insert_eq.
    + by rewrite !lookup_insert_ne.
  - intros l' zs. destruct (decide (l' = l)) as [->|Hne].
    + rewrite lookup_insert_eq. intros [= <-]. exists None.
      simpl. by rewrite lookup_insert_eq.
    + rewrite lookup_insert_ne by done. intros Hz.
      destruct (Ho _ _ Hz) as (p & Hp & Hc). exists p. simpl.
      by rewrite lookup_insert_ne.
  - intros l1 l2 xs1 xs2 Hne.
    destruct (decide (l1 = l)) as [->|Hne1];
      destruct (decide (l2 = l)) as [->|Hne2]; [done|..].
    + rewrite lookup_insert_eq. intros [= <-] _ a Ha. simpl in Ha. set_solver.
    + rewrite lookup_insert_ne, lookup_insert_eq by done.
      intros _ [= <-] a _ Ha. simpl in Ha. set_solver.
    + rewrite !lookup_insert_ne by done. by apply Hx.
Qed.

Lemma push_front_spec s ch this xs v :
  owned_by s ch → ch !! this = Some xs →
  ∃ a s', nodes s !! a = None ∧ push_front this v s = Ok tt s' ∧
    owned_by s' (<[this := (a, v) :: xs]> ch) ∧
    nodes s' = <[a := cell v (head xs.*1)]> (nodes s).
Proof.
  intros Hown Hthis. destruct (owned_by_owns _ _ _ _ Hown Hthis) as (p & Hp & Hc).
  pose proof (fresh_not_live s) as Hf.
  exists (fresh (dom (nodes s))). eexists. split; [done|]. split; [by apply push_front_Ok|].
  assert (p = head xs.*1) as Hhd.
  { destruct xs as [|[b w] xs]; simpl in *; [done|]. by destruct Hc. }
  split; [|by rewrite Hhd].
  eapply owned_by_update; [done..| | |].
  - simpl. split; [done|]. exists p. rewrite lookup_insert_eq. split; [done|].
    apply chain_insert_ne; [|done]. by eapply chain_not_live.
  - intros b. rewrite fmap_cons. simpl. intros [->|Hb]%elem_of_cons; auto.
  - intros b _ [n Hb]. simpl. apply lookup_insert_ne. congruence.
Qed.

Lemma pop_front_spec s ch this xs :
  owned_by s ch → ch !! this = Some xs →
  ∃ s', pop_front this s = Ok tt s' ∧ owned_by s' (<[this := tail xs]> ch) ∧
    (xs = [] → s' = s).
Proof.
  intros Hown Hthis. destruct (owned_by_owns _ _ _ _ Hown Hthis) as (p & Hp & Hc).
  destruct xs as [|[a v] xs].
  - simpl in Hc. subst p. exists s. split; [by apply pop_front_nil|].
    split; [|done]. by rewrite insert_id.
  - destruct Hc as (-> & q & Ha & Hc). eexists.
    split; [by eapply pop_front_cons|]. split; [|done].
    assert (NoDup ((a, v) :: xs).*1) as Hnd.
    { apply (chain_NoDup (nodes s) (Some a)). simpl. eauto. }
    rewrite fmap_cons in Hnd. simpl in Hnd. apply NoDup_cons in Hnd as [Hna _].
    eapply owned_by_update; [done..| | |].
    + simpl. by apply chain_delete_ne.
    + intros b Hb. left. rewrite fmap_cons. set_solver.
    + intros b Hb _. simpl. apply lookup_delete_ne. intros ->.
      apply Hb. rewrite fmap_cons. set_solver.
Qed.

Lemma chain_head h p xs : chain h p xs → p = head xs.*1.
Proof. destruct xs as [|[a v] xs]; simpl; [done|]. by intros [-> _]. Qed.

Lemma chain_drop h p pre zs : chain h p (pre ++ zs) → chain h (head zs.*1) zs.
Proof.
  revert p. induction pre as [|[a v] pre IH]; intros p Hc; simpl in *.
  - by rewrite <- (chain_head _ _ _ Hc).
  - destruct Hc as (_ & q & _ & Hc). eauto.
Qed.

(** The budget of a store covers a walk over any of its chains. *)
Lemma budget_chain s p xs : chain (nodes s) p xs → length xs < budget s.
Proof. intros Hc%chain_length. rewrite budget_size. lia. Qed.

Lemma budget_owned s ch l xs :
  owned_by s ch → ch !! l = Some xs → length xs < budget s.
Proof.
  intros Hown Hl. destruct (owned_by_owns _ _ _ _ Hown Hl) as (p & _ & Hc).
  by eapply budget_chain.
Qed.

Lemma clear_loop_spec fuel s ch this xs :
  owned_by s ch → ch !! this = Some xs → length xs < fuel →
  ∃ s', clear_loop fuel this s = Ok tt s' ∧ owned_by s' (<[this := []]> ch).
Proof.
  revert fuel s ch. induction xs as [|[a v] xs IH]; intros fuel s ch Hown Hthis Hf;
    (destruct fuel as [|fuel]; [simpl in Hf; lia|]);
    destruct (owned_by_owns _ _ _ _ Hown Hthis) as (p & Hp & Hc).
  - simpl in Hc. subst p. exists s. split.
    + simpl. munfold. by mred.
    + by rewrite insert_id.
  - destruct (pop_front_spec _ _ _ _ Hown Hthis) as (s1 & Hpop & Hown1 & _).
    destruct Hc as (-> & q & Ha & Hc).
    rewrite (pop_front_cons _ _ _ _ _ Hp Ha) in Hpop. injection Hpop as <-.
    destruct (IH fuel _ _ Hown1) as (s' & Hs' & Hown').
    { by rewrite lookup_insert_eq. }
    { simpl in Hf. lia. }
    exists s'. rewrite insert_insert_eq in Hown'. split; [|done].
    rewrite <- Hs'. simpl. munfold. mred. by rewrite delete_insert_eq.
Qed.

Lemma clear_spec s ch this xs :
  owned_by s ch → ch !! this = Some xs →
  ∃ s', clear this s = Ok tt s' ∧ owned_by s' (<[this := []]> ch).
Proof.
  intros Hown Hthis. eapply clear_loop_spec; [done..|]. by eapply budget_owned.
Qed.

Lemma iterate_loop_spec fuel s p xs :
  chain (nodes s) p xs → length xs < fuel →
  iterate_loop fuel p None s = Ok xs.*2 s.
Proof.
  revert fuel p. induction xs as [|[a v] xs IH]; intros fuel p Hc Hf;
    (destruct fuel as [|fuel]; [simpl in Hf; lia|]).
  - simpl in Hc. by subst p.
  - destruct Hc as (-> & q & Ha & Hc). simpl.
    unfold iter_deref, iter_incr. munfold. mred.
    rewrite (IH fuel q); [done..|]. simpl in Hf. lia.
Qed.

Lemma iterate_spec s l xs : owns s l xs → iterate l s = Ok xs.*2 s.
Proof.
  intros (p & Hp & Hc). unfold iterate, begin, end_. munfold. mred.
  apply iterate_loop_spec; [done|]. by eapply budget_chain.
Qed.

Lemma front_spec s l a v xs : owns s l ((a, v) :: xs) → front l s = Ok v s.
Proof.
  intros (p & Hp & -> & q & Ha & _). unfold front. munfold. by mred.
Qed.

Lemma empty_spec s l xs :
  owns s l xs → empty l s = Ok (bool_decide (xs = [])) s.
Proof.
  intros (p & Hp & Hc). unfold empty. munfold. mred. do 2 f_equal.
  apply bool_decide_ext. destruct xs as [|[a v] xs]; simpl in Hc.
  - by subst.
  - destruct Hc as [-> _]. done.
Qed.

Lemma copy_loop_spec fuel s ch this other xs pre zs :
  owned_by s ch → this ≠ other →
  ch !! this = Some xs → ch !! other = Some (pre ++ zs) → length zs < fuel →
  ∃ s' new, copy_loop fuel this (head zs.*1) s = Ok tt s' ∧
    owned_by s' (<[this := new ++ xs]> ch) ∧ new.*2 = rev zs.*2 ∧
    (∀ a, a ∈ new.*1 → nodes s !! a = None).
Proof.
  revert fuel s ch xs pre.
  induction zs as [|[b w] zs IH]; intros fuel s ch xs pre Hown Hne Hthis Hoth Hf;
    (destruct fuel as [|fuel]; [simpl in Hf; lia|]).
  - exists s, []. split; [done|]. split; [by rewrite insert_id|].
    split; [done|]. intros a Ha. by apply not_elem_of_nil in Ha.
  - destruct (owned_by_owns _ _ _ _ Hown Hoth) as (po & _ & Hc).
    apply chain_drop in Hc. destruct Hc as (_ & q & Hb & Hc).
    pose proof (chain_head _ _ _ Hc) as ->.
    destruct (push_front_spec _ _ _ _ w Hown Hthis) as (a & s1 & Ha & Hpush & Hown1 & Hn1).
    assert (a ≠ b) as Hab by congruence.
    destruct (IH fuel s1 _ ((a, w) :: xs) (pre ++ [(b, w)]) Hown1 Hne)
      as (s' & new & Hloop & Hown' & Hvals & Hnew).
    { by rewrite lookup_insert_eq. }
    { rewrite lookup_insert_ne by done. by rewrite <- app_assoc. }
    { simpl in Hf. lia. }
    exists s', (new ++ [(a, w)]). split; [|split; [|split]].
    + cbn [copy_loop fmap list_fmap head fst].
      rewrite (bind_Ok _ _ _ _ _ (get_value_Ok _ _ _ _ Hb)).
      rewrite (bind_Ok _ _ _ _ _ Hpush).
      erewrite bind_Ok; [done|]. eapply get_next_Ok.
      rewrite Hn1, lookup_insert_ne by done. done.
    + rewrite insert_insert_eq in Hown'. by rewrite <- app_assoc.
    + rewrite fmap_app, Hvals. simpl. done.
    + intros a'. rewrite fmap_app. simpl.
      intros [Ha'|Ha']%elem_of_app.
      * apply Hnew in Ha'. rewrite Hn1 in Ha'.
        apply lookup_insert_None in Ha'. tauto.
      * apply list_elem_of_singleton in Ha'. by subst.
Qed.

Lemma copy_from_spec s ch this other xs ys :
  owned_by s ch → this ≠ other → ch !! this = Some xs → ch !! other = Some ys →
  ∃ po s' new, lists s !! other = Some po ∧
    with_budget (λ n, copy_loop n this po) s = Ok tt s' ∧
    owned_by s' (<[this := new ++ xs]> ch) ∧ new.*2 = rev ys.*2 ∧
    (∀ a, a ∈ new.*1 → nodes s !! a = None).
Proof.
  intros Hown Hne Hthis Hoth.
  destruct (owned_by_owns _ _ _ _ Hown Hoth) as (po & Hpo & Hc).
  exists po. unfold with_budget. rewrite (chain_head _ _ _ Hc).
  destruct (copy_loop_spec (budget s) s ch this other xs [] ys)
    as (s' & new & ?); [done..|by eapply budget_owned|].
  exists s', new. split; [|done]. by rewrite <- (chain_head _ _ _ Hc).
Qed.

Lemma copy_ctor_spec s ch other ys :
  owned_by s ch → ch !! other = Some ys →
  ∃ this s' new, ch !! this = None ∧ copy_ctor other s = Ok this s' ∧
    owned_by s' (<[this := new]> ch) ∧ new.*2 = rev ys.*2.
Proof.
  intros Hown Hoth.
  destruct (ctor_spec _ _ Hown) as (this & s1 & Hfresh & Hctor & _ & Hown1).
  assert (this ≠ other) as Hne by congruence.
  destruct (copy_from_spec s1 _ this other [] ys Hown1 Hne)
    as (po & s' & new & Hpo & Hcopy & Hown' & Hvals & _).
  { by rewrite lookup_insert_eq. }
  { by rewrite lookup_insert_ne. }
  exists this, s', new. split; [done|]. split; [|split; [|done]].
  - unfold copy_ctor. change base_ctor with (@ctor T) at 1.
    rewrite (bind_Ok _ _ _ _ _ Hctor).
    rewrite (bind_Ok _ _ _ _ _ (get_head_Ok _ _ _ Hpo)).
    by rewrite (bind_Ok _ _ _ _ _ Hcopy).
  - by rewrite insert_insert_eq, app_nil_r in Hown'.
Qed.

Lemma copy_assign_spec s ch this other xs ys :
  owned_by s ch → this ≠ other → ch !! this = Some xs → ch !! other = Some ys →
  ∃ s' new, copy_assign this other s = Ok tt s' ∧
    owned_by s' (<[this := new]> ch) ∧ new.*2 = rev ys.*2.
Proof.
  intros Hown Hne Hthis Hoth.
  destruct (clear_spec _ _ _ _ Hown Hthis) as (s1 & Hclear & Hown1).
  destruct (copy_from_spec s1 _ this other [] ys Hown1 Hne)
    as (po & s' & new & Hpo & Hcopy & Hown' & Hvals & _).
  { by rewrite lookup_insert_eq. }
  { by rewrite lookup_insert_ne. }
  exists s', new. split; [|split; [|done]].
  - unfold copy_assign. rewrite bool_decide_true by done.
    rewrite (bind_Ok _ _ _ _ _ Hclear).
    by rewrite (bind_Ok _ _ _ _ _ (get_head_Ok _ _ _ Hpo)).
  - by rewrite insert_insert_eq, app_nil_r in Hown'.
Qed.

Lemma copy_assign_self s this : copy_assign this this s = Ok tt s.
Proof. unfold copy_assign. by rewrite bool_decide_false by auto. Qed.

Lemma move_assign_self s this : move_assign this this s = Ok tt s.
Proof. unfold move_assign. by rewrite bool_decide_false by auto. Qed.

(** The head of [other] passes to [this], which owns nothing. *)
Lemma take_head_spec s ch this other ys po :
  owned_by s ch → this ≠ other → ch !! this = Some [] → ch !! other = Some ys →
  lists s !! other = Some po →
  owned_by (State (nodes s) (<[other := None]> (<[this := po]> (lists s))))
    (<[other := []]> (<[this := ys]> ch)).
Proof.
  intros Hown Hne Hthis Hoth Hpo.
  destruct (owned_by_owns _ _ _ _ Hown Hoth) as (po' & Hpo' & Hc).
  assert (po' = po) as -> by congruence.
  eapply (owned_by_update2 s _ ch this other [] ys po None ys []);
    [done..| | | |]; simpl; auto.
  - intros a _ Ha. by apply not_elem_of_nil in Ha.
  - intros a [Ha|Ha]; auto.
Qed.

Lemma owned_by_is_live s ch l xs :
  owned_by s ch → ch !! l = Some xs → ∃ p, lists s !! l = Some p.
Proof. intros Hown Hl. destruct (owned_by_owns _ _ _ _ Hown Hl) as (p & ? & _). eauto. Qed.

Lemma move_ctor_spec s ch other ys :
  owned_by s ch → ch !! other = Some ys →
  ∃ this s', ch !! this = None ∧ move_ctor other s = Ok this s' ∧
    owned_by s' (<[other := []]> (<[this := ys]> ch)).
Proof.
  intros Hown Hoth.
  destruct (ctor_spec _ _ Hown) as (this & s1 & Hfresh & Hctor & Hs1 & Hown1).
  assert (this ≠ other) as Hne by congruence.
  destruct (owned_by_is_live _ _ _ _ Hown Hoth) as (po & Hpo).
  exists this. eexists. split; [done|]. split.
  - unfold move_ctor. rewrite (bind_Ok _ _ _ _ _ (get_head_Ok _ _ _ Hpo)).
    change base_ctor with (@ctor T) at 1.
    rewrite (bind_Ok _ _ _ _ _ Hctor). subst s1. munfold. mred. done.
  - subst s1.
    pose proof (take_head_spec _ _ this other ys po Hown1 Hne) as Hown'.
    rewrite (insert_insert_eq ch) in Hown'. apply Hown'.
    + by rewrite lookup_insert_eq.
    + by rewrite lookup_insert_ne.
    + simpl. by rewrite lookup_insert_ne.
Qed.

Lemma move_assign_spec s ch this other xs ys :
  owned_by s ch → this ≠ other → ch !! this = Some xs → ch !! other = Some ys →
  ∃ s', move_assign this other s = Ok tt s' ∧
    owned_by s' (<[other := []]> (<[this := ys]> ch)).
Proof.
  intros Hown Hne Hthis Hoth.
  destruct (clear_spec _ _ _ _ Hown Hthis) as (s1 & Hclear & Hown1).
  destruct (owned_by_is_live s1 _ other ys Hown1) as (po & Hpo).
  { by rewrite lookup_insert_ne. }
  destruct (owned_by_is_live s1 _ this [] Hown1) as (pt & Hpt).
  { by rewrite lookup_insert_eq. }
  eexists. split.
  - unfold move_assign. rewrite bool_decide_true by done.
    rewrite (bind_Ok _ _ _ _ _ Hclear). munfold. mred. done.
  - pose proof (take_head_spec _ _ this other ys po Hown1 Hne) as Hown'.
    rewrite (insert_insert_eq ch) in Hown'. apply Hown'; [|by rewrite lookup_insert_ne|done].
    by rewrite lookup_insert_eq.
Qed.

Lemma swap_spec s ch this other xs ys :
  owned_by s ch → this ≠ other → ch !! this = Some xs → ch !! other = Some ys →
  ∃ s', swap this other s = Ok tt s' ∧
    owned_by s' (<[other := xs]> (<[this := ys]> ch)).
Proof.
  intros Hown Hne Hthis Hoth.
  destruct (owned_by_owns _ _ _ _ Hown Hoth) as (po & Hpo & Hcy).
  destruct (owned_by_owns _ _ _ _ Hown Hthis) as (pt & Hpt & Hcx).
  eexists. split.
  - unfold swap. munfold. mred. done.
  - eapply (owned_by_update2 s _ ch this other xs ys po pt ys xs);
      [done..| | | |]; simpl; auto.
    + intros a Ha Ha'.
      by apply (owned_by_disjoint _ _ _ _ _ _ Hown Hne Hthis Hoth a).
    + intros a [Ha|Ha]; auto.
Qed.

Lemma swap_self s ch this xs :
  owned_by s ch → ch !! this = Some xs → swap this this s = Ok tt s.
Proof.
  intros Hown Hthis. destruct (owned_by_is_live _ _ _ _ Hown Hthis) as (p & Hp).
  unfold swap. munfold. mred. rewrite insert_insert_eq, insert_id by done.
  by rewrite state_eta.
Qed.

Lemma push_n_spec n s ch this xs v :
  owned_by s ch → ch !! this = Some xs →
  ∃ s' new, push_n n this v s = Ok tt s' ∧
    owned_by s' (<[this := new ++ xs]> ch) ∧ new.*2 = replicate n v.
Proof.
  revert s ch xs. induction n as [|n IH]; intros s ch xs Hown Hthis.
  - exists s, []. split; [done|]. split; [by rewrite insert_id|done].
  - destruct (push_front_spec _ _ _ _ v Hown Hthis) as (a & s1 & _ & Hpush & Hown1 & _).
    destruct (IH s1 _ ((a, v) :: xs) Hown1) as (s' & new & Hn & Hown' & Hvals).
    { by rewrite lookup_insert_eq. }
    exists s', (new ++ [(a, v)]). split; [|split].
    + simpl. by rewrite (bind_Ok _ _ _ _ _ Hpush).
    + rewrite insert_insert_eq in Hown'. by rewrite <- app_assoc.
    + rewrite fmap_app, Hvals. simpl.
      change (v :: replicate n v) with (replicate (S n) v).
      by rewrite replicate_S_end.
Qed.

Lemma pop_n_spec n s ch this xs :
  owned_by s ch → ch !! this = Some xs →
  ∃ s', pop_n n this s = Ok tt s' ∧ owned_by s' (<[this := drop n xs]> ch).
Proof.
  revert s ch xs. induction n as [|n IH]; intros s ch xs Hown Hthis.
  - exists s. split; [done|]. by rewrite drop_0, insert_id.
  - destruct (pop_front_spec _ _ _ _ Hown Hthis) as (s1 & Hpop & Hown1 & _).
    destruct (IH s1 _ (tail xs) Hown1) as (s' & Hn & Hown').
    { by rewrite lookup_insert_eq. }
    exists s'. split.
    + simpl. by rewrite (bind_Ok _ _ _ _ _ Hpop).
    + rewrite insert_insert_eq in Hown'.
      destruct xs; simpl in *; [by rewrite drop_nil in Hown'|done].
Qed.

Lemma size_loop_spec fuel s p xs k :
  chain (nodes s) p xs → length xs < fuel →
  size_loop fuel p k s = Ok (k + length xs) s.
Proof.
  revert fuel p k. induction xs as [|[a v] xs IH]; intros fuel p k Hc Hf;
    (destruct fuel as [|fuel]; [simpl in Hf; lia|]).
  - simpl in Hc. subst p. simpl. by rewrite Nat.add_0_r.
  - destruct Hc as (-> & q & Ha & Hc). cbn [size_loop].
    rewrite (bind_Ok _ _ _ _ _ (get_next_Ok _ _ _ _ Ha)).
    rewrite (IH fuel q (S k)); [|done|simpl in Hf; lia].
    simpl. do 2 f_equal. lia.
Qed.

Lemma resize_spec s ch this xs count v :
  owned_by s ch → ch !! this = Some xs →
  ∃ s' new, resize this count v s = Ok tt s' ∧
    owned_by s' (<[this := new ++ drop (length xs - count) xs]> ch) ∧
    new.*2 = replicate (count - length xs) v.
Proof.
  intros Hown Hthis.
  destruct (owned_by_owns _ _ _ _ Hown Hthis) as (p & Hp & Hc).
  assert (resize this count v s =
            (if bool_decide (count < length xs) then pop_n (length xs - count) this
             else if bool_decide (length xs < count)
                  then push_n (count - length xs) this v else mret tt) s) as ->.
  { unfold resize. rewrite (bind_Ok _ _ _ _ _ (get_head_Ok _ _ _ Hp)).
    unfold with_budget at 1.
    erewrite bind_Ok; [done|].
    rewrite (size_loop_spec _ _ _ xs 0 Hc); [done|]. by eapply budget_chain. }
  repeat case_bool_decide.
  - destruct (pop_n_spec (length xs - count) _ _ _ _ Hown Hthis) as (s' & Hn & Hown').
    exists s', []. split; [done|]. split; [done|].
    replace (count - length xs) with 0 by lia. done.
  - destruct (push_n_spec (count - length xs) _ _ _ _ v Hown Hthis)
      as (s' & new & Hn & Hown' & Hvals).
    exists s', new. split; [done|]. split; [|done].
    replace (length xs - count) with 0 by lia. by rewrite drop_0.
  - exists s, []. split; [done|]. split.
    + replace (length xs - count) with 0 by lia. by rewrite drop_0, insert_id.
    + replace (count - length xs) with 0 by lia. done.
Qed.

Lemma owned_by_end_of_life s ch this :
  owned_by s ch → ch !! this = Some [] →
  owned_by (State (nodes s) (delete this (lists s))) (delete this ch).
Proof.
  intros (Hd & Ho & Hx) Hthis. split; [|split].
  - intros l. simpl. destruct (decide (l = this)) as [->|Hne].
    + by rewrite !lookup_delete_eq.
    + by rewrite !lookup_delete_ne.
  - intros l zs. destruct (decide (l = this)) as [->|Hne].
    + by rewrite lookup_delete_eq.
    + rewrite lookup_delete_ne by done. intros (p & Hp & Hc)%Ho.
      exists p. simpl. by rewrite lookup_delete_ne.
  - intros l1 l2 xs1 xs2 Hne H1 H2.
    apply lookup_delete_Some in H1 as [_ H1].
    apply lookup_delete_Some in H2 as [_ H2]. by eapply Hx.
Qed.

Lemma dtor_spec s ch this xs :
  owned_by s ch → ch !! this = Some xs →
  ∃ s', dtor this s = Ok tt s' ∧ owned_by s' (delete this ch).
Proof.
  intros Hown Hthis.
  destruct (clear_spec _ _ _ _ Hown Hthis) as (s1 & Hclear & Hown1).
  destruct (owned_by_is_live s1 _ this [] Hown1) as (pt & Hpt).
  { by rewrite lookup_insert_eq. }
  eexists. split.
  - unfold dtor. rewrite (bind_Ok _ _ _ _ _ Hclear). unfold end_of_life.
    by rewrite Hpt.
  - rewrite <- (delete_insert_eq ch this []).
    apply owned_by_end_of_life; [done|]. by rewrite lookup_insert_eq.
Qed.

(** ** Cursors *)

Lemma deref_Ok k s : link_live k s → deref k s = Ok (link_get k s) s.
Proof.
  destruct k as [l|b]; simpl.
  - intros [p Hp]. munfold. by mred.
  - intros (v & q & Hb). munfold. by mred.
Qed.

Lemma assign_link_Ok k p s :
  link_live k s → assign_link k p s = Ok tt (link_set k p s).
Proof.
  destruct k as [l|b]; simpl.
  - intros [p' Hp]. munfold. by mred.
  - intros (v & q & Hb). munfold. mred. do 2 f_equal.
    apply map_eq. intros a. destruct (decide (a = b)) as [->|Hne].
    + by rewrite lookup_insert_eq, lookup_alter_eq, Hb.
    + by rewrite lookup_insert_ne, lookup_alter_ne.
Qed.

Lemma next_link_Ok k s a v q :
  link_live k s → link_get k s = Some a → nodes s !! a = Some (cell v q) →
  next_link k s = Ok (NextOf a) s.
Proof.
  intros Hk Hg Ha. unfold next_link. rewrite (bind_Ok _ _ _ _ _ (deref_Ok _ _ Hk)).
  rewrite Hg. munfold. by mred.
Qed.

Lemma link_get_set k p s : link_live k s → link_get k (link_set k p s) = p.
Proof.
  destruct k as [l|b]; simpl.
  - intros _. by rewrite lookup_insert_eq.
  - intros (v & q & Hb). by rewrite lookup_alter_eq, Hb.
Qed.

Lemma link_live_set k p s : link_live k s → link_live k (link_set k p s).
Proof.
  destruct k as [l|b]; simpl.
  - intros _. rewrite lookup_insert_eq. eauto.
  - intros (v & q & Hb). exists v, p. by rewrite lookup_alter_eq, Hb.
Qed.

Lemma chain_link_set k p s q xs :
  link_out k xs.*1 → chain (nodes s) q xs → chain (nodes (link_set k p s)) q xs.
Proof.
  destruct k as [l|b]; simpl; [done|]. intros Hb.
  apply chain_frame. intros a Ha. apply lookup_alter_ne. by intros ->.
Qed.

(** The nodes before a position keep the chain they lead to when the
    store changes behind them. *)
Lemma chain_prefix_frame h h' p pre rest rest' :
  chain h p (pre ++ rest) →
  (∀ a, a ∈ pre.*1 → h' !! a = h !! a) →
  head rest'.*1 = head rest.*1 → chain h' (head rest'.*1) rest' →
  chain h' p (pre ++ rest').
Proof.
  revert p. induction pre as [|[a v] pre IH]; intros p Hc Hf Hh Hr; simpl in *.
  - rewrite (chain_head _ _ _ Hc). by rewrite <- Hh.
  - destruct Hc as (-> & q & Ha & Hc). split; [done|]. exists q. split.
    + rewrite Hf; [done|]. set_solver.
    + apply IH; [done| |done..]. intros b Hb. apply Hf. set_solver.
Qed.

End Specs.

Section Loops.
Context {T : Type} `{Elem T}.
Implicit Types (s : state T) (h : gmap loc (fwd_list_node T)).
Implicit Types (p q : ptr) (a b : loc) (l this other : lid) (v : T).
Implicit Types (xs ys acc : list (loc * T)) (ch : gmap lid (list (loc * T))).

(** ** reverse *)

Lemma fmap_rev {A B} (f : A → B) (l : list A) : f <$> rev l = rev (f <$> l).
Proof.
  induction l as [|x l IH]; [done|]. simpl. by rewrite fmap_app, IH.
Qed.

Lemma elem_of_rev {A} (x : A) (l : list A) : x ∈ rev l ↔ x ∈ l.
Proof. rewrite !list_elem_of_In. symmetry. apply in_rev. Qed.

Lemma reverse_loop_spec fuel s prev current acc xs :
  chain (nodes s) prev acc → chain (nodes s) current xs →
  (∀ a, a ∈ acc.*1 → a ∈ xs.*1 → False) → length xs < fuel →
  ∃ s' p', reverse_loop fuel prev current s = Ok p' s' ∧
    lists s' = lists s ∧ chain (nodes s') p' (rev xs ++ acc) ∧
    (∀ a, a ∉ xs.*1 → nodes s' !! a = nodes s !! a).
Proof.
  revert fuel s prev current acc.
  induction xs as [|[a v] xs IH]; intros fuel s prev current acc Hacc Hc Hdisj Hf;
    (destruct fuel as [|fuel]; [simpl in Hf; lia|]).
  - simpl in Hc. subst current. exists s, prev. done.
  - pose proof (chain_NoDup _ _ _ Hc) as Hnd.
    rewrite fmap_cons in Hnd. apply NoDup_cons in Hnd as [Hna Hnd].
    destruct Hc as (-> & q & Ha & Hc).
    set (s1 := State (<[a := cell v prev]> (nodes s)) (lists s)).
    destruct (IH fuel s1 (Some a) q ((a, v) :: acc)) as (s' & p' & Hloop & Hl & Hc' & Hfr).
    { simpl. split; [done|]. exists prev. rewrite lookup_insert_eq. split; [done|].
      apply chain_insert_ne; [|done]. intros Hin. apply (Hdisj a Hin).
      rewrite fmap_cons. set_solver. }
    { simpl. by apply chain_insert_ne. }
    { intros b. rewrite fmap_cons. intros [->|Hb]%elem_of_cons Hb'; [done|].
      apply (Hdisj b Hb). rewrite fmap_cons. set_solver. }
    { simpl in Hf. lia. }
    exists s', p'. split; [|split; [done|split]].
    + rewrite <- Hloop. cbn [reverse_loop].
      rewrite (bind_Ok _ _ _ _ _ (get_next_Ok _ _ _ _ Ha)).
      by rewrite (bind_Ok _ _ _ _ _ (set_next_Ok _ _ _ prev Ha)).
    + simpl. by rewrite <- app_assoc.
    + intros b Hb. rewrite fmap_cons in Hb. apply not_elem_of_cons in Hb as [Hne Hb].
      rewrite (Hfr b Hb). simpl. by rewrite lookup_insert_ne.
Qed.

Lemma reverse_spec s ch this xs :
  owned_by s ch → ch !! this = Some xs →
  ∃ s', reverse this s = Ok tt s' ∧ owned_by s' (<[this := rev xs]> ch).
Proof.
  intros Hown Hthis. destruct (owned_by_owns _ _ _ _ Hown Hthis) as (p & Hp & Hc).
  destruct (reverse_loop_spec (budget s) s None p [] xs)
    as (s1 & p' & Hloop & Hl & Hc' & Hfr); [done..| |by eapply budget_chain|].
  { intros a Ha. by apply not_elem_of_nil in Ha. }
  rewrite app_nil_r in Hc'.
  exists (State (nodes s1) (<[this := p']> (lists s1))). split.
  - unfold reverse. rewrite (bind_Ok _ _ _ _ _ (get_head_Ok _ _ _ Hp)).
    change (reverse_loop (budget s) None p s)
      with (with_budget (λ n, reverse_loop n None p) s) in Hloop.
    rewrite (bind_Ok _ _ _ _ _ Hloop).
    apply set_head_Ok with p. by rewrite Hl.
  - eapply owned_by_update; [done..| |done| |].
    + simpl. by rewrite Hl.
    + intros a Ha. left. rewrite fmap_rev in Ha. by apply (proj1 (elem_of_rev _ _)) in Ha.
    + intros a Ha _. simpl. by apply Hfr.
Qed.

(** ** remove and remove_if *)

Lemma link_frame_refl k bs s : link_live k s → link_frame k bs s s.
Proof. intros Hk. split; [done|]. split; [done|]. eauto. Qed.

Lemma link_frame_get k k' bs s s' :
  link_frame k' bs s s' → k ≠ k' → link_out k bs →
  link_get k s' = link_get k s ∧ (link_live k s → link_live k s').
Proof.
  intros (Hl & Hn & _) Hne Ho. destruct k as [l|b]; simpl in *.
  - rewrite Hl by congruence. done.
  - rewrite Hn by congruence. done.
Qed.

Lemma link_set_frame k p s bs : link_live k s → link_frame k bs s (link_set k p s).
Proof.
  intros Hk. split; [|split].
  - intros l Hne. destruct k as [l'|b]; simpl; [|done].
    apply lookup_insert_ne. congruence.
  - intros a _ Hne. destruct k as [l'|b]; simpl; [done|].
    apply lookup_alter_ne. congruence.
  - intros a v q -> Ha. simpl. exists p. by rewrite lookup_alter_eq, Ha.
Qed.

Lemma remove_if_loop_spec fuel pred k s xs :
  link_live k s → chain (nodes s) (link_get k s) xs → link_out k xs.*1 →
  length xs < fuel →
  ∃ s', remove_if_loop fuel pred k s = Ok tt s' ∧ link_live k s' ∧
    chain (nodes s') (link_get k s') (filter (λ x, pred x.2 = false) xs) ∧
    link_frame k xs.*1 s s' ∧
    (∀ a v, (a, v) ∈ xs → pred v = true → nodes s' !! a = None).
Proof.
  revert fuel k s.
  induction xs as [|[a v] xs IH]; intros fuel k s Hk Hc Hout Hf;
    (destruct fuel as [|fuel]; [simpl in Hf; lia|]).
  - simpl in Hc. exists s. split.
    { cbn [remove_if_loop]. rewrite (bind_Ok _ _ _ _ _ (deref_Ok _ _ Hk)).
      by rewrite Hc. }
    split; [done|]. split; [by rewrite Hc|]. split; [by apply link_frame_refl|].
    intros a v Hin. by apply elem_of_nil in Hin.
  - pose proof (chain_NoDup _ _ _ Hc) as Hnd.
    rewrite fmap_cons in Hnd. apply NoDup_cons in Hnd as [Hna Hnd].
    destruct Hc as (Hg & q & Ha & Hc). simpl in Hna.
    assert (link_out k xs.*1 ∧ k ≠ NextOf a) as [Hout' Hka].
    { destruct k as [l|b]; simpl in *; [done|].
      apply not_elem_of_cons in Hout as [? ?]. split; [done|congruence]. }
    destruct (pred v) eqn:Hpred.
    + set (s0 := link_set k q s).
      assert (nodes s0 !! a = Some (cell v q)) as Ha0.
      { destruct (link_set_frame k q s [] Hk) as (_ & Hn & _).
        rewrite Hn; [done| |done]. apply not_elem_of_nil. }
      set (s1 := State (delete a (nodes s0)) (lists s0)).
      assert (link_frame k ((a, v) :: xs).*1 s s1) as Hfr1.
      { destruct (link_set_frame k q s [] Hk) as (Hl & Hn & Hv).
        split; [done|]. split.
        - intros b Hb Hkb. rewrite fmap_cons in Hb.
          apply not_elem_of_cons in Hb as [Hb _]. simpl.
          rewrite lookup_delete_ne by done. apply Hn; [apply not_elem_of_nil|done].
        - intros b w r -> Hb. destruct (Hv b w r eq_refl Hb) as (q' & Hq').
          exists q'. simpl. rewrite lookup_delete_ne by congruence. done. }
      assert (link_live k s1) as Hk1.
      { pose proof (link_live_set k q s Hk) as Hk0. destruct k as [l|b]; [done|].
        destruct Hk0 as (w & r & Hb). exists w, r. simpl.
        rewrite lookup_delete_ne by congruence. done. }
      assert (link_get k s1 = q) as Hg1.
      { pose proof (link_get_set k q s Hk) as Hg0. destruct k as [l|b]; [done|].
        simpl in *. rewrite lookup_delete_ne by congruence. done. }
      destruct (IH fuel k s1) as (s' & Hloop & Hk' & Hc' & Hfr & Hgone);
        [done| |done|simpl in Hf; lia|].
      { rewrite Hg1. simpl. apply chain_delete_ne; [done|].
        by apply chain_link_set. }
      exists s'. split; [|split; [done|split; [|split]]].
      * rewrite <- Hloop. cbn [remove_if_loop].
        rewrite (bind_Ok _ _ _ _ _ (deref_Ok _ _ Hk)). rewrite Hg.
        rewrite (bind_Ok _ _ _ _ _ (get_value_Ok _ _ _ _ Ha)). rewrite Hpred.
        rewrite (bind_Ok _ _ _ _ _ (get_next_Ok _ _ _ _ Ha)).
        rewrite (bind_Ok _ _ _ _ _ (assign_link_Ok _ q _ Hk)).
        by rewrite (bind_Ok _ _ _ _ _ (destroy_node_Ok _ _ _ Ha0)).
      * rewrite filter_cons_False; [done|]. simpl. congruence.
      * destruct Hfr1 as (Hl1 & Hn1 & Hv1). destruct Hfr as (Hl & Hn & Hv).
        split; [|split].
        -- intros l Hne. by rewrite Hl, Hl1.
        -- intros b Hb Hkb.
           assert (b ∉ xs.*1).
           { rewrite fmap_cons in Hb. by apply not_elem_of_cons in Hb as [_ ?]. }
           by rewrite Hn, Hn1.
        -- intros b w r Hkb Hb. destruct (Hv1 b w r Hkb Hb) as (q1 & Hq1).
           by apply (Hv b w q1).
      * intros b w [[= -> ->]|Hin]%elem_of_cons Hw.
        -- destruct Hfr as (_ & Hn & _). rewrite Hn; [|done|congruence].
           simpl. apply lookup_delete_eq.
        -- by apply (Hgone b w).
    + destruct (IH fuel (NextOf a) s) as (s' & Hloop & Hk' & Hc' & Hfr & Hgone);
        [by simpl; eauto| |done|simpl in Hf; lia|].
      { simpl. by rewrite Ha. }
      destruct (link_frame_get k (NextOf a) _ _ _ Hfr Hka Hout') as [Hg' Hlive'].
      exists s'. split; [|split; [by apply Hlive'|split; [|split]]].
      * rewrite <- Hloop. cbn [remove_if_loop].
        rewrite (bind_Ok _ _ _ _ _ (deref_Ok _ _ Hk)). rewrite Hg.
        rewrite (bind_Ok _ _ _ _ _ (get_value_Ok _ _ _ _ Ha)). rewrite Hpred.
        by rewrite (bind_Ok _ _ _ _ _ (next_link_Ok _ _ _ _ _ Hk Hg Ha)).
      * rewrite filter_cons_True by done. rewrite Hg', Hg.
        destruct Hfr as (_ & _ & Hv). destruct (Hv a v q eq_refl Ha) as (q' & Hq').
        split; [done|]. exists q'. split; [done|].
        simpl in Hc'. by rewrite Hq' in Hc'.
      * destruct Hfr as (Hl & Hn & Hv). split; [|split].
        -- intros l Hne. by apply Hl.
        -- intros b Hb Hkb. rewrite fmap_cons in Hb.
           apply not_elem_of_cons in Hb as [? ?]. simpl in *.
           apply Hn; [done|congruence].
        -- intros b w r -> Hb. exists r. rewrite Hn; [done| |congruence].
           exact Hout'.
      * intros b w [[= -> ->]|Hin]%elem_of_cons Hw; [congruence|].
        by apply (Hgone b w).
Qed.

Lemma link_frame_head this bs s s' :
  link_frame (HeadOf this) bs s s' → link_live (HeadOf this) s' →
  lists s' = <[this := link_get (HeadOf this) s']> (lists s).
Proof.
  intros (Hl & _ & _) [p Hp]. simpl in *. apply map_eq. intros l.
  destruct (decide (l = this)) as [->|Hne].
  - by rewrite lookup_insert_eq, Hp.
  - rewrite lookup_insert_ne by done. apply Hl. congruence.
Qed.

Lemma remove_if_spec s ch this xs pred :
  owned_by s ch → ch !! this = Some xs →
  ∃ s', remove_if this pred s = Ok tt s' ∧
    owned_by s' (<[this := filter (λ x, pred x.2 = false) xs]> ch) ∧
    (∀ a v, (a, v) ∈ xs → pred v = true → nodes s' !! a = None).
Proof.
  intros Hown Hthis. destruct (owned_by_owns _ _ _ _ Hown Hthis) as (p & Hp & Hc).
  destruct (remove_if_loop_spec (budget s) pred (HeadOf this) s xs)
    as (s' & Hloop & Hk' & Hc' & Hfr & Hgone).
  { simpl. eauto. }
  { simpl. by rewrite Hp. }
  { done. }
  { by eapply budget_chain. }
  exists s'. split; [done|]. split; [|done].
  eapply owned_by_update; [done..|by apply (link_frame_head _ _ _ _ Hfr)|done| |].
  - intros a Ha. left. apply list_elem_of_fmap in Ha as (x & -> & Hx).
    apply list_elem_of_filter in Hx as [_ Hx]. by apply list_elem_of_fmap_2.
  - intros a Ha _. destruct Hfr as (_ & Hn & _). by apply Hn.
Qed.

(** ** unique *)

Lemma unique_from_head x r : ∃ r', unique_from x r = x :: r'.
Proof.
  revert x. induction r as [|y r IH]; intros x; simpl; [eauto|].
  destruct (elt_eqb x.2 y.2); eauto.
Qed.

Lemma unique_from_sub x r a : a ∈ (unique_from x r).*1 → a ∈ (x :: r).*1.
Proof.
  revert x. induction r as [|y r IH]; intros x; simpl; [done|].
  destruct (elt_eqb x.2 y.2).
  - intros Ha%IH. simpl in Ha. set_solver.
  - simpl. intros [->|Ha%IH]%elem_of_cons; [set_solver|]. simpl in Ha. set_solver.
Qed.

Lemma unique_loop_spec fuel s a v r :
  chain (nodes s) (Some a) ((a, v) :: r) → length r < fuel →
  ∃ s', unique_loop fuel (Some a) s = Ok tt s' ∧ lists s' = lists s ∧
    chain (nodes s') (Some a) (unique_from (a, v) r) ∧
    (∀ b, b ∉ ((a, v) :: r).*1 → nodes s' !! b = nodes s !! b) ∧
    (∀ b, b ∈ ((a, v) :: r).*1 → b ∉ (unique_from (a, v) r).*1 →
       nodes s' !! b = None).
Proof.
  revert fuel s a v.
  induction r as [|[b w] r IH]; intros fuel s a v Hc Hf;
    (destruct fuel as [|fuel]; [simpl in Hf; lia|]).
  - exists s. pose proof Hc as (_ & q & Ha & ->). split.
    { cbn [unique_loop]. by rewrite (bind_Ok _ _ _ _ _ (get_next_Ok _ _ _ _ Ha)). }
    split; [done|]. split; [done|]. split; [done|]. intros b Hb Hb'. done.
  - pose proof (chain_NoDup _ _ _ Hc) as Hnd. rewrite !fmap_cons in Hnd. simpl in Hnd.
    apply NoDup_cons in Hnd as [Hna Hnd]. apply NoDup_cons in Hnd as [Hnb Hnd].
    apply not_elem_of_cons in Hna as [Hab Hna].
    destruct Hc as (_ & q0 & Ha & -> & q & Hb & Hc).
    assert (unique_loop (S fuel) (Some a) s =
              (if elt_eqb v w
               then set_next (Some a) q;; destroy_node (Some b);;
                    unique_loop fuel (Some a)
               else unique_loop fuel (Some b)) s) as ->.
    { cbn [unique_loop].
      rewrite (bind_Ok _ _ _ _ _ (get_next_Ok _ _ _ _ Ha)).
      rewrite (bind_Ok _ _ _ _ _ (get_value_Ok _ _ _ _ Ha)).
      rewrite (bind_Ok _ _ _ _ _ (get_value_Ok _ _ _ _ Hb)).
      destruct (elt_eqb v w); [|done].
      by rewrite (bind_Ok _ _ _ _ _ (get_next_Ok _ _ _ _ Hb)). }
    simpl. destruct (elt_eqb v w).
    + set (s1 := State (delete b (<[a := cell v q]> (nodes s))) (lists s)).
      destruct (IH fuel s1 a v) as (s' & Hloop & Hl & Hc' & Hfr & Hgone).
      { simpl. split; [done|]. exists q. split.
        - rewrite lookup_delete_ne by done. by rewrite lookup_insert_eq.
        - apply chain_delete_ne; [done|]. by apply chain_insert_ne. }
      { simpl in Hf. lia. }
      exists s'. split; [|split; [done|split; [done|split]]].
      * rewrite (bind_Ok _ _ _ _ _ (set_next_Ok _ _ _ q Ha)).
        erewrite bind_Ok; [done|]. apply destroy_node_Ok with (cell w q).
        simpl. by rewrite lookup_insert_ne.
      * intros c Hc0. rewrite ?fmap_cons in Hc0. simpl in Hc0.
        apply not_elem_of_cons in Hc0 as [Hca Hc0].
        apply not_elem_of_cons in Hc0 as [Hcb Hc0].
        rewrite Hfr. 2:{ rewrite ?fmap_cons. simpl. set_solver. }
        simpl. rewrite lookup_delete_ne by done. by rewrite lookup_insert_ne.
      * intros c Hc0 Hc1. destruct (decide (c = b)) as [->|Hcb].
        -- rewrite Hfr. 2:{ rewrite ?fmap_cons. simpl. set_solver. }
           simpl. apply lookup_delete_eq.
        -- apply Hgone; [|done]. rewrite ?fmap_cons in *. simpl in *. set_solver.
    + destruct (IH fuel s b w) as (s' & Hloop & Hl & Hc' & Hfr & Hgone).
      { simpl. eauto. }
      { simpl in Hf. lia. }
      exists s'. split; [done|]. split; [done|]. split; [|split].
      * simpl. split; [done|]. exists (Some b). split; [|done].
        rewrite Hfr; [done|]. rewrite ?fmap_cons. simpl. set_solver.
      * intros c Hc0. apply Hfr. rewrite ?fmap_cons in *. simpl in *. set_solver.
      * intros c Hc0 Hc1. apply Hgone.
        -- rewrite ?fmap_cons in *. simpl in *. set_solver.
        -- rewrite ?fmap_cons in *. simpl in *. set_solver.
Qed.

Lemma unique_spec s ch this xs :
  owned_by s ch → ch !! this = Some xs →
  ∃ s', unique this s = Ok tt s' ∧ owned_by s' (<[this := unique_list xs]> ch) ∧
    (∀ b, b ∈ xs.*1 → b ∉ (unique_list xs).*1 → nodes s' !! b = None).
Proof.
  intros Hown Hthis. destruct (owned_by_owns _ _ _ _ Hown Hthis) as (p & Hp & Hc).
  pose proof (budget_chain _ _ _ Hc) as Hb.
  unfold unique. rewrite (bind_Ok _ _ _ _ _ (get_head_Ok _ _ _ Hp)).
  unfold with_budget. destruct xs as [|[a v] r].
  - simpl in Hc. subst p. exists s. split; [|split].
    + destruct (budget s); [simpl in Hb; lia|done].
    + by rewrite insert_id.
    + intros b Hin. by apply not_elem_of_nil in Hin.
  - pose proof Hc as (-> & _).
    destruct (unique_loop_spec (budget s) s a v r)
      as (s' & Hloop & Hl & Hc' & Hfr & Hgone); [done|simpl in Hb; lia|].
    exists s'. split; [done|]. split; [|done].
    eapply owned_by_update; [done..| |done| |].
    + by rewrite Hl, insert_id.
    + intros b Hin. left. by apply unique_from_sub.
    + intros b Hin _. by apply Hfr.
Qed.

(** ** merge *)

Lemma merge_list_nil_r xs : merge_list xs [] = xs.
Proof. done. Qed.

Lemma merge_list_nil_l ys : merge_list [] ys = ys.
Proof. by destruct ys. Qed.

Lemma merge_list_cons x xs y ys :
  merge_list (x :: xs) (y :: ys) =
    if elt_ltb x.2 y.2 then x :: merge_list xs (y :: ys)
    else merge_list (y :: x :: xs) ys.
Proof. done. Qed.

Lemma merge_list_perm xs ys : merge_list xs ys ≡ₚ xs ++ ys.
Proof.
  revert xs. induction ys as [|y ys IHy]; intros xs.
  - by rewrite merge_list_nil_r, app_nil_r.
  - induction xs as [|x xs IHx].
    + by rewrite merge_list_nil_l.
    + rewrite merge_list_cons. destruct (elt_ltb x.2 y.2).
      * simpl. by rewrite IHx.
      * rewrite IHy. apply (Permutation_middle (x :: xs) ys y).
Qed.

Lemma merge_unfold this other s :
  merge this other s =
    (pos ← with_budget (λ n, merge_loop n (HeadOf this) other);
     merge_tail pos other) s.
Proof. done. Qed.

Lemma merge_frame_refl k other bs s : merge_frame k other bs s s.
Proof. split; [done|]. split; [done|]. eauto. Qed.

Lemma merge_frame_get k k' other bs s s' :
  merge_frame k' other bs s s' → k ≠ k' → k ≠ HeadOf other → link_out k bs →
  link_get k s' = link_get k s ∧ (link_live k s → link_live k s').
Proof.
  intros (Hl & Hn & _) Hne Hko Ho. destruct k as [l|b]; simpl in *.
  - rewrite Hl by congruence. done.
  - rewrite Hn by congruence. done.
Qed.

Lemma link_set_lists k p s l :
  k ≠ HeadOf l → lists (link_set k p s) !! l = lists s !! l.
Proof.
  intros Hne. destruct k as [l'|b]; simpl; [|done].
  apply lookup_insert_ne. congruence.
Qed.

Lemma link_set_nodes k p s a :
  k ≠ NextOf a → nodes (link_set k p s) !! a = nodes s !! a.
Proof.
  intros Hne. destruct k as [l'|b]; simpl; [done|].
  apply lookup_alter_ne. congruence.
Qed.

Lemma link_out_ne k bs a : link_out k bs → a ∈ bs → k ≠ NextOf a.
Proof. destruct k as [l|b]; simpl; [done|]. congruence. Qed.

Lemma link_out_sub k bs bs' : link_out k bs → (∀ a, a ∈ bs' → a ∈ bs) → link_out k bs'.
Proof. destruct k as [l|b]; simpl; [done|]. intros Hb Hs Hin. by apply Hb, Hs. Qed.

Lemma merge_loop_spec fuel k other s xs ys po :
  link_live k s → chain (nodes s) (link_get k s) xs →
  lists s !! other = Some po → chain (nodes s) po ys →
  k ≠ HeadOf other → link_out k (xs.*1 ++ ys.*1) →
  (∀ a, a ∈ xs.*1 → a ∈ ys.*1 → False) →
  length xs + 2 * length ys < fuel →
  ∃ k' s1 s', merge_loop fuel k other s = Ok k' s1 ∧
    merge_tail k' other s1 = Ok tt s' ∧
    link_live k s' ∧ chain (nodes s') (link_get k s') (merge_list xs ys) ∧
    lists s' !! other = Some None ∧
    merge_frame k other (xs.*1 ++ ys.*1) s s'.
Proof.
  revert k s xs ys po.
  induction fuel as [|fuel IH]; intros k s xs ys po Hk Hcx Hpo Hcy Hko Hout Hdisj Hf;
    [lia|].
  destruct xs as [|[a x] xs].
  { (* the cursor is at the end of the chain *)
    simpl in Hcx.
    assert (merge_loop (S fuel) k other s = Ok k s) as Hloop.
    { cbn [merge_loop]. rewrite (bind_Ok _ _ _ _ _ (deref_Ok _ _ Hk)).
      rewrite (bind_Ok _ _ _ _ _ (get_head_Ok _ _ _ Hpo)). by rewrite Hcx. }
    exists k, s. rewrite merge_list_nil_l.
    destruct ys as [|[b y] ys].
    - simpl in Hcy. subst po. exists s. split; [done|]. split.
      { unfold merge_tail. by rewrite (bind_Ok _ _ _ _ _ (get_head_Ok _ _ _ Hpo)). }
      split; [done|]. split; [by rewrite Hcx|]. split; [done|].
      apply merge_frame_refl.
    - pose proof Hcy as (-> & _).
      set (s0 := link_set k (Some b) s).
      exists (State (nodes s0) (<[other := None]> (lists s0))).
      split; [done|]. split.
      { unfold merge_tail. rewrite (bind_Ok _ _ _ _ _ (get_head_Ok _ _ _ Hpo)).
        rewrite (bind_Ok _ _ _ _ _ (assign_link_Ok _ _ _ Hk)).
        apply set_head_Ok with (Some b). subst s0. by rewrite link_set_lists. }
      pose proof (link_live_set k (Some b) s Hk) as Hk0.
      pose proof (link_get_set k (Some b) s Hk) as Hg0.
      split; [|split; [|split]].
      + destruct k as [l|c]; simpl in *; [|done].
        rewrite lookup_insert_ne by congruence. done.
      + assert (link_get k (State (nodes s0) (<[other := None]> (lists s0))) = Some b)
          as ->.
        { destruct k as [l|c]; simpl in *; [|done].
          rewrite lookup_insert_ne by congruence. done. }
        apply (chain_link_set k (Some b) s); [|done].
        eapply link_out_sub; [done|]. intros c. simpl. set_solver.
      + simpl. by rewrite lookup_insert_eq.
      + split; [|split].
        * intros l Hkl Hlo. simpl. rewrite lookup_insert_ne by done.
          by apply link_set_lists.
        * intros c _ Hkc. simpl. by apply link_set_nodes.
        * intros c v q -> Hc. simpl. exists (Some b).
          by rewrite lookup_alter_eq, Hc. }
  destruct ys as [|[b y] ys].
  { (* the argument is empty *)
    simpl in Hcy. subst po. pose proof Hcx as (Hg & _).
    exists k, s, s. rewrite merge_list_nil_r. split.
    { cbn [merge_loop]. rewrite (bind_Ok _ _ _ _ _ (deref_Ok _ _ Hk)).
      rewrite (bind_Ok _ _ _ _ _ (get_head_Ok _ _ _ Hpo)). by rewrite Hg. }
    split.
    { unfold merge_tail. by rewrite (bind_Ok _ _ _ _ _ (get_head_Ok _ _ _ Hpo)). }
    split; [done|]. split; [done|]. split; [done|]. apply merge_frame_refl. }
  pose proof (chain_NoDup _ _ _ Hcx) as Hndx.
  pose proof (chain_NoDup _ _ _ Hcy) as Hndy.
  rewrite ?fmap_cons in Hndx, Hndy. simpl in Hndx, Hndy.
  apply NoDup_cons in Hndx as [Hnax _]. apply NoDup_cons in Hndy as [Hnby _].
  destruct Hcx as (Hg & qa & Ha & Hcx). destruct Hcy as (-> & qb & Hb & Hcy).
  assert (a ≠ b) as Hab.
  { intros ->. apply (Hdisj b); rewrite ?fmap_cons; simpl; set_solver. }
  assert (k ≠ NextOf a ∧ k ≠ NextOf b) as [Hka Hkb].
  { split; eapply link_out_ne; try done; rewrite ?fmap_cons; simpl; set_solver. }
  assert (merge_loop (S fuel) k other s =
            (if elt_ltb x y
             then pos' ← next_link k; merge_loop fuel pos' other
             else set_head other qb;; p' ← deref k; set_next (Some b) p';;
                  assign_link k (Some b);; merge_loop fuel k other) s) as ->.
  { cbn [merge_loop]. rewrite (bind_Ok _ _ _ _ _ (deref_Ok _ _ Hk)).
    rewrite (bind_Ok _ _ _ _ _ (get_head_Ok _ _ _ Hpo)). rewrite Hg.
    rewrite (bind_Ok _ _ _ _ _ (get_value_Ok _ _ _ _ Ha)).
    rewrite (bind_Ok _ _ _ _ _ (get_value_Ok _ _ _ _ Hb)).
    destruct (elt_ltb x y); [done|].
    by rewrite (bind_Ok _ _ _ _ _ (get_next_Ok _ _ _ _ Hb)). }
  rewrite merge_list_cons. simpl. destruct (elt_ltb x y).
  - (* the cursor passes the node *)
    destruct (IH (NextOf a) s xs ((b, y) :: ys) (Some b))
      as (k' & s1 & s' & Hloop & Htail & Hk' & Hc' & Ho' & Hfr).
    { simpl. eauto. }
    { simpl. by rewrite Ha. }
    { done. }
    { simpl. eauto. }
    { done. }
    { simpl. rewrite ?fmap_cons. simpl. intros Hin.
      apply elem_of_app in Hin as [Hin|Hin]; [done|].
      apply (Hdisj a); [rewrite ?fmap_cons; simpl; set_solver|done]. }
    { intros c Hc. apply Hdisj. rewrite ?fmap_cons. set_solver. }
    { simpl in *. lia. }
    assert (link_out k (xs.*1 ++ ((b, y) :: ys).*1)) as Hout'.
    { eapply link_out_sub; [done|]. intros c. rewrite ?fmap_cons. simpl. set_solver. }
    destruct (merge_frame_get k (NextOf a) _ _ _ _ Hfr Hka Hko Hout') as [Hg' Hlive'].
    exists k', s1, s'. split.
    { by rewrite (bind_Ok _ _ _ _ _ (next_link_Ok _ _ _ _ _ Hk Hg Ha)). }
    split; [done|]. split; [by apply Hlive'|]. split; [|split; [done|]].
    + rewrite Hg', Hg. destruct Hfr as (_ & _ & Hv).
      destruct (Hv a x qa eq_refl Ha) as (q' & Hq').
      split; [done|]. exists q'. split; [done|].
      simpl in Hc'. by rewrite Hq' in Hc'.
    + destruct Hfr as (Hl & Hn & Hv). split; [|split].
      * intros l Hkl Hlo. by apply Hl.
      * intros c Hc Hkc. apply Hn.
        -- intros Hin. apply Hc. revert Hin. rewrite ?fmap_cons. simpl. set_solver.
        -- intros [= ->]. apply Hc. rewrite ?fmap_cons. simpl. set_solver.
      * intros c v q -> Hc. exists q. rewrite Hn; [done| |congruence].
        intros Hin. simpl in Hout. apply Hout. revert Hin.
        rewrite ?fmap_cons. simpl. set_solver.
  - (* the head of the argument moves in front of the node *)
    set (s0 := State (<[b := cell y (Some a)]> (nodes s)) (<[other := qb]> (lists s))).
    set (s2 := link_set k (Some b) s0).
    assert (link_live k s0) as Hk0.
    { destruct k as [l|c]; simpl in *.
      - rewrite lookup_insert_ne by congruence. done.
      - destruct Hk as (v & q & Hc). exists v, q.
        rewrite lookup_insert_ne by congruence. done. }
    assert (link_get k s0 = Some a) as Hg0.
    { rewrite <- Hg. destruct k as [l|c]; simpl.
      - rewrite lookup_insert_ne by congruence. done.
      - rewrite lookup_insert_ne by congruence. done. }
    destruct (IH k s2 ((b, y) :: (a, x) :: xs) ys qb)
      as (k' & s1 & s' & Hloop & Htail & Hk' & Hc' & Ho' & Hfr).
    { by apply link_live_set. }
    { subst s2. rewrite link_get_set by done. split; [done|].
      exists (Some a). split.
      - rewrite link_set_nodes by done. simpl. by rewrite lookup_insert_eq.
      - apply chain_link_set.
        { eapply link_out_sub; [done|]. intros c. rewrite ?fmap_cons. simpl. set_solver. }
        simpl. split; [done|]. exists qa. split.
        + by rewrite lookup_insert_ne.
        + apply chain_insert_ne; [|done]. intros Hin.
          apply (Hdisj b); rewrite ?fmap_cons; simpl; set_solver. }
    { subst s2. rewrite link_set_lists by done. simpl. by rewrite lookup_insert_eq. }
    { subst s2. apply chain_link_set.
      { eapply link_out_sub; [done|]. intros c. rewrite ?fmap_cons. simpl. set_solver. }
      simpl. by apply chain_insert_ne. }
    { done. }
    { eapply link_out_sub; [done|]. intros c. rewrite ?fmap_cons. simpl. set_solver. }
    { intros c. rewrite ?fmap_cons. simpl. intros [->|Hc]%elem_of_cons Hc'; [done|].
      apply (Hdisj c); rewrite ?fmap_cons; simpl; set_solver. }
    { simpl in *. lia. }
    exists k', s1, s'. split.
    { rewrite (bind_Ok _ _ _ _ _ (set_head_Ok _ _ _ qb Hpo)).
      fold s0 in Hk0, Hg0.
      assert (deref k (State (nodes s) (<[other := qb]> (lists s))) =
                Ok (Some a) (State (nodes s) (<[other := qb]> (lists s)))) as Hd.
      { rewrite <- Hg. destruct k as [l|c]; simpl.
        - munfold. simpl. rewrite lookup_insert_ne by congruence.
          destruct Hk as [p Hp]. rewrite Hp. done.
        - destruct Hk as (v & q & Hc). munfold. mred. done. }
      rewrite (bind_Ok _ _ _ _ _ Hd).
      erewrite bind_Ok; [|apply (set_next_Ok _ b (cell y qb) (Some a)); exact Hb].
      simpl. fold s0. by rewrite (bind_Ok _ _ _ _ _ (assign_link_Ok _ _ _ Hk0)). }
    split; [done|]. split; [done|]. split; [done|]. split; [done|].
    destruct Hfr as (Hl & Hn & Hv). split; [|split].
    + intros l Hkl Hlo. rewrite Hl by done. subst s2.
      rewrite link_set_lists by done. simpl. by rewrite lookup_insert_ne.
    + intros c Hc Hkc. rewrite Hn; [| |done].
      * subst s2. rewrite link_set_nodes by done. simpl.
        apply lookup_insert_ne. intros ->. apply Hc. rewrite ?fmap_cons. simpl. set_solver.
      * intros Hin. apply Hc. revert Hin. rewrite ?fmap_cons. simpl. set_solver.
    + intros c v q -> Hc.
      apply (Hv c v (Some b)); [done|]. subst s2. simpl.
      rewrite lookup_alter_eq. rewrite lookup_insert_ne by congruence.
      by rewrite Hc.
Qed.

End Loops.

Section TwoLists.
Context {T : Type} `{Elem T}.
Implicit Types (s : state T) (h : gmap loc (fwd_list_node T)).
Implicit Types (p q : ptr) (a b : loc) (l this other : lid) (v : T).
Implicit Types (xs ys acc : list (loc * T)) (ch : gmap lid (list (loc * T))).

Lemma merge_spec s ch this other xs ys :
  owned_by s ch → this ≠ other → ch !! this = Some xs → ch !! other = Some ys →
  ∃ s', merge this other s = Ok tt s' ∧
    owned_by s' (<[other := []]> (<[this := merge_list xs ys]> ch)).
Proof.
  intros Hown Hne Hthis Hoth.
  destruct (owned_by_owns _ _ _ _ Hown Hthis) as (pt & Hpt & Hcx).
  destruct (owned_by_owns _ _ _ _ Hown Hoth) as (po & Hpo & Hcy).
  pose proof (owned_by_disjoint _ _ _ _ _ _ Hown Hne Hthis Hoth) as Hdisj.
  destruct (merge_loop_spec (budget s) (HeadOf this) other s xs ys po)
    as (k' & s1 & s' & Hloop & Htail & Hk' & Hc' & Ho' & Hfr).
  { simpl. eauto. }
  { simpl. by rewrite Hpt. }
  { done. }
  { done. }
  { congruence. }
  { done. }
  { done. }
  { pose proof (chain_NoDup _ _ _ Hcx) as Hndx.
    pose proof (chain_NoDup _ _ _ Hcy) as Hndy.
    assert (length (xs.*1 ++ ys.*1) ≤ size (nodes s)) as Hsz.
    { assert (NoDup (xs.*1 ++ ys.*1)) as Hnd.
      { apply NoDup_app. split; [done|]. split; [|done]. intros a Ha Ha'.
        by apply (Hdisj a). }
      rewrite <- (size_list_to_set (C := gset loc)) by done.
      rewrite <- size_dom. apply subseteq_size. intros a.
      rewrite elem_of_list_to_set, elem_of_app, elem_of_dom.
      intros [Ha|Ha].
      - destruct (chain_lookup _ _ _ _ Hcx Ha) as (v & q & ->). eauto.
      - destruct (chain_lookup _ _ _ _ Hcy Ha) as (v & q & ->). eauto. }
    rewrite length_app, !length_fmap in Hsz. rewrite budget_size. lia. }
  exists s'. split.
  { rewrite merge_unfold.
    change (merge_loop (budget s) (HeadOf this) other s)
      with (with_budget (λ n, merge_loop n (HeadOf this) other) s) in Hloop.
    by rewrite (bind_Ok _ _ _ _ _ Hloop). }
  destruct Hk' as [pt' Hpt']. simpl in Hc'. rewrite Hpt' in Hc'. simpl in Hc'.
  destruct Hfr as (Hl & Hn & _).
  eapply (owned_by_update2 s s' ch this other xs ys pt' None (merge_list xs ys) []);
    try done.
  - apply map_eq. intros l. destruct (decide (l = other)) as [->|Hlo].
    { by rewrite lookup_insert_eq. }
    rewrite lookup_insert_ne by done. destruct (decide (l = this)) as [->|Hlt].
    { by rewrite lookup_insert_eq. }
    rewrite lookup_insert_ne by done. apply Hl; congruence.
  - intros a _ Ha. by apply not_elem_of_nil in Ha.
  - intros a [Ha|Ha]; [|by apply not_elem_of_nil in Ha].
    rewrite merge_list_perm, fmap_app in Ha. by apply elem_of_app in Ha.
  - intros a Hax Hay. apply Hn; [|done]. rewrite elem_of_app. tauto.
Qed.

(** ** splice_after *)

Lemma last_loop_spec fuel s p init la lv :
  chain (nodes s) p (init ++ [(la, lv)]) → length init < fuel →
  last_loop fuel p s = Ok (Some la) s.
Proof.
  revert fuel p. induction init as [|[a v] init IH]; intros fuel p Hc Hf;
    (destruct fuel as [|fuel]; [simpl in Hf; lia|]); simpl in Hc.
  - destruct Hc as (-> & q & Ha & ->). cbn [last_loop].
    by rewrite (bind_Ok _ _ _ _ _ (get_next_Ok _ _ _ _ Ha)).
  - destruct Hc as (-> & q & Ha & Hc). cbn [last_loop].
    rewrite (bind_Ok _ _ _ _ _ (get_next_Ok _ _ _ _ Ha)).
    pose proof (chain_head _ _ _ Hc) as Hq.
    destruct init as [|[b w] init]; simpl in Hq; subst q;
      apply IH; try done; simpl in *; lia.
Qed.

Lemma snoc_inv {A} (l : list A) : l ≠ [] → ∃ init x, l = init ++ [x].
Proof.
  induction l as [|x l IH] using rev_ind; [done|]. eauto.
Qed.

Lemma splice_after_spec s ch this other pre pa pv suf ys :
  owned_by s ch → this ≠ other →
  ch !! this = Some (pre ++ (pa, pv) :: suf) → ch !! other = Some ys →
  ∃ s', splice_after this (Some pa) other s = Ok tt s' ∧
    owned_by s' (<[other := []]> (<[this := pre ++ (pa, pv) :: ys ++ suf]> ch)).
Proof.
  intros Hown Hne Hthis Hoth.
  destruct (owned_by_owns _ _ _ _ Hown Hthis) as (pt & Hpt & Hcx).
  destruct (owned_by_owns _ _ _ _ Hown Hoth) as (po & Hpo & Hcy).
  pose proof (owned_by_disjoint _ _ _ _ _ _ Hown Hne Hthis Hoth) as Hdisj.
  unfold splice_after. rewrite (bind_Ok _ _ _ _ _ (get_head_Ok _ _ _ Hpo)).
  destruct ys as [|[b y] ys0].
  { simpl in Hcy. subst po. exists s. split; [done|].
    rewrite (insert_id ch this) by done. by rewrite insert_id. }
  pose proof Hcy as (-> & _).
  destruct (snoc_inv ((b, y) :: ys0)) as (init & [la lv] & Hys); [done|].
  rewrite Hys in *. clear Hys ys0.
  pose proof (chain_NoDup _ _ _ Hcx) as Hndx.
  pose proof (chain_NoDup _ _ _ Hcy) as Hndy.
  rewrite fmap_app, fmap_cons in Hndx. rewrite fmap_app in Hndy. simpl in *.
  apply NoDup_app in Hndx as (_ & Hpre & Hndx). apply NoDup_cons in Hndx as [Hsuf _].
  apply NoDup_app in Hndy as (_ & Hinit & _).
  pose proof (chain_drop _ _ _ _ Hcx) as (_ & pn & Hpa & Hcs).
  pose proof (chain_drop _ _ _ _ Hcy) as (_ & ql & Hla & ->).
  assert (∀ a, a ∈ pre.*1 ∨ a = pa ∨ a ∈ suf.*1 → a ∈ init.*1 ∨ a = la → False)
    as Hd.
  { intros a Ha Ha'. apply (Hdisj a).
    - rewrite fmap_app, fmap_cons. simpl. set_solver.
    - rewrite fmap_app. simpl. set_solver. }
  assert (pa ≠ la) as Hpl by (intros ->; apply (Hd la); auto).
  set (h' := <[pa := cell pv (Some b)]> (<[la := cell lv pn]> (nodes s))).
  exists (State h' (<[other := None]> (lists s))). split.
  { assert (with_budget (λ n, last_loop n (Some b)) s = Ok (Some la) s) as Hlast.
    { unfold with_budget. apply last_loop_spec with init lv; [done|].
      apply budget_chain in Hcy. rewrite length_app in Hcy. simpl in Hcy. lia. }
    rewrite (bind_Ok _ _ _ _ _ Hlast).
    rewrite (bind_Ok _ _ _ _ _ (get_next_Ok _ _ _ _ Hpa)).
    rewrite (bind_Ok _ _ _ _ _ (set_next_Ok _ _ _ pn Hla)).
    munfold. mred. done. }
  eapply (owned_by_update2 s _ ch this other _ _ pt None
            (pre ++ (pa, pv) :: (init ++ [(la, lv)]) ++ suf) []); try done.
  - simpl. by rewrite (insert_id (lists s) this pt).
  - simpl.
    apply chain_prefix_frame with (nodes s) ((pa, pv) :: suf); [done| |done|].
    { intros a Ha. unfold h'. rewrite !lookup_insert_ne; [done|..].
      - intros E. apply (Hd a); auto.
      - intros E. apply (Hpre a Ha). subst a. set_solver. }
    simpl. split; [done|]. exists (Some b). split.
    { unfold h'. by rewrite lookup_insert_eq. }
    rewrite <- app_assoc. simpl.
    apply chain_prefix_frame with (nodes s) [(la, lv)].
    + done.
    + intros a Ha. unfold h'. rewrite !lookup_insert_ne; [done|..].
      * intros E. apply (Hinit a Ha). subst a. set_solver.
      * intros E. apply (Hd a); auto.
    + done.
    + simpl. split; [done|]. exists pn. split.
      { unfold h'. rewrite lookup_insert_ne by done. by rewrite lookup_insert_eq. }
      unfold h'. apply chain_insert_ne; [done|]. apply chain_insert_ne; [|done].
      intros Hin. apply (Hd la); auto.
  - intros a _ Ha. by apply not_elem_of_nil in Ha.
  - intros a [Ha|Ha]; [|by apply not_elem_of_nil in Ha].
    revert Ha. rewrite !fmap_app, !fmap_cons, !fmap_app. simpl. set_solver.
  - intros a Hax Hay. simpl. unfold h'. rewrite !lookup_insert_ne; [done|..].
    + intros E. apply Hay. subst a. rewrite fmap_app. simpl. set_solver.
    + intros E. apply Hax. subst a. rewrite fmap_app, fmap_cons. simpl. set_solver.
Qed.

End TwoLists.

Section Emplace.
Context {T : Type} `{Elem T}.
Implicit Types (s : state T) (h : gmap loc (fwd_list_node T)).
Implicit Types (p q : ptr) (a b x : loc) (l this other : lid) (v : T).
Implicit Types (xs ys zs : list (loc * T)) (ch : gmap lid (list (loc * T))).

Lemma splice_after_self s ch this pre pa pv suf :
  owned_by s ch → ch !! this = Some (pre ++ (pa, pv) :: suf) →
  ∃ s', splice_after this (Some pa) this s = Ok tt s' ∧
    owned_by s' (<[this := []]> ch).
Proof.
  intros Hown Hthis.
  destruct (owned_by_owns _ _ _ _ Hown Hthis) as (pt & Hpt & Hcx).
  set (xs := pre ++ (pa, pv) :: suf) in *.
  destruct (snoc_inv xs) as (init & [la lv] & Hxs); [by destruct pre|].
  pose proof (chain_drop _ _ _ _ Hcx) as (_ & pn & Hpa & _).
  assert (∃ ql, nodes s !! la = Some (cell lv ql)) as [ql Hla].
  { pose proof Hcx as Hcx2. rewrite Hxs in Hcx2.
    apply chain_drop in Hcx2 as (_ & ql & Hl & _). eauto. }
  assert (∃ b, pt = Some b) as [b ->].
  { apply chain_head in Hcx. rewrite Hcx. unfold xs.
    destruct pre as [|[] ?]; simpl; eauto. }
  assert (with_budget (λ n, last_loop n (Some b)) s = Ok (Some la) s) as Hlast.
  { unfold with_budget. apply last_loop_spec with init lv; [by rewrite <- Hxs|].
    apply budget_chain in Hcx. rewrite Hxs, length_app in Hcx. simpl in Hcx. lia. }
  set (s1 := State (<[la := cell lv pn]> (nodes s)) (lists s)).
  assert (∃ n, nodes s1 !! pa = Some n) as [n Hn].
  { simpl. destruct (decide (pa = la)) as [->|Hne].
    - rewrite lookup_insert_eq. eauto.
    - rewrite lookup_insert_ne by done. eauto. }
  eexists. split.
  - unfold splice_after. rewrite (bind_Ok _ _ _ _ _ (get_head_Ok _ _ _ Hpt)).
    rewrite (bind_Ok _ _ _ _ _ Hlast).
    rewrite (bind_Ok _ _ _ _ _ (get_next_Ok _ _ _ _ Hpa)).
    rewrite (bind_Ok _ _ _ _ _ (set_next_Ok _ _ _ pn Hla)). fold s1.
    rewrite (bind_Ok _ _ _ _ _ (get_head_Ok s1 _ _ Hpt)).
    rewrite (bind_Ok _ _ _ _ _ (set_next_Ok _ _ _ (Some b) Hn)).
    apply set_head_Ok with (Some b). done.
  - eapply owned_by_update; [done..| | | |]; simpl.
    + done.
    + done.
    + intros a Ha. by apply not_elem_of_nil in Ha.
    + intros a Ha _. rewrite !lookup_insert_ne; [done|..].
      * intros E. apply Ha. subst a. rewrite Hxs, fmap_app. simpl. set_solver.
      * intros E. apply Ha. subst a. unfold xs. rewrite fmap_app, fmap_cons.
        simpl. set_solver.
Qed.

(** ** emplace_front *)

Lemma emplace_front_default s this p :
  lists s !! this = Some p →
  emplace_front this [] s = push_front this elt_default s.
Proof.
  intros Hp. rewrite (push_front_Ok _ _ _ _ Hp).
  unfold emplace_front, construct_node. munfold. mred.
  by rewrite !insert_insert_eq.
Qed.

Lemma emplace_front_value s this v args :
  emplace_front this (ArgValue v :: args) s = IllFormed.
Proof. done. Qed.

Lemma emplace_front_many s this (a1 a2 : arg T) args :
  emplace_front this (a1 :: a2 :: args) s = IllFormed.
Proof. by destruct a1. Qed.






End Emplace.

(** * Laws of the element operations *)

#[global] Instance Z_ElemOrder : ElemOrder Z.
Proof.
  split; unfold elt_le; simpl.
  - intros x y. rewrite Z.ltb_lt, Z.ltb_ge. lia.
  - intros x y z. rewrite !Z.ltb_ge. lia.
Qed.

#[global] Instance Z_ElemEq : ElemEq Z.
Proof.
  split; simpl.
  - intros x y. apply Z.eqb_sym.
  - intros x y z. rewrite !Z.eqb_eq. congruence.
Qed.

Section Order.
Context {T : Type} `{ElemOrder T}.
Implicit Types (x y z : T) (xs ys zs : list (loc * T)) (u w : loc * T).

#[local] Instance elt_le_transitive : Transitive (elt_le (T := T)).
Proof. intros x y z. apply elt_le_trans. Qed.

Lemma elt_lt_le x y : elt_ltb x y = true → elt_le x y.
Proof. apply elt_lt_asym. Qed.

Lemma elt_lt_le_trans x y z : elt_ltb x y = true → elt_le y z → elt_ltb x z = true.
Proof.
  intros Hxy Hyz. destruct (elt_ltb x z) eqn:E; [done|].
  assert (elt_le y x) as Hyx by (by apply (elt_le_trans y z x)).
  unfold elt_le in Hyx. congruence.
Qed.

Lemma sorted_keys xs : Sorted elt_le xs.*2 → StronglySorted key_le xs.
Proof.
  intros Hs%Sorted_StronglySorted; [|apply _].
  induction xs as [|u xs IH]; [constructor|].
  rewrite fmap_cons in Hs. apply StronglySorted_inv in Hs as [Hs Hall].
  constructor; [by apply IH|].
  rewrite Forall_fmap in Hall. exact Hall.
Qed.

Lemma keys_sorted xs : StronglySorted key_le xs → Sorted elt_le xs.*2.
Proof.
  intros Hs. apply StronglySorted_Sorted.
  induction Hs as [|u xs Hs IH Hall]; [constructor|].
  rewrite fmap_cons. constructor; [done|]. by rewrite Forall_fmap.
Qed.

(** merge keeps two ascending chains ascending. *)
Lemma merge_list_sorted xs ys :
  StronglySorted key_le xs → StronglySorted key_le ys →
  StronglySorted key_le (merge_list xs ys).
Proof.
  revert xs. induction ys as [|w ys IHy]; intros xs Hx Hy; [done|].
  apply StronglySorted_inv in Hy as [Hy Hwy].
  induction xs as [|u xs IHx].
  - rewrite merge_list_nil_l. by constructor.
  - apply StronglySorted_inv in Hx as [Hx Hux].
    rewrite merge_list_cons. destruct (elt_ltb u.2 w.2) eqn:E.
    + constructor; [by apply IHx|].
      rewrite merge_list_perm. apply Forall_app. split; [done|].
      assert (key_le u w) as Huw by (by apply elt_lt_le).
      constructor; [done|].
      eapply Forall_impl; [exact Hwy|]. intros z Hz.
      by apply (elt_le_trans u.2 w.2 z.2).
    + apply IHy; [|done]. constructor; [by constructor|].
      constructor; [exact E|].
      eapply Forall_impl; [exact Hux|]. intros z Hz.
      by apply (elt_le_trans w.2 u.2 z.2).
Qed.

(** The chain at the cursor keeps its order. *)
Lemma merge_list_sublist xs ys : xs `sublist_of` merge_list xs ys.
Proof.
  revert xs. induction ys as [|w ys IHy]; intros xs; [done|].
  induction xs as [|u xs IHx]; [apply sublist_nil_l|].
  rewrite merge_list_cons. destruct (elt_ltb u.2 w.2).
  - by apply sublist_skip.
  - etrans; [|apply IHy]. by apply sublist_cons.
Qed.

(** A node of the argument comes before every node of the receiver
    that is not less than it. *)
Lemma merge_list_ties xs ys u w :
  StronglySorted key_le ys → u ∈ xs → w ∈ ys → elt_ltb u.2 w.2 = false →
  [w; u] `sublist_of` merge_list xs ys.
Proof.
  revert xs. induction ys as [|w0 ys IHy]; intros xs Hy Hu Hw Huw.
  { by apply elem_of_nil in Hw. }
  apply StronglySorted_inv in Hy as [Hy Hwy].
  induction xs as [|u0 xs IHx]; [by apply elem_of_nil in Hu|].
  rewrite merge_list_cons. destruct (elt_ltb u0.2 w0.2) eqn:E.
  - apply elem_of_cons in Hu as [->|Hu].
    + exfalso. assert (elt_le w0.2 w.2) as Hle.
      { apply elem_of_cons in Hw as [->|Hw].
        - unfold elt_le. destruct (elt_ltb w0.2 w0.2) eqn:E'; [|done].
          by rewrite (elt_lt_asym _ _ E') in E'.
        - rewrite Forall_forall in Hwy. by apply Hwy. }
      pose proof (elt_lt_le_trans _ _ _ E Hle). congruence.
    + apply sublist_cons. by apply IHx.
  - apply elem_of_cons in Hw as [->|Hw].
    + etrans; [|apply merge_list_sublist].
      apply sublist_skip. apply list_elem_of_split in Hu as (l1 & l2 & ->).
      apply sublist_inserts_l, sublist_skip, sublist_nil_l.
    + apply IHy; [done| |done..]. set_solver.
Qed.

End Order.

Section Equality.
Context {T : Type} `{ElemEq T}.
Implicit Types (x y : loc * T) (r xs : list (loc * T)).

(** The loop compares with the last node it kept, which equals every
    node removed since. *)
Lemma unique_from_keep_after x x' r :
  x' = x ∨ elt_eqb x.2 x'.2 = true →
  unique_from x r = x :: keep_after x' r.
Proof.
  revert x x'. induction r as [|y r IH]; intros x x' Hx; [done|]. simpl.
  assert (elt_eqb x.2 y.2 = elt_eqb x'.2 y.2) as <-.
  { destruct Hx as [->|Hx]; [done|].
    destruct (elt_eqb x.2 y.2) eqn:E1, (elt_eqb x'.2 y.2) eqn:E2; try done.
    - rewrite elt_eqb_sym in Hx.
      by rewrite (elt_eqb_trans _ _ _ Hx E1) in E2.
    - by rewrite (elt_eqb_trans _ _ _ Hx E2) in E1. }
  destruct (elt_eqb x.2 y.2) eqn:E.
  - apply IH. by right.
  - f_equal. apply IH. by left.
Qed.

Lemma unique_list_adjacent xs : unique_list xs = adjacent_unique xs.
Proof.
  destruct xs as [|x r]; [done|]. simpl. apply unique_from_keep_after. by left.
Qed.

End Equality.

(** * Reference parameters and the node helpers *)

Section References.
Context {T : Type} `{Elem T}.
Implicit Types (s : state T) (h : gmap loc (fwd_list_node T)).
Implicit Types (p q : ptr) (a b : loc) (l this other : lid) (v : T).
Implicit Types (xs ys zs : list (loc * T)) (ch : gmap lid (list (loc * T))).
Implicit Types (r : ref T).

(** ** What clear frees *)

Lemma clear_nil s this : lists s !! this = Some None → clear this s = Ok tt s.
Proof.
  intros E. unfold clear, with_budget. rewrite budget_size. simpl.
  by rewrite (bind_Ok _ _ _ _ _ (get_head_Ok _ _ _ E)).
Qed.

Lemma released_nil s : released [] s s.
Proof.
  split; [|split]; [|done|simpl; lia].
  intros a Ha. by apply not_elem_of_nil in Ha.
Qed.

(** The loop of clear frees the nodes of the chain at the head, one a
    turn, and touches no other node. *)
Lemma clear_loop_released fuel s this p xs :
  lists s !! this = Some p → chain (nodes s) p xs → length xs < fuel →
  ∃ s', clear_loop fuel this s = Ok tt s' ∧
    lists s' = <[this := None]> (lists s) ∧ released xs.*1 s s'.
Proof.
  revert fuel s p. induction xs as [|[a v] xs IH]; intros fuel s p Hp Hc Hf;
    (destruct fuel as [|fuel]; [simpl in Hf; lia|]).
  - simpl in Hc. subst p. exists s. split; [|split].
    + simpl. by rewrite (bind_Ok _ _ _ _ _ (get_head_Ok _ _ _ Hp)).
    + by rewrite insert_id.
    + apply released_nil.
  - assert (NoDup ((a, v) :: xs).*1) as Hnd by (by eapply chain_NoDup).
    rewrite fmap_cons in Hnd. simpl in Hnd. apply NoDup_cons in Hnd as [Hna _].
    destruct Hc as (-> & q & Ha & Hc).
    set (s1 := State (delete a (nodes s)) (<[this := q]> (lists s))).
    destruct (IH fuel s1 q) as (s' & Hrun & Hl & Hgone & Hkept & Hsize).
    { simpl. apply lookup_insert_eq. }
    { simpl. by apply chain_delete_ne. }
    { simpl in Hf. lia. }
    exists s'. split; [|split; [|split; [|split]]].
    + rewrite <- Hrun. simpl. munfold. mred. by rewrite delete_insert_eq.
    + rewrite Hl. simpl. by rewrite insert_insert_eq.
    + intros b. rewrite fmap_cons. simpl. intros [->|Hb]%elem_of_cons; [|by auto].
      rewrite Hkept by done. simpl. apply lookup_delete_eq.
    + intros b. rewrite fmap_cons. simpl. intros [Hba Hb]%not_elem_of_cons.
      rewrite Hkept by done. simpl. by apply lookup_delete_ne.
    + rewrite fmap_cons, length_cons. simpl in Hsize.
      rewrite map_size_delete, Ha in Hsize.
      assert (size (nodes s) ≠ 0); [|lia].
      apply map_size_ne_0_lookup. eauto.
Qed.

Lemma clear_released s ch this xs :
  owned_by s ch → ch !! this = Some xs →
  ∃ s', clear this s = Ok tt s' ∧ owned_by s' (<[this := []]> ch) ∧
    lists s' = <[this := None]> (lists s) ∧ released xs.*1 s s'.
Proof.
  intros Hown Hthis.
  destruct (clear_spec _ _ _ _ Hown Hthis) as (s' & Hrun & Hown').
  destruct (owned_by_owns _ _ _ _ Hown Hthis) as (p & Hp & Hc).
  destruct (clear_loop_released (budget s) s this p xs Hp Hc) as (s'' & Hrun' & Hrel).
  { by eapply budget_chain. }
  unfold clear, with_budget in Hrun. rewrite Hrun' in Hrun.
  apply Ok_inj in Hrun as [_ ->]. exists s'. done.
Qed.

(** ** Reading a reference *)

Lemma read_ref_Ok r v s : refers_to r v s → read_ref r s = Ok v s.
Proof.
  destruct r as [w|a]; simpl.
  - by intros ->.
  - intros [oq Ha]. by eapply get_value_Ok.
Qed.

Lemma read_ref_dangling a s : nodes s !! a = None → read_ref (RefNode a) s = Undefined.
Proof. intros Ha. simpl. munfold. by mred. Qed.

Lemma refers_to_frame r v s s' :
  refers_to r v s →
  (∀ a, r = RefNode a → nodes s' !! a = nodes s !! a) →
  refers_to r v s'.
Proof.
  destruct r as [w|a]; simpl; [done|]. intros [oq Ha] Hf.
  exists oq. by rewrite Hf.
Qed.

(** ** assign *)

(** While the reference stays valid, the loop of assign is the counted
    loop of push_front on the value it refers to. *)
Lemma assign_loop_spec n s ch this xs r v :
  owned_by s ch → ch !! this = Some xs → refers_to r v s →
  ∃ s' new, assign_loop n this r s = Ok tt s' ∧
    owned_by s' (<[this := new ++ xs]> ch) ∧ new.*2 = replicate n v.
Proof.
  revert s ch xs. induction n as [|n IH]; intros s ch xs Hown Hthis Hr.
  - exists s, []. split; [done|]. split; [by rewrite insert_id|done].
  - destruct (push_front_spec _ _ _ _ v Hown Hthis)
      as (a & s1 & Ha & Hpush & Hown1 & Hn1).
    destruct (IH s1 _ ((a, v) :: xs) Hown1) as (s' & new & Hn & Hown' & Hvals).
    { by rewrite lookup_insert_eq. }
    { eapply refers_to_frame; [done|]. intros b ->. rewrite Hn1.
      apply lookup_insert_ne. destruct Hr as [oq Hb]. congruence. }
    exists s', (new ++ [(a, v)]). split; [|split].
    + cbn [assign_loop]. rewrite (bind_Ok _ _ _ _ _ (read_ref_Ok _ _ _ Hr)).
      by rewrite (bind_Ok _ _ _ _ _ Hpush).
    + rewrite insert_insert_eq in Hown'. by rewrite <- app_assoc.
    + rewrite fmap_app, Hvals. simpl.
      change (v :: replicate n v) with (replicate (S n) v).
      by rewrite replicate_S_end.
Qed.

Lemma assign_spec s ch this xs count r v :
  owned_by s ch → ch !! this = Some xs →
  refers_to r v s → apart_from r xs →
  ∃ s' new, assign this count r s = Ok tt s' ∧
    owned_by s' (<[this := new]> ch) ∧ new.*2 = replicate count v.
Proof.
  intros Hown Hthis Hr Hout.
  destruct (clear_released _ _ _ _ Hown Hthis)
    as (s1 & Hclear & Hown1 & _ & _ & Hkept & _).
  destruct (assign_loop_spec count s1 _ this [] r v Hown1)
    as (s' & new & Hn & Hown' & Hvals).
  { by rewrite lookup_insert_eq. }
  { eapply refers_to_frame; [done|]. intros a ->. by apply Hkept. }
  exists s', new. split; [|split; [|done]].
  - unfold assign. by rewrite (bind_Ok _ _ _ _ _ Hclear).
  - by rewrite insert_insert_eq, app_nil_r in Hown'.
Qed.

(** A reference to an element of the list dangles once the list is
    cleared: the first read of it is undefined. *)
Lemma assign_own_element s ch this xs count a :
  owned_by s ch → ch !! this = Some xs → a ∈ xs.*1 →
  assign this (S count) (RefNode a) s = Undefined.
Proof.
  intros Hown Hthis Ha.
  destruct (clear_released _ _ _ _ Hown Hthis)
    as (s1 & Hclear & _ & _ & Hgone & _).
  unfold assign. rewrite (bind_Ok _ _ _ _ _ Hclear). cbn [assign_loop].
  unfold mbind, M_bind. by rewrite (read_ref_dangling _ _ (Hgone _ Ha)).
Qed.

(** ** Programs that construct no value *)

Lemma keeps_values_ret {A} (x : A) : keeps_values (mret x : M T A).
Proof. intros s y s' [_ <-]%Ok_inj. eauto. Qed.

Lemma keeps_values_bind {A B} (c : M T A) (f : A → M T B) :
  keeps_values c → (∀ x, keeps_values (f x)) → keeps_values (c ≫= f).
Proof.
  intros Hc Hf s y s' (x & s1 & H1 & H2)%bind_inv a v oq' Ha.
  destruct (Hf _ _ _ _ H2 _ _ _ Ha) as [oq1 Ha1]. by eapply Hc.
Qed.

Lemma keeps_values_undefined {A} : keeps_values (undefined : M T A).
Proof. by intros s y s'. Qed.

Lemma keeps_values_get_head l : keeps_values (T := T) (get_head l).
Proof.
  intros s y s'. unfold get_head. destruct (lists s !! l); [|done].
  intros [_ <-]%Ok_inj. eauto.
Qed.

Lemma keeps_values_set_head l p : keeps_values (T := T) (set_head l p).
Proof.
  intros s y s'. unfold set_head. destruct (lists s !! l); [|done].
  intros [_ <-]%Ok_inj. simpl. eauto.
Qed.

Lemma keeps_values_load p : keeps_values (T := T) (load p).
Proof.
  intros s y s'. unfold load. destruct p as [a|]; [|done].
  destruct (nodes s !! a); [|done]. intros [_ <-]%Ok_inj. eauto.
Qed.

Lemma keeps_values_get_next p : keeps_values (T := T) (get_next p).
Proof.
  apply keeps_values_bind; [apply keeps_values_load|]. intros n.
  destruct (next n); [apply keeps_values_ret|apply keeps_values_undefined].
Qed.

Lemma keeps_values_get_value p : keeps_values (T := T) (get_value p).
Proof.
  apply keeps_values_bind; [apply keeps_values_load|]. intros n.
  destruct (value n); [apply keeps_values_ret|apply keeps_values_undefined].
Qed.

Lemma keeps_values_set_next p q : keeps_values (T := T) (set_next p q).
Proof.
  intros s y s'. unfold set_next, load. munfold. destruct p as [b|]; [|done].
  destruct (nodes s !! b) as [n|] eqn:E; [|done]. simpl.
  intros [_ <-]%Ok_inj a v oq'. simpl.
  destruct (decide (a = b)) as [->|Hne].
  - rewrite lookup_insert_eq. intros [= Hv _]. exists (next n).
    destruct n as [ov oq]. simpl in *. by subst ov.
  - rewrite lookup_insert_ne by done. eauto.
Qed.

Lemma keeps_values_deref k : keeps_values (T := T) (deref k).
Proof. destruct k; [apply keeps_values_get_head|apply keeps_values_get_next]. Qed.

Lemma keeps_values_assign_link k p : keeps_values (T := T) (assign_link k p).
Proof. destruct k; [apply keeps_values_set_head|apply keeps_values_set_next]. Qed.

Lemma keeps_values_next_link k : keeps_values (T := T) (next_link k).
Proof.
  apply keeps_values_bind; [apply keeps_values_deref|].
  intros [a|]; [|apply keeps_values_undefined].
  apply keeps_values_bind; [apply keeps_values_load|]. intros _.
  apply keeps_values_ret.
Qed.

Lemma keeps_values_destroy_node p : keeps_values (T := T) (destroy_node p).
Proof.
  intros s y s'. unfold destroy_node. munfold. destruct p as [b|]; [|done].
  destruct (nodes s !! b) as [n|] eqn:E; [|done]. simpl.
  rewrite lookup_insert_eq. intros [_ <-]%Ok_inj a v oq'. simpl.
  destruct (decide (a = b)) as [->|Hne].
  - by rewrite lookup_delete_eq.
  - rewrite lookup_delete_ne, lookup_insert_ne by done. eauto.
Qed.

Lemma keeps_values_remove_if_loop fuel pred k :
  keeps_values (T := T) (remove_if_loop fuel pred k).
Proof.
  revert k. induction fuel as [|fuel IH]; intros k; [done|].
  cbn [remove_if_loop].
  apply keeps_values_bind; [apply keeps_values_deref|]. intros [a|];
    [|apply keeps_values_ret].
  apply keeps_values_bind; [apply keeps_values_get_value|]. intros x.
  destruct (pred x).
  - apply keeps_values_bind; [apply keeps_values_get_next|]. intros nx.
    apply keeps_values_bind; [apply keeps_values_assign_link|]. intros _.
    apply keeps_values_bind; [apply keeps_values_destroy_node|]. intros _.
    apply IH.
  - apply keeps_values_bind; [apply keeps_values_next_link|]. intros k'.
    apply IH.
Qed.

(** ** remove *)

Lemma deref_inv k s p s' : deref k s = Ok p s' → s' = s.
Proof.
  destruct k as [l|a]; simpl; munfold.
  - destruct (lists s !! l); [|done]. by intros [_ <-]%Ok_inj.
  - destruct (nodes s !! a) as [[ov [q|]]|]; simpl; [|done..].
    by intros [_ <-]%Ok_inj.
Qed.

Lemma get_value_inv p s v s' : get_value p s = Ok v s' → s' = s.
Proof.
  munfold. destruct p as [a|]; [|done].
  destruct (nodes s !! a) as [[[w|] oq]|]; simpl; [|done..].
  by intros [_ <-]%Ok_inj.
Qed.

Lemma get_next_inv p s q s' : get_next p s = Ok q s' → s' = s.
Proof. destruct p as [a|]; [apply (deref_inv (NextOf a))|done]. Qed.

Lemma next_link_inv k s k' s' : next_link k s = Ok k' s' → s' = s.
Proof.
  unfold next_link. intros (p & s1 & Hd & Hrun)%bind_inv.
  apply deref_inv in Hd as ->. destruct p as [a|]; [|done].
  revert Hrun. munfold. destruct (nodes s !! a); [|done].
  by intros [_ <-]%Ok_inj.
Qed.

(** While the reference stays valid to the end, remove runs as
    remove_if with the test against the value it refers to. *)
Lemma remove_loop_stable fuel r v k s s' :
  remove_if_loop fuel (λ x, elt_eqb x v) k s = Ok tt s' →
  refers_to r v s → refers_to r v s' →
  remove_loop fuel r k s = Ok tt s'.
Proof.
  revert k s. induction fuel as [|fuel IH]; intros k s Hrun Hs Hs'; [done|].
  cbn [remove_if_loop] in Hrun. cbn [remove_loop].
  apply bind_inv in Hrun as (p & s1 & Hd & Hrun).
  pose proof (deref_inv _ _ _ _ Hd) as ->. rewrite (bind_Ok _ _ _ _ _ Hd).
  destruct p as [b|]; [|done].
  apply bind_inv in Hrun as (x & s1 & Hx & Hrun).
  pose proof (get_value_inv _ _ _ _ Hx) as ->. rewrite (bind_Ok _ _ _ _ _ Hx).
  rewrite (bind_Ok _ _ _ _ _ (read_ref_Ok _ _ _ Hs)).
  destruct (elt_eqb x v).
  - apply bind_inv in Hrun as (nx & s1 & Hn & Hrun).
    pose proof (get_next_inv _ _ _ _ Hn) as ->. rewrite (bind_Ok _ _ _ _ _ Hn).
    apply bind_inv in Hrun as ([] & s1 & Hw & Hrun). rewrite (bind_Ok _ _ _ _ _ Hw).
    apply bind_inv in Hrun as ([] & s2 & Hdel & Hrun). rewrite (bind_Ok _ _ _ _ _ Hdel).
    apply IH; [done| |done].
    destruct r as [w|a]; [done|]. destruct Hs' as [oq' Ha'].
    by apply (keeps_values_remove_if_loop _ _ _ _ _ _ Hrun a v oq').
  - apply bind_inv in Hrun as (k' & s1 & Hk & Hrun).
    pose proof (next_link_inv _ _ _ _ Hk) as ->. rewrite (bind_Ok _ _ _ _ _ Hk).
    by apply IH.
Qed.

Lemma remove_spec s ch this xs r v :
  owned_by s ch → ch !! this = Some xs →
  refers_to r v s → apart_from r xs →
  ∃ s', remove this r s = Ok tt s' ∧
    owned_by s' (<[this := filter (λ x, elt_eqb x.2 v = false) xs]> ch) ∧
    (∀ a w, (a, w) ∈ xs → elt_eqb w v = true → nodes s' !! a = None).
Proof.
  intros Hown Hthis Hr Hout.
  destruct (remove_if_spec _ _ _ _ (λ x, elt_eqb x v) Hown Hthis)
    as (s' & Hrun & Hown' & Hgone).
  exists s'. split; [|done].
  destruct (owned_by_owns _ _ _ _ Hown Hthis) as (p & Hp & Hc).
  destruct (remove_if_loop_spec (budget s) (λ x, elt_eqb x v) (HeadOf this) s xs)
    as (s'' & Hloop & _ & _ & (_ & Hfr & _) & _).
  { simpl. eauto. }
  { simpl. by rewrite Hp. }
  { done. }
  { by eapply budget_chain. }
  unfold remove_if, with_budget in Hrun. rewrite Hloop in Hrun.
  apply Ok_inj in Hrun as [_ ->].
  unfold remove, with_budget. apply (remove_loop_stable _ r v); [done..|].
  eapply refers_to_frame; [done|]. intros a ->. by apply Hfr.
Qed.

(** remove with a reference to the first element, which equals itself,
    of a list that has a second one: the first node is destroyed, and
    the test at the second node reads the reference to it. *)
Lemma remove_first_element s ch this a v b w xs :
  owned_by s ch → ch !! this = Some ((a, v) :: (b, w) :: xs) →
  elt_eqb v v = true →
  remove this (RefNode a) s = Undefined.
Proof.
  intros Hown Hthis Hrefl.
  destruct (owned_by_owns _ _ _ _ Hown Hthis) as (p & Hp & Hc).
  pose proof (chain_NoDup _ _ _ Hc) as Hnd.
  pose proof (chain_length _ _ _ Hc) as Hlen.
  destruct Hc as (-> & q & Ha & -> & q' & Hb & Hc).
  assert (a ≠ b) as Hab.
  { rewrite !fmap_cons in Hnd. apply NoDup_cons in Hnd as [Hnd _].
    intros ->. apply Hnd. simpl. apply list_elem_of_here. }
  unfold remove, with_budget. rewrite budget_size.
  destruct (size (nodes s)) as [|n]; [simpl in Hlen; lia|].
  replace (2 * S n) with (S (S (2 * n))) by lia.
  cbn [remove_loop deref].
  rewrite (bind_Ok _ _ _ _ _ (get_head_Ok _ _ _ Hp)).
  rewrite (bind_Ok _ _ _ _ _ (get_value_Ok _ _ _ _ Ha)).
  assert (read_ref (RefNode a) s = Ok v s) as Hread.
  { apply read_ref_Ok. simpl. eauto. }
  rewrite (bind_Ok _ _ _ _ _ Hread).
  rewrite Hrefl.
  rewrite (bind_Ok _ _ _ _ _ (get_next_Ok _ _ _ _ Ha)).
  cbn [assign_link].
  rewrite (bind_Ok _ _ _ _ _ (set_head_Ok _ _ _ (Some b) Hp)).
  erewrite bind_Ok; [|by eapply destroy_node_Ok]. cbn [nodes lists deref].
  set (s2 := State (delete a (nodes s)) (<[this := Some b]> (lists s))).
  assert (lists s2 !! this = Some (Some b)) as Hp2 by apply lookup_insert_eq.
  assert (nodes s2 !! b = Some (cell w q')) as Hb2.
  { simpl. by rewrite lookup_delete_ne. }
  rewrite (bind_Ok _ _ _ _ _ (get_head_Ok _ _ _ Hp2)).
  rewrite (bind_Ok _ _ _ _ _ (get_value_Ok _ _ _ _ Hb2)).
  unfold mbind, M_bind. rewrite read_ref_dangling; [done|].
  simpl. apply lookup_delete_eq.
Qed.

(** ** The node helpers of the base class *)








End References.

(** * The public operations and the structural invariant *)

Section Invariant.
Context {T : Type} `{Elem T}.
Implicit Types (s : state T) (h : gmap loc (fwd_list_node T)).
Implicit Types (p q : ptr) (a b x : loc) (l this other : lid) (v : T).
Implicit Types (xs ys zs : list (loc * T)) (ch : gmap lid (list (loc * T))).

Lemma wf_structure s l p :
  wf s → lists s !! l = Some p →
  ∃ xs, chain (nodes s) p xs ∧ NoDup xs.*1 ∧ (p = None ↔ xs = []).
Proof.
  intros [ch Hown] Hp.
  destruct (owned_by_live _ _ l Hown) as (xs & Hxs); [by eauto|].
  destruct (owned_by_owns _ _ _ _ Hown Hxs) as (p' & Hp' & Hc).
  assert (p' = p) as -> by congruence.
  exists xs. split; [done|]. split; [by eapply chain_NoDup|].
  apply chain_head in Hc. destruct xs as [|[] ?]; simpl in Hc; subst p; done.
Qed.


End Invariant.

(** * The properties of the specification *)

Section Properties.
Context {T : Type} `{Elem T}.
Implicit Types (s : state T) (h : gmap loc (fwd_list_node T)).
Implicit Types (p q : ptr) (a b : loc) (l this other : lid) (v : T).
Implicit Types (xs ys zs : list (loc * T)) (ch : gmap lid (list (loc * T))).

Lemma owned_by_iterate s ch l xs :
  owned_by s ch → ch !! l = Some xs → iterate l s = Ok xs.*2 s.
Proof. intros Hown Hl. apply iterate_spec. by eapply owned_by_owns. Qed.

Lemma owned_by_no_lists h : owned_by (State h ∅) ∅.
Proof.
  split; [|split].
  - intros l. simpl. by rewrite !lookup_empty.
  - intros l xs. by rewrite lookup_empty.
  - intros l1 l2 xs1 xs2 _. by rewrite lookup_empty.
Qed.

(** A store gets one more list object, heading a chain that no other
    list reaches. *)
Lemma owned_by_add_list s ch l p xs :
  owned_by s ch → ch !! l = None → chain (nodes s) p xs →
  (∀ l' zs a, ch !! l' = Some zs → a ∈ zs.*1 → a ∉ xs.*1) →
  owned_by (State (nodes s) (<[l := p]> (lists s))) (<[l := xs]> ch).
Proof.
  intros (Hd & Ho & Hx) Hl Hc Hdisj. split; [|split].
  - intros l'. simpl. destruct (decide (l' = l)) as [->|Hne].
    + by rewrite !lookup_insert_eq.
    + by rewrite !lookup_insert_ne.
  - intros l' zs. destruct (decide (l' = l)) as [->|Hne].
    + rewrite lookup_insert_eq. intros [= <-]. exists p.
      simpl. by rewrite lookup_insert_eq.
    + rewrite lookup_insert_ne by done. intros Hz.
      destruct (Ho _ _ Hz) as (p' & Hp & Hc'). exists p'. simpl.
      by rewrite lookup_insert_ne.
  - intros l1 l2 xs1 xs2 Hne.
    destruct (decide (l1 = l)) as [->|Hne1];
      destruct (decide (l2 = l)) as [->|Hne2]; [done|..].
    + rewrite lookup_insert_eq, lookup_insert_ne by done.
      intros [= <-] Hz a Ha Ha'. by apply (Hdisj l2 xs2 a).
    + rewrite lookup_insert_ne, lookup_insert_eq by done.
      intros Hz [= <-] a Ha Ha'. by apply (Hdisj l1 xs1 a).
    + rewrite !lookup_insert_ne by done. by apply Hx.
Qed.

Lemma reverse_nil s this : lists s !! this = Some None → reverse this s = Ok tt s.
Proof.
  intros Hp. unfold reverse. rewrite (bind_Ok _ _ _ _ _ (get_head_Ok _ _ _ Hp)).
  assert (with_budget (λ n, reverse_loop n None None) s = Ok None s) as Hloop.
  { unfold with_budget. rewrite budget_size. done. }
  rewrite (bind_Ok _ _ _ _ _ Hloop). rewrite (set_head_Ok _ _ _ _ Hp).
  by rewrite insert_id, state_eta.
Qed.

(** C6: reverse reverses the order of the nodes of every list, and so
    of the values it iterates as; it leaves the store as it is when the
    list is empty; applied twice it restores the original order. *)
Theorem reverse_involution s ch this xs :
  owned_by s ch → ch !! this = Some xs →
  ∃ s', reverse this s = Ok tt s' ∧
    owned_by s' (<[this := rev xs]> ch) ∧
    iterate this s' = Ok (rev xs.*2) s' ∧
    (xs = [] → s' = s) ∧
    ∃ s'', reverse this s' = Ok tt s'' ∧ owned_by s'' ch ∧
      iterate this s'' = Ok xs.*2 s''.
Proof.
  intros Hown Hthis.
  destruct (reverse_spec _ _ _ _ Hown Hthis) as (s' & Hrun & Hown').
  exists s'. split; [done|]. split; [done|]. split; [|split].
  - rewrite <- fmap_rev. eapply owned_by_iterate; [done|]. by rewrite lookup_insert_eq.
  - intros ->. destruct (owned_by_owns _ _ _ _ Hown Hthis) as (p & Hp & Hc).
    simpl in Hc. subst p. rewrite (reverse_nil _ _ Hp) in Hrun. congruence.
  - destruct (reverse_spec s' _ this (rev xs) Hown') as (s'' & Hrun' & Hown'').
    { by rewrite lookup_insert_eq. }
    rewrite insert_insert_eq, rev_involutive, insert_id in Hown'' by done.
    exists s''. split; [done|]. split; [done|]. by eapply owned_by_iterate.
Qed.

(** C10: assigning a list object to itself, by copy or by move, leaves
    the whole store, and so the list's elements, as they are. *)
Theorem self_assignment_unchanged s this :
  copy_assign this this s = Ok tt s ∧ move_assign this this s = Ok tt s.
Proof. split; [apply copy_assign_self|apply move_assign_self]. Qed.

(** What the guard of copy assignment prevents: its body, run on one
    and the same list object, clears the list and copies nothing. *)
Lemma copy_assign_body_self s ch this xs :
  owned_by s ch → ch !! this = Some xs →
  ∃ s', (clear this;; h ← get_head this;
         with_budget (λ n, copy_loop n this h)) s = Ok tt s' ∧
    owned_by s' (<[this := []]> ch).
Proof.
  intros Hown Hthis.
  destruct (clear_spec _ _ _ _ Hown Hthis) as (s' & Hclear & Hown').
  exists s'. split; [|done]. rewrite (bind_Ok _ _ _ _ _ Hclear).
  destruct (owned_by_owns s' _ this [] Hown') as (p & Hp & Hc).
  { by rewrite lookup_insert_eq. }
  simpl in Hc. subst p. rewrite (bind_Ok _ _ _ _ _ (get_head_Ok _ _ _ Hp)).
  unfold with_budget. by rewrite budget_size.
Qed.

(** C1, amended: copy construction, and copy assignment to another list
    object, build a list of new nodes whose values are those of the
    source in reversed order; the source is as it was. *)
Theorem copy_reverses_order s ch other ys :
  owned_by s ch → ch !! other = Some ys →
  (∃ this s' new, ch !! this = None ∧ copy_ctor other s = Ok this s' ∧
     owned_by s' (<[this := new]> ch) ∧
     iterate this s' = Ok (rev ys.*2) s' ∧ iterate other s' = Ok ys.*2 s') ∧
  (∀ this xs, this ≠ other → ch !! this = Some xs →
     ∃ s' new, copy_assign this other s = Ok tt s' ∧
       owned_by s' (<[this := new]> ch) ∧
       iterate this s' = Ok (rev ys.*2) s' ∧ iterate other s' = Ok ys.*2 s').
Proof.
  intros Hown Hoth. split.
  - destruct (copy_ctor_spec _ _ _ _ Hown Hoth)
      as (this & s' & new & Hfresh & Hrun & Hown' & Hvals).
    exists this, s', new. split; [done|]. split; [done|]. split; [done|].
    assert (this ≠ other) as Hne by congruence. split.
    + rewrite <- Hvals. eapply owned_by_iterate; [done|]. by rewrite lookup_insert_eq.
    + eapply owned_by_iterate; [done|]. by rewrite lookup_insert_ne.
  - intros this xs Hne Hthis.
    destruct (copy_assign_spec _ _ _ _ _ _ Hown Hne Hthis Hoth)
      as (s' & new & Hrun & Hown' & Hvals).
    exists s', new. split; [done|]. split; [done|]. split.
    + rewrite <- Hvals. eapply owned_by_iterate; [done|]. by rewrite lookup_insert_eq.
    + eapply owned_by_iterate; [done|]. by rewrite lookup_insert_ne.
Qed.

(** C4: emplace_front hands its arguments to the construct member of
    the node allocator, which builds a node from them; with an element
    as argument no constructor of the node is viable. *)
Theorem emplace_front_element_ill_formed s this v :
  emplace_front this [ArgValue v] s = IllFormed.
Proof. done. Qed.

Lemma filter_lengths (pred : T → bool) xs :
  length (filter (λ u, pred u.2 = false) xs) +
    length (filter (λ u, pred u.2 = true) xs) = length xs.
Proof.
  induction xs as [|u xs IH]; [done|].
  destruct (pred u.2) eqn:E.
  - rewrite filter_cons_False, filter_cons_True by congruence. simpl. lia.
  - rewrite filter_cons_True, filter_cons_False by congruence. simpl. lia.
Qed.

(** X25: remove_if, and remove with a value that is not an element of
    the list it is called on, unlink and free exactly the nodes whose
    value matches; the nodes that stay keep their order; the length
    goes down by the number of matches. *)
Theorem remove_exact s ch this xs :
  owned_by s ch → ch !! this = Some xs →
  (∀ pred, ∃ s', remove_if this pred s = Ok tt s' ∧
     removed_exactly pred s ch this xs s') ∧
  (∀ r v, refers_to r v s → apart_from r xs →
     ∃ s', remove this r s = Ok tt s' ∧
       removed_exactly (λ w, elt_eqb w v) s ch this xs s').
Proof.
  intros Hown Hthis. split.
  - intros pred.
    destruct (remove_if_spec _ _ _ _ pred Hown Hthis) as (s' & Hrun & Hown' & Hgone).
    exists s'. split; [done|]. split; [done|]. split; [|split; [done|split]].
    + eapply owned_by_iterate; [done|]. by rewrite lookup_insert_eq.
    + apply sublist_filter.
    + apply filter_lengths.
  - intros r v Hr Hout.
    destruct (remove_spec _ _ _ _ _ _ Hown Hthis Hr Hout) as (s' & Hrun & Hown' & Hgone).
    exists s'. split; [done|]. split; [done|]. split; [|split; [done|split]].
    + eapply owned_by_iterate; [done|]. by rewrite lookup_insert_eq.
    + apply sublist_filter.
    + apply (filter_lengths (λ w, elt_eqb w v)).
Qed.

(** C8: remove(front()), on a list of two or more elements whose
    first value equals itself: the argument refers to the first node,
    the first test destroys that node, and the test at the next node
    reads the argument again, so the call is undefined.  Called with
    a copy of the same value, remove frees every node that holds it. *)
Theorem remove_own_element_undefined s ch this a v b w xs :
  owned_by s ch → ch !! this = Some ((a, v) :: (b, w) :: xs) →
  elt_eqb v v = true →
  begin this s = Ok (Some a) s ∧
  front this s = Ok v s ∧
  remove this (RefNode a) s = Undefined ∧
  ∃ s', remove this (RefValue v) s = Ok tt s' ∧
    nodes s' !! a = None ∧
    iterate this s' =
      Ok (filter (λ u, elt_eqb u.2 v = false) ((b, w) :: xs)).*2 s'.
Proof.
  intros Hown Hthis Hrefl.
  pose proof (owned_by_owns _ _ _ _ Hown Hthis) as Howns.
  split; [|split; [by eapply front_spec|split]].
  - destruct Howns as (p & Hp & -> & _). by apply get_head_Ok.
  - by eapply remove_first_element.
  - destruct (remove_spec _ _ _ _ (RefValue v) v Hown Hthis eq_refl I)
      as (s' & Hrun & Hown' & Hgone).
    exists s'. split; [done|]. split.
    + apply (Hgone a v); [apply list_elem_of_here|done].
    + rewrite filter_cons_False in Hown' by (simpl; congruence).
      eapply owned_by_iterate; [done|]. apply lookup_insert_eq.
Qed.

Lemma run_ops_spec ops s ch this xs :
  owned_by s ch → ch !! this = Some xs →
  ∃ k s' zs, run_ops this ops s = Ok k s' ∧
    owned_by s' (<[this := zs]> ch) ∧ length zs + k = length xs + pushes ops.
Proof.
  revert s ch xs. induction ops as [|[v|] ops IH]; intros s ch xs Hown Hthis.
  - exists 0, s, xs. split; [done|]. split; [by rewrite insert_id|]. simpl. lia.
  - destruct (push_front_spec _ _ _ _ v Hown Hthis) as (a & s1 & _ & Hpush & Hown1 & _).
    destruct (IH s1 _ ((a, v) :: xs) Hown1) as (k & s' & zs & Hrun & Hown' & Hlen).
    { by rewrite lookup_insert_eq. }
    exists k, s', zs. split; [|split].
    + simpl. by rewrite (bind_Ok _ _ _ _ _ Hpush).
    + by rewrite insert_insert_eq in Hown'.
    + simpl in *. lia.
  - pose proof (empty_spec _ _ _ (owned_by_owns _ _ _ _ Hown Hthis)) as Hempty.
    destruct (pop_front_spec _ _ _ _ Hown Hthis) as (s1 & Hpop & Hown1 & _).
    destruct (IH s1 _ (tail xs) Hown1) as (k & s' & zs & Hrun & Hown' & Hlen).
    { by rewrite lookup_insert_eq. }
    exists (if bool_decide (xs = []) then k else S k), s', zs. split; [|split].
    + simpl. rewrite (bind_Ok _ _ _ _ _ Hempty), (bind_Ok _ _ _ _ _ Hpop).
      by rewrite (bind_Ok _ _ _ _ _ Hrun).
    + by rewrite insert_insert_eq in Hown'.
    + case_bool_decide as Hxs; [subst xs; simpl in *; lia|].
      destruct xs as [|u xs]; [done|]. simpl in *. lia.
Qed.

(** C7: from the empty list, a sequence of push_front and pop_front
    calls ends with a list whose length is the number of pushes minus
    the number of pops that found the list non-empty, which is not
    negative; pop_front on an empty list leaves the store as it is. *)
Theorem push_pop_length ops s ch this :
  owned_by s ch → ch !! this = Some [] →
  (∃ k s' zs, run_ops this ops s = Ok k s' ∧
     owned_by s' (<[this := zs]> ch) ∧ iterate this s' = Ok zs.*2 s' ∧
     (Z.of_nat (length zs) = Z.of_nat (pushes ops) - Z.of_nat k)%Z ∧
     (0 ≤ Z.of_nat (pushes ops) - Z.of_nat k)%Z) ∧
  (∀ s0, lists s0 !! this = Some None → pop_front this s0 = Ok tt s0).
Proof.
  intros Hown Hthis. split; [|intros s0; apply pop_front_nil].
  destruct (run_ops_spec ops _ _ _ _ Hown Hthis) as (k & s' & zs & Hrun & Hown' & Hlen).
  exists k, s', zs. split; [done|]. split; [done|]. split; [|simpl in Hlen; lia].
  eapply owned_by_iterate; [done|]. by rewrite lookup_insert_eq.
Qed.


(** C2: merge on two different list objects whose chains are ascending
    moves the nodes of the argument into the receiver: the receiver's
    chain is made of the nodes of both, ascending, and the argument is
    left empty. *)
Theorem merge_sorted `{!ElemOrder T} s ch this other xs ys :
  owned_by s ch → this ≠ other →
  ch !! this = Some xs → ch !! other = Some ys →
  Sorted elt_le xs.*2 → Sorted elt_le ys.*2 →
  ∃ s', merge this other s = Ok tt s' ∧
    owned_by s' (<[other := []]> (<[this := merge_list xs ys]> ch)) ∧
    merge_list xs ys ≡ₚ xs ++ ys ∧
    Sorted elt_le (merge_list xs ys).*2 ∧
    iterate this s' = Ok (merge_list xs ys).*2 s' ∧
    iterate other s' = Ok [] s'.
Proof.
  intros Hown Hne Hthis Hoth Hsx Hsy.
  destruct (merge_spec _ _ _ _ _ _ Hown Hne Hthis Hoth) as (s' & Hrun & Hown').
  exists s'. split; [done|]. split; [done|]. split; [apply merge_list_perm|].
  split; [|split].
  - apply keys_sorted, merge_list_sorted; by apply sorted_keys.
  - eapply owned_by_iterate; [done|].
    by rewrite lookup_insert_ne, lookup_insert_eq.
  - change (@nil T) with ((@nil (loc * T)).*2).
    eapply owned_by_iterate; [done|]. by rewrite lookup_insert_eq.
Qed.

(** C3, amended: in merge on two ascending lists, among equal keys the
    node that comes from the argument precedes the node that comes from
    the receiver. *)
Theorem merge_ties_argument_first `{!ElemOrder T} s ch this other xs ys :
  owned_by s ch → this ≠ other →
  ch !! this = Some xs → ch !! other = Some ys →
  Sorted elt_le xs.*2 → Sorted elt_le ys.*2 →
  ∃ s' zs, merge this other s = Ok tt s' ∧ owns s' this zs ∧
    ∀ u w, u ∈ xs → w ∈ ys →
      elt_ltb u.2 w.2 = false → elt_ltb w.2 u.2 = false →
      [w; u] `sublist_of` zs.
Proof.
  intros Hown Hne Hthis Hoth Hsx Hsy.
  destruct (merge_spec _ _ _ _ _ _ Hown Hne Hthis Hoth) as (s' & Hrun & Hown').
  exists s', (merge_list xs ys). split; [done|]. split.
  - eapply owned_by_owns; [done|]. by rewrite lookup_insert_ne, lookup_insert_eq.
  - intros u w Hu Hw Huw _. apply merge_list_ties; [by apply sorted_keys|done..].
Qed.

(** C5: unique unlinks and frees exactly the nodes whose value equals
    the value of their immediate predecessor; equal values that are not
    adjacent stay. *)
Theorem unique_adjacent `{!ElemEq T} s ch this xs :
  owned_by s ch → ch !! this = Some xs →
  ∃ s', unique this s = Ok tt s' ∧
    owned_by s' (<[this := adjacent_unique xs]> ch) ∧
    iterate this s' = Ok (adjacent_unique xs).*2 s' ∧
    (∀ b, b ∈ xs.*1 → b ∉ (adjacent_unique xs).*1 → nodes s' !! b = None).
Proof.
  intros Hown Hthis.
  destruct (unique_spec _ _ _ _ Hown Hthis) as (s' & Hrun & Hown' & Hgone).
  rewrite unique_list_adjacent in Hown', Hgone.
  exists s'. split; [done|]. split; [done|]. split; [|done].
  eapply owned_by_iterate; [done|]. by rewrite lookup_insert_eq.
Qed.

End Properties.

Section SelfMerge.
Context {T : Type} `{Elem T}.
Implicit Types (s : state T) (p q : ptr) (a : loc) (this : lid) (v : T).

(** X20: why merge wants two list objects: on one and the same
    non-empty list, with an [operator<] that is irreflexive at the first
    value, an iteration moves the head in front of itself and leaves the
    store as it found it, so the loop never ends and merge does not
    return. *)
Lemma merge_self_diverges s this a v q :
  lists s !! this = Some (Some a) → nodes s !! a = Some (cell v q) →
  elt_ltb v v = false →
  (∀ n, merge_loop n (HeadOf this) this s = Diverge) ∧
  merge this this s = Diverge.
Proof.
  intros Hp Ha Hirr.
  assert (∀ n, merge_loop n (HeadOf this) this s = Diverge) as Hloop.
  { induction n as [|n IH]; [done|]. cbn [merge_loop deref].
    rewrite (bind_Ok _ _ _ _ _ (get_head_Ok _ _ _ Hp)).
    rewrite (bind_Ok _ _ _ _ _ (get_head_Ok _ _ _ Hp)).
    rewrite (bind_Ok _ _ _ _ _ (get_value_Ok _ _ _ _ Ha)).
    rewrite (bind_Ok _ _ _ _ _ (get_value_Ok _ _ _ _ Ha)). rewrite Hirr.
    rewrite (bind_Ok _ _ _ _ _ (get_next_Ok _ _ _ _ Ha)).
    rewrite (bind_Ok _ _ _ _ _ (set_head_Ok _ _ _ q Hp)).
    set (s1 := State (nodes s) (<[this := q]> (lists s))).
    assert (lists s1 !! this = Some q) as Hp1 by apply lookup_insert_eq.
    rewrite (bind_Ok _ _ _ _ _ (get_head_Ok s1 _ _ Hp1)).
    rewrite (bind_Ok _ _ _ _ _ (set_next_Ok s1 _ _ q Ha)).
    erewrite bind_Ok; [|by apply (set_head_Ok _ _ q)].
    simpl. rewrite insert_insert_eq, !insert_id by done.
    by rewrite state_eta. }
  split; [done|]. rewrite merge_unfold. unfold mbind, M_bind, with_budget.
  by rewrite Hloop.
Qed.

End SelfMerge.

(** * Further properties of the operations *)

Section Release.
Context {T : Type} `{Elem T}.
Implicit Types (s : state T) (h : gmap loc (fwd_list_node T)).
Implicit Types (p q : ptr) (a b : loc) (l this other : lid) (v : T).
Implicit Types (xs ys zs : list (loc * T)) (ch : gmap lid (list (loc * T))).

(** X2: clear() returns on every list, leaves it empty and the other
    lists as they are, frees every node of its chain and no other node,
    so the number of live nodes drops by the length of the list; a
    second clear() changes nothing. *)
Theorem clear_releases_chain s ch this xs :
  owned_by s ch → ch !! this = Some xs →
  ∃ s', clear this s = Ok tt s' ∧
    owned_by s' (<[this := []]> ch) ∧
    empty this s' = Ok true s' ∧
    released xs.*1 s s' ∧
    clear this s' = Ok tt s'.
Proof.
  intros Hown Hthis.
  destruct (clear_released _ _ _ _ Hown Hthis) as (s' & Hrun & Hown' & Hl & Hrel).
  assert (lists s' !! this = Some None) as Hnull.
  { rewrite Hl. apply lookup_insert_eq. }
  exists s'. split; [done|]. split; [done|]. split; [|split; [done|]].
  - unfold empty. by rewrite (bind_Ok _ _ _ _ _ (get_head_Ok _ _ _ Hnull)).
  - by apply clear_nil.
Qed.

(** X3: the destructor frees every node of the list and no other
    node, ends the lifetime of the list object and leaves the other
    lists as they are; reading the head of the destroyed object is
    undefined. *)
Theorem destructor_releases_chain s ch this xs :
  owned_by s ch → ch !! this = Some xs →
  ∃ s', dtor this s = Ok tt s' ∧
    owned_by s' (delete this ch) ∧
    lists s' = delete this (lists s) ∧
    released xs.*1 s s' ∧
    begin this s' = Undefined.
Proof.
  intros Hown Hthis.
  destruct (clear_released _ _ _ _ Hown Hthis) as (s1 & Hclear & Hown1 & Hl & Hrel).
  destruct (dtor_spec _ _ _ _ Hown Hthis) as (s' & Hrun & Hown').
  assert (s' = State (nodes s1) (delete this (lists s))) as ->.
  { unfold dtor in Hrun. rewrite (bind_Ok _ _ _ _ _ Hclear) in Hrun.
    unfold end_of_life in Hrun. rewrite Hl, lookup_insert_eq in Hrun.
    apply Ok_inj in Hrun as [_ <-]. by rewrite delete_insert_eq. }
  eexists. split; [done|]. split; [done|]. split; [done|]. split; [done|].
  unfold begin, get_head. simpl. by rewrite lookup_delete_eq.
Qed.

End Release.

Section Transfer.
Context {T : Type} `{Elem T}.
Implicit Types (s : state T) (h : gmap loc (fwd_list_node T)).
Implicit Types (p q : ptr) (a b : loc) (l this other : lid) (v : T).
Implicit Types (xs ys zs : list (loc * T)) (ch : gmap lid (list (loc * T))).

Lemma owned_by_empty s ch l : owned_by s ch → ch !! l = Some [] → empty l s = Ok true s.
Proof.
  intros Hown Hl. by rewrite (empty_spec _ _ _ (owned_by_owns _ _ _ _ Hown Hl)).
Qed.

(** X1: the constructor makes a new list object beside the live ones
    and touches no node; the new list is empty, iterates as nothing,
    and its begin() equals its end(). *)
Theorem ctor_makes_empty_list s ch :
  owned_by s ch →
  ∃ l s', ch !! l = None ∧ ctor s = Ok l s' ∧
    nodes s' = nodes s ∧
    owned_by s' (<[l := []]> ch) ∧
    empty l s' = Ok true s' ∧
    iterate l s' = Ok [] s' ∧
    (b ← begin l; e ← end_ l; mret (iter_eq b e)) s' = Ok true s'.
Proof.
  intros Hown. destruct (ctor_spec _ _ Hown) as (l & s' & Hfresh & Hrun & Hs' & Hown').
  assert ((<[l := []]> ch : gmap lid (list (loc * T))) !! l = Some []) as Hl
    by apply lookup_insert_eq.
  exists l, s'. split; [done|]. split; [done|]. split; [by subst s'|].
  split; [done|]. split; [by eapply owned_by_empty|].
  split; [by apply (owned_by_iterate _ _ _ _ Hown' Hl)|].
  subst s'. unfold begin, end_. munfold. by mred.
Qed.

(** X4: move construction makes a new list object that owns the very
    nodes of the source, in their order; no node is allocated, freed or
    written, and the source is left empty. *)
Theorem move_ctor_takes_chain s ch other ys :
  owned_by s ch → ch !! other = Some ys →
  ∃ this s', ch !! this = None ∧ move_ctor other s = Ok this s' ∧
    owned_by s' (<[other := []]> (<[this := ys]> ch)) ∧
    nodes s' = nodes s ∧
    iterate this s' = Ok ys.*2 s' ∧
    empty other s' = Ok true s'.
Proof.
  intros Hown Hoth.
  destruct (move_ctor_spec _ _ _ _ Hown Hoth) as (this & s' & Hfresh & Hrun & Hown').
  assert (this ≠ other) as Hne by congruence.
  exists this, s'. split; [done|]. split; [done|]. split; [done|]. split; [|split].
  - destruct (owned_by_is_live _ _ _ _ Hown Hoth) as (po & Hpo).
    unfold move_ctor in Hrun.
    rewrite (bind_Ok _ _ _ _ _ (get_head_Ok _ _ _ Hpo)) in Hrun.
    unfold base_ctor in Hrun. revert Hrun. munfold. mred.
    destruct (decide (other = fresh (dom (lists s)))) as [E|E].
    + exfalso. pose proof (is_fresh (dom (lists s))) as Hf. rewrite <- E in Hf.
      apply Hf, elem_of_dom. eauto.
    + rewrite !lookup_insert_ne by done. rewrite Hpo. by intros [_ <-]%Ok_inj.
  - eapply owned_by_iterate; [done|]. by rewrite lookup_insert_ne, lookup_insert_eq.
  - eapply owned_by_empty; [done|]. by rewrite lookup_insert_eq.
Qed.

(** X5: move assignment between two different list objects frees the
    nodes the receiver had and no other node; the receiver then owns the
    very nodes of the source, in their order, and the source is left
    empty. *)
Theorem move_assign_takes_chain s ch this other xs ys :
  owned_by s ch → this ≠ other → ch !! this = Some xs → ch !! other = Some ys →
  ∃ s', move_assign this other s = Ok tt s' ∧
    owned_by s' (<[other := []]> (<[this := ys]> ch)) ∧
    released xs.*1 s s' ∧
    iterate this s' = Ok ys.*2 s' ∧
    empty other s' = Ok true s'.
Proof.
  intros Hown Hne Hthis Hoth.
  destruct (move_assign_spec _ _ _ _ _ _ Hown Hne Hthis Hoth) as (s' & Hrun & Hown').
  destruct (clear_released _ _ _ _ Hown Hthis) as (s1 & Hclear & Hown1 & Hl & Hrel).
  exists s'. split; [done|]. split; [done|]. split; [|split].
  - destruct (owned_by_is_live _ _ _ _ Hown Hoth) as (po & Hpo).
    unfold move_assign in Hrun. rewrite bool_decide_true in Hrun by done.
    rewrite (bind_Ok _ _ _ _ _ Hclear) in Hrun. revert Hrun. munfold.
    repeat (rewrite ?Hl; mred). by intros [_ <-]%Ok_inj.
  - eapply owned_by_iterate; [done|]. by rewrite lookup_insert_ne, lookup_insert_eq.
  - eapply owned_by_empty; [done|]. by rewrite lookup_insert_eq.
Qed.

(** X6: swap between two different list objects exchanges their
    chains without touching a node; it does the same with the roles
    exchanged, a second swap restores the store, and a list swapped with
    itself is left as it is. *)
Theorem swap_exchanges_chains s ch this other xs ys :
  owned_by s ch → this ≠ other → ch !! this = Some xs → ch !! other = Some ys →
  ∃ s', swap this other s = Ok tt s' ∧
    owned_by s' (<[other := xs]> (<[this := ys]> ch)) ∧
    nodes s' = nodes s ∧
    iterate this s' = Ok ys.*2 s' ∧
    iterate other s' = Ok xs.*2 s' ∧
    swap other this s = Ok tt s' ∧
    swap this other s' = Ok tt s ∧
    swap this this s = Ok tt s.
Proof.
  intros Hown Hne Hthis Hoth.
  destruct (swap_spec _ _ _ _ _ _ Hown Hne Hthis Hoth) as (s' & Hrun & Hown').
  destruct (owned_by_is_live _ _ _ _ Hown Hoth) as (po & Hpo).
  destruct (owned_by_is_live _ _ _ _ Hown Hthis) as (pt & Hpt).
  assert (s' = State (nodes s) (<[other := pt]> (<[this := po]> (lists s)))) as Hs'.
  { revert Hrun. unfold swap. munfold. mred. by intros [_ <-]%Ok_inj. }
  exists s'. split; [done|]. split; [done|]. split; [by subst s'|].
  split; [|split; [|split; [|split]]].
  - eapply owned_by_iterate; [done|]. by rewrite lookup_insert_ne, lookup_insert_eq.
  - eapply owned_by_iterate; [done|]. by rewrite lookup_insert_eq.
  - subst s'. unfold swap. munfold. mred.
    by rewrite (insert_insert_ne _ this other).
  - subst s'. unfold swap. munfold. mred. do 2 f_equal.
    destruct s as [n ls]. simpl in *. f_equal. apply map_eq. intros l.
    destruct (decide (l = other)) as [->|?]; [by rewrite lookup_insert_eq|].
    rewrite lookup_insert_ne by done.
    destruct (decide (l = this)) as [->|?]; [by rewrite lookup_insert_eq|].
    by rewrite !lookup_insert_ne.
  - by eapply swap_self.
Qed.

(** X7: assign(count, value) with a value that is not an element of
    the list returns and leaves the list with exactly [count] elements,
    all equal to [value], the other lists as they were; with a
    reference to an element of the list and a count above zero it is
    undefined: clear() has freed the element before it is read. *)
Theorem assign_fills s ch this xs count r :
  owned_by s ch → ch !! this = Some xs →
  (∀ v, refers_to r v s → apart_from r xs →
   ∃ s' new, assign this count r s = Ok tt s' ∧
     owned_by s' (<[this := new]> ch) ∧
     iterate this s' = Ok (replicate count v) s' ∧
     length new = count) ∧
  (∀ a, r = RefNode a → a ∈ xs.*1 → 0 < count →
   assign this count r s = Undefined).
Proof.
  intros Hown Hthis. split.
  - intros v Hr Hout.
    destruct (assign_spec _ _ _ _ count _ v Hown Hthis Hr Hout)
      as (s' & new & Hrun & Hown' & Hvals).
    exists s', new. split; [done|]. split; [done|]. split.
    + rewrite <- Hvals. eapply owned_by_iterate; [done|]. by rewrite lookup_insert_eq.
    + by rewrite <- (length_fmap snd), Hvals, length_replicate.
  - intros a -> Ha Hcount. destruct count as [|count]; [lia|].
    by eapply assign_own_element.
Qed.

(** X8: resize(count, value) works at the front: a longer list keeps
    its last [count] nodes, a shorter one gets copies of [value] in
    front of its nodes; in both cases the list has [count] elements
    afterwards. *)
Theorem resize_at_front s ch this xs count v :
  owned_by s ch → ch !! this = Some xs →
  ∃ s' new, resize this count v s = Ok tt s' ∧
    owned_by s' (<[this := new ++ drop (length xs - count) xs]> ch) ∧
    iterate this s' =
      Ok (replicate (count - length xs) v ++ drop (length xs - count) xs.*2) s' ∧
    length (new ++ drop (length xs - count) xs) = count.
Proof.
  intros Hown Hthis.
  destruct (resize_spec _ _ _ _ count v Hown Hthis) as (s' & new & Hrun & Hown' & Hvals).
  exists s', new. split; [done|]. split; [done|]. split.
  - rewrite <- Hvals, <- fmap_drop, <- fmap_app.
    eapply owned_by_iterate; [done|]. by rewrite lookup_insert_eq.
  - rewrite length_app, length_drop, <- (length_fmap snd new), Hvals, length_replicate.
    lia.
Qed.

End Transfer.

Section Handles.
Context {T : Type} `{Elem T}.
Implicit Types (s : state T) (h : gmap loc (fwd_list_node T)).
Implicit Types (p q it : ptr) (a b : loc) (l this other : lid) (v : T).
Implicit Types (xs ys zs : list (loc * T)) (ch : gmap lid (list (loc * T))).

(** X9: create_node returns the address of a node that was not
    live, with the value constructed and the link not yet stored, so
    reading the link is undefined; destroy_node on it restores the
    store, destroy_node on an address that is not live is undefined,
    and deallocate_node on null does nothing. *)
Theorem create_destroy_round_trip s v :
  ∃ a s1, create_node v s = Ok (Some a) s1 ∧
    nodes s !! a = None ∧
    s1 = State (<[a := Node (Some v) None]> (nodes s)) (lists s) ∧
    get_value (Some a) s1 = Ok v s1 ∧
    get_next (Some a) s1 = Undefined ∧
    destroy_node (Some a) s1 = Ok tt s ∧
    destroy_node (Some a) s = Undefined ∧
    deallocate_node None s = Ok tt s.
Proof.
  pose proof (fresh_not_live s) as Hf.
  exists (fresh (dom (nodes s))). eexists. split; [|split; [done|split; [reflexivity|]]].
  - munfold. mred. by rewrite insert_insert_eq.
  - split; [|split; [|split; [|split]]].
    + munfold. by mred.
    + munfold. by mred.
    + munfold. mred. rewrite insert_insert_eq, delete_insert_eq, delete_id by done.
      by rewrite state_eta.
    + munfold. by mred.
    + done.
Qed.

(** X10: on a live list, push_front(value) adds one node; front()
    then returns [value], empty() returns false, and pop_front()
    restores the store as it was before the push. *)
Theorem push_pop_round_trip s this v :
  live s this →
  ∃ s1, push_front this v s = Ok tt s1 ∧
    front this s1 = Ok v s1 ∧
    empty this s1 = Ok false s1 ∧
    size (nodes s1) = S (size (nodes s)) ∧
    pop_front this s1 = Ok tt s.
Proof.
  intros [p Hp]. pose proof (fresh_not_live s) as Hf.
  eexists. split; [by apply push_front_Ok|]. split; [|split; [|split]].
  - unfold front. munfold. by mred.
  - unfold empty. munfold. by mred.
  - simpl. by rewrite map_size_insert_None.
  - erewrite pop_front_cons; [|simpl; apply lookup_insert_eq..].
    simpl. rewrite delete_insert_eq, delete_id, insert_insert_eq, insert_id by done.
    by rewrite state_eta.
Qed.

(** X11: empty() returns true exactly on a list without elements and
    changes nothing; front() returns the first value of a list that has
    one, where begin() is the handle of its first node, and is undefined
    on an empty list, whose head it reads through. *)
Theorem front_needs_element s this xs :
  owns s this xs →
  empty this s = Ok (bool_decide (xs = [])) s ∧
  match xs with
  | [] => front this s = Undefined
  | (a, v) :: _ => front this s = Ok v s ∧ begin this s = Ok (Some a) s
  end.
Proof.
  intros Hown. split; [by apply empty_spec|].
  destruct xs as [|[a v] xs].
  - destruct Hown as (p & Hp & ->). unfold front. munfold. by mred.
  - split; [by eapply front_spec|].
    destruct Hown as (p & Hp & -> & _). by apply get_head_Ok.
Qed.

(** X12: pop_front() on a list with a first node frees that node:
    dereferencing or incrementing a handle to it is undefined
    afterwards, while a handle to any other node of the list still
    reads its value and still moves to its successor. *)
Theorem pop_front_invalidates_first s ch this a v xs :
  owned_by s ch → ch !! this = Some ((a, v) :: xs) →
  ∃ s', pop_front this s = Ok tt s' ∧
    owned_by s' (<[this := xs]> ch) ∧
    iter_deref (Some a) s' = Undefined ∧
    iter_incr (Some a) s' = Undefined ∧
    (∀ b w, (b, w) ∈ xs → iter_deref (Some b) s' = Ok w s') ∧
    (∀ i b w, xs !! i = Some (b, w) →
       iter_incr (Some b) s' = Ok (fst <$> xs !! S i) s').
Proof.
  intros Hown Hthis.
  destruct (pop_front_spec _ _ _ _ Hown Hthis) as (s' & Hrun & Hown' & _).
  simpl in Hown'.
  destruct (owned_by_owns _ _ _ _ Hown Hthis) as (p & Hp & -> & q & Ha & Hc).
  assert (nodes s' !! a = None) as Hgone.
  { rewrite (pop_front_cons _ _ _ _ _ Hp Ha) in Hrun.
    apply Ok_inj in Hrun as [_ <-]. simpl. apply lookup_delete_eq. }
  destruct (owned_by_owns s' _ this xs Hown') as (p' & Hp' & Hc').
  { apply lookup_insert_eq. }
  exists s'. split; [done|]. split; [done|].
  split; [|split; [|split]].
  - unfold iter_deref. munfold. by mred.
  - unfold iter_incr. munfold. by mred.
  - intros b w Hb. apply list_elem_of_split in Hb as (pre & suf & ->).
    apply chain_drop in Hc'. destruct Hc' as (_ & q' & Hb & _).
    unfold iter_deref. by eapply get_value_Ok.
  - intros i b w Hi.
    rewrite <- (take_drop_middle _ _ _ Hi) in Hc'.
    apply chain_drop in Hc'. destruct Hc' as (_ & q' & Hb & Hc').
    unfold iter_incr. erewrite get_next_Ok; [|done].
    rewrite (chain_head _ _ _ Hc'). do 2 f_equal.
    by rewrite head_lookup, list_lookup_fmap, lookup_drop, Nat.add_0_r.
Qed.

Lemma advance_spec s p xs i :
  chain (nodes s) p xs → i ≤ length xs →
  advance i p s = Ok (fst <$> xs !! i) s.
Proof.
  revert p xs. induction i as [|i IH]; intros p xs Hc Hi.
  - simpl. rewrite (chain_head _ _ _ Hc). by destruct xs.
  - destruct xs as [|[a v] xs]; [simpl in Hi; lia|].
    destruct Hc as (-> & q & Ha & Hc). cbn [advance]. unfold iter_incr.
    rewrite (bind_Ok _ _ _ _ _ (get_next_Ok _ _ _ _ Ha)).
    simpl. apply IH; [done|]. simpl in Hi. lia.
Qed.

(** X13: a handle moved forward [i] times from begin() is at the
    [i]-th node of the list and reads its value; after as many steps as
    the list has nodes it equals end(); one step more, or a dereference
    of end(), is undefined. *)
Theorem advance_walks_chain s this xs :
  owns s this xs →
  (∀ i, i ≤ length xs →
     (b ← begin this; advance i b) s = Ok (fst <$> xs !! i) s) ∧
  (∀ i a v, xs !! i = Some (a, v) → iter_deref (Some a) s = Ok v s) ∧
  (b ← begin this; e ← end_ this; it ← advance (length xs) b; mret (iter_eq it e)) s
    = Ok true s ∧
  (b ← begin this; advance (S (length xs)) b) s = Undefined ∧
  iter_deref None s = Undefined.
Proof.
  intros (p & Hp & Hc). unfold begin.
  assert (∀ i, i ≤ length xs →
            (b ← get_head this; advance i b) s = Ok (fst <$> xs !! i) s) as Hadv.
  { intros i Hi. rewrite (bind_Ok _ _ _ _ _ (get_head_Ok _ _ _ Hp)).
    by apply advance_spec. }
  split; [done|]. split; [|split; [|split]].
  - intros i a v Hi. rewrite <- (take_drop_middle _ _ _ Hi) in Hc.
    apply chain_drop in Hc. destruct Hc as (_ & q & Ha & _).
    unfold iter_deref. by eapply get_value_Ok.
  - rewrite (bind_Ok _ _ _ _ _ (get_head_Ok _ _ _ Hp)). unfold end_.
    change ((mret None ≫= λ e, advance (length xs) p ≫= λ it, mret (iter_eq it e)) s)
      with ((advance (length xs) p ≫= λ it, mret (iter_eq it None)) s).
    rewrite (bind_Ok _ _ _ _ _ (advance_spec _ _ _ _ Hc (Nat.le_refl _))).
    by rewrite lookup_ge_None_2.
  - rewrite (bind_Ok _ _ _ _ _ (get_head_Ok _ _ _ Hp)).
    assert (∀ n q zs, chain (nodes s) q zs → n = length zs →
              advance (S n) q s = Undefined) as Hpast.
    { clear. induction n as [|n IH]; intros q zs Hc Hn.
      - destruct zs; [|done]. simpl in Hc. by subst q.
      - destruct zs as [|[a v] zs]; [done|]. destruct Hc as (-> & q' & Ha & Hc).
        change (advance (S (S n)) (Some a) s)
          with ((iter_incr (Some a) ≫= λ it', advance (S n) it') s).
        unfold iter_incr. rewrite (bind_Ok _ _ _ _ _ (get_next_Ok _ _ _ _ Ha)).
        eapply IH; [done|]. simpl in Hn. lia. }
    by eapply Hpast.
  - done.
Qed.

(** X14: emplace_front() without arguments does what
    push_front(Type()) does: one new node in front of the chain, so
    front() returns the value-initialised element. *)
Theorem emplace_front_no_argument s ch this xs :
  owned_by s ch → ch !! this = Some xs →
  ∃ a s', emplace_front this [] s = Ok tt s' ∧
    push_front this elt_default s = Ok tt s' ∧
    nodes s !! a = None ∧
    owned_by s' (<[this := (a, elt_default) :: xs]> ch) ∧
    front this s' = Ok elt_default s'.
Proof.
  intros Hown Hthis.
  destruct (push_front_spec _ _ _ _ elt_default Hown Hthis)
    as (a & s' & Ha & Hrun & Hown' & _).
  destruct (owned_by_is_live _ _ _ _ Hown Hthis) as (p & Hp).
  exists a, s'. split; [by rewrite (emplace_front_default _ _ _ Hp)|].
  split; [done|]. split; [done|]. split; [done|].
  eapply front_spec. eapply owned_by_owns; [done|]. apply lookup_insert_eq.
Qed.

End Handles.

Section Relink.
Context {T : Type} `{Elem T}.
Implicit Types (s : state T) (h : gmap loc (fwd_list_node T)).
Implicit Types (p q it : ptr) (a b : loc) (l this other : lid) (v : T).
Implicit Types (xs ys zs : list (loc * T)) (ch : gmap lid (list (loc * T))).

Lemma relinks_ret {A} (x : A) : relinks (T := T) (mret x : M T A).
Proof. by intros s y s' [_ <-]%Ok_inj. Qed.

Lemma relinks_bind {A B} (c : M T A) (f : A → M T B) :
  relinks c → (∀ x, relinks (T := T) (f x)) → relinks (T := T) (c ≫= f).
Proof.
  intros Hc Hf s y s' (x & s1 & H1 & H2)%bind_inv.
  destruct (Hc _ _ _ H1) as [<- <-]. by apply (Hf x _ _ _ H2).
Qed.

Lemma relinks_undefined {A} : relinks (T := T) (undefined : M T A).
Proof. by intros s y s'. Qed.

Lemma relinks_budget {A} (loop : nat → M T A) :
  (∀ n, relinks (T := T) (loop n)) → relinks (T := T) (with_budget loop).
Proof. intros Hl s y s'. apply Hl. Qed.

Lemma relinks_get_head l : relinks (T := T) (get_head l).
Proof.
  intros s y s'. unfold get_head. destruct (lists s !! l); [|done].
  by intros [_ <-]%Ok_inj.
Qed.

Lemma relinks_set_head l p : relinks (T := T) (set_head l p).
Proof.
  intros s y s'. unfold set_head. destruct (lists s !! l) eqn:E; [|done].
  intros [_ <-]%Ok_inj. simpl. split; [done|].
  apply dom_insert_lookup_L. eauto.
Qed.

Lemma relinks_load p : relinks (T := T) (load p).
Proof.
  intros s y s'. unfold load. destruct p as [a|]; [|done].
  destruct (nodes s !! a); [|done]. by intros [_ <-]%Ok_inj.
Qed.

Lemma relinks_get_next p : relinks (T := T) (get_next p).
Proof.
  apply relinks_bind; [apply relinks_load|]. intros n.
  destruct (next n); [apply relinks_ret|apply relinks_undefined].
Qed.

Lemma relinks_get_value p : relinks (T := T) (get_value p).
Proof.
  apply relinks_bind; [apply relinks_load|]. intros n.
  destruct (value n); [apply relinks_ret|apply relinks_undefined].
Qed.

Lemma relinks_set_next p q : relinks (T := T) (set_next p q).
Proof.
  intros s y s'. unfold set_next, load. munfold. destruct p as [a|]; [|done].
  destruct (nodes s !! a) eqn:E; [|done]. simpl.
  intros [_ <-]%Ok_inj. simpl. split; [|done].
  apply dom_insert_lookup_L. eauto.
Qed.

Lemma relinks_deref k : relinks (T := T) (deref k).
Proof. destruct k; [apply relinks_get_head|apply relinks_get_next]. Qed.

Lemma relinks_assign_link k p : relinks (T := T) (assign_link k p).
Proof. destruct k; [apply relinks_set_head|apply relinks_set_next]. Qed.

Lemma relinks_next_link k : relinks (T := T) (next_link k).
Proof.
  apply relinks_bind; [apply relinks_deref|]. intros [a|]; [|apply relinks_undefined].
  apply relinks_bind; [apply relinks_load|]. intros _. apply relinks_ret.
Qed.

Create HintDb relink.
Hint Resolve relinks_ret relinks_undefined relinks_get_head relinks_set_head
  relinks_get_next relinks_get_value relinks_set_next relinks_deref
  relinks_assign_link relinks_next_link : relink.

Ltac relink_tac :=
  repeat first
    [ solve [auto with relink]
    | apply relinks_budget; intros ?
    | apply relinks_bind; [|intros ?]
    | match goal with
      | |- relinks (match ?x with _ => _ end) => destruct x
      | |- relinks (if ?x then _ else _) => destruct x
      end ].

Lemma relinks_reverse_loop fuel prev current : relinks (T := T) (reverse_loop fuel prev current).
Proof.
  revert prev current. induction fuel as [|fuel IH]; intros prev current; [done|].
  cbn [reverse_loop]. relink_tac.
Qed.

Lemma relinks_merge_loop fuel pos other : relinks (T := T) (merge_loop fuel pos other).
Proof.
  revert pos. induction fuel as [|fuel IH]; intros pos; [done|].
  cbn [merge_loop]. relink_tac.
Qed.

Lemma relinks_last_loop fuel last : relinks (T := T) (last_loop fuel last).
Proof.
  revert last. induction fuel as [|fuel IH]; intros last; [done|].
  cbn [last_loop]. relink_tac.
Qed.

Lemma relinks_iterate_loop fuel it e : relinks (T := T) (iterate_loop fuel it e).
Proof.
  revert it. induction fuel as [|fuel IH]; intros it; [done|].
  cbn [iterate_loop]. unfold iter_deref, iter_incr. relink_tac.
Qed.

Hint Resolve relinks_reverse_loop relinks_merge_loop relinks_last_loop
  relinks_iterate_loop : relink.

Lemma relinks_merge this other : relinks (T := T) (merge this other).
Proof. unfold merge. relink_tac. Qed.

Lemma relinks_splice_after this pos other : relinks (T := T) (splice_after this pos other).
Proof. unfold splice_after. relink_tac. Qed.

(** X15: reverse, swap, merge, splice_after, front, empty and a
    traversal neither allocate nor free: whenever one of them returns,
    on any store, the live nodes and the live list objects are those it
    started with. *)
Theorem relinking_never_allocates this other pos :
  relinks (T := T) (reverse this) ∧ relinks (T := T) (swap this other) ∧
  relinks (T := T) (merge this other) ∧ relinks (T := T) (splice_after this pos other) ∧
  relinks (T := T) (front this) ∧ relinks (T := T) (empty this) ∧ relinks (T := T) (iterate this).
Proof.
  split; [unfold reverse; relink_tac|].
  split; [unfold swap; relink_tac|].
  split; [apply relinks_merge|].
  split; [apply relinks_splice_after|].
  split; [unfold front; relink_tac|].
  split; [unfold empty; relink_tac|].
  unfold iterate, begin, end_. relink_tac.
Qed.

End Relink.

Section Together.
Context {T : Type} `{Elem T}.
Implicit Types (s : state T) (h : gmap loc (fwd_list_node T)).
Implicit Types (p q it : ptr) (a b : loc) (l this other : lid) (v : T).
Implicit Types (xs ys zs : list (loc * T)) (ch : gmap lid (list (loc * T))).

(** X16: splice_after(pos, other), with [pos] at a node of the
    receiver and [other] a different list object, puts the nodes of
    [other], in their order, between that node and its successor;
    [other] is left empty, no node is allocated or freed, and with an
    empty [other] the store is unchanged. *)
Theorem splice_after_inserts_chain s ch this other pre pa pv suf ys :
  owned_by s ch → this ≠ other →
  ch !! this = Some (pre ++ (pa, pv) :: suf) → ch !! other = Some ys →
  ∃ s', splice_after this (Some pa) other s = Ok tt s' ∧
    owned_by s' (<[other := []]> (<[this := pre ++ (pa, pv) :: ys ++ suf]> ch)) ∧
    iterate this s' = Ok (pre.*2 ++ pv :: ys.*2 ++ suf.*2) s' ∧
    empty other s' = Ok true s' ∧
    dom (nodes s') = dom (nodes s) ∧
    (ys = [] → s' = s).
Proof.
  intros Hown Hne Hthis Hoth.
  destruct (splice_after_spec _ _ _ _ _ _ _ _ _ Hown Hne Hthis Hoth)
    as (s' & Hrun & Hown').
  exists s'. split; [done|]. split; [done|]. split; [|split; [|split]].
  - erewrite owned_by_iterate; [|done|by rewrite lookup_insert_ne, lookup_insert_eq].
    by rewrite fmap_app, fmap_cons, fmap_app.
  - eapply owned_by_empty; [done|]. apply lookup_insert_eq.
  - by apply (relinks_splice_after _ _ _ _ _ _ Hrun).
  - intros ->. destruct (owned_by_owns _ _ _ _ Hown Hoth) as (po & Hpo & ->).
    unfold splice_after in Hrun.
    rewrite (bind_Ok _ _ _ _ _ (get_head_Ok _ _ _ Hpo)) in Hrun.
    by apply Ok_inj in Hrun as [_ <-].
Qed.

(** X17: splice_after(pos, *this), the list spliced into itself,
    returns with the list empty while none of its nodes is freed: the
    nodes stay allocated and no list object reaches them. *)
Theorem splice_after_self_loses_chain s ch this pre pa pv suf :
  owned_by s ch → ch !! this = Some (pre ++ (pa, pv) :: suf) →
  ∃ s', splice_after this (Some pa) this s = Ok tt s' ∧
    owned_by s' (<[this := []]> ch) ∧
    iterate this s' = Ok [] s' ∧
    dom (nodes s') = dom (nodes s).
Proof.
  intros Hown Hthis.
  destruct (splice_after_self _ _ _ _ _ _ _ Hown Hthis) as (s' & Hrun & Hown').
  exists s'. split; [done|]. split; [done|]. split.
  - eapply (owned_by_iterate _ _ this []); [done|]. apply lookup_insert_eq.
  - by apply (relinks_splice_after _ _ _ _ _ _ Hrun).
Qed.

(** X18: merge(other) on two different list objects returns whether
    or not the lists are sorted, for any operator<; the receiver ends
    with exactly the nodes of both lists, its own nodes in the order
    they had; [other] is left empty and no node is allocated or freed. *)
Theorem merge_keeps_every_node s ch this other xs ys :
  owned_by s ch → this ≠ other → ch !! this = Some xs → ch !! other = Some ys →
  ∃ s' zs, merge this other s = Ok tt s' ∧
    owned_by s' (<[other := []]> (<[this := zs]> ch)) ∧
    zs ≡ₚ xs ++ ys ∧
    xs `sublist_of` zs ∧
    iterate this s' = Ok zs.*2 s' ∧
    empty other s' = Ok true s' ∧
    dom (nodes s') = dom (nodes s).
Proof.
  intros Hown Hne Hthis Hoth.
  destruct (merge_spec _ _ _ _ _ _ Hown Hne Hthis Hoth) as (s' & Hrun & Hown').
  exists s', (merge_list xs ys). split; [done|]. split; [done|].
  split; [apply merge_list_perm|]. split; [apply merge_list_sublist|].
  split; [|split].
  - eapply owned_by_iterate; [done|]. by rewrite lookup_insert_ne, lookup_insert_eq.
  - eapply owned_by_empty; [done|]. apply lookup_insert_eq.
  - by apply (relinks_merge _ _ _ _ _ Hrun).
Qed.

(** X19: merge with an empty argument leaves the store as it is;
    merge into an empty receiver hands it the chain of the argument as
    it is, sorted or not, without writing to a node. *)
Theorem merge_with_empty_list s ch this other zs :
  owned_by s ch → this ≠ other →
  (ch !! this = Some zs → ch !! other = Some [] → merge this other s = Ok tt s) ∧
  (ch !! this = Some [] → ch !! other = Some zs →
   ∃ s', merge this other s = Ok tt s' ∧ nodes s' = nodes s ∧
     owned_by s' (<[other := []]> (<[this := zs]> ch)) ∧
     iterate this s' = Ok zs.*2 s').
Proof.
  intros Hown Hne. split; intros Hthis Hoth.
  - destruct (owned_by_owns _ _ _ _ Hown Hoth) as (po & Hpo & ->).
    destruct (owned_by_is_live _ _ _ _ Hown Hthis) as (pt & Hpt).
    assert (with_budget (λ n, merge_loop n (HeadOf this) other) s
            = Ok (HeadOf this) s) as Hloop.
    { unfold with_budget. rewrite budget_size. cbn [merge_loop deref].
      rewrite (bind_Ok _ _ _ _ _ (get_head_Ok _ _ _ Hpt)).
      rewrite (bind_Ok _ _ _ _ _ (get_head_Ok _ _ _ Hpo)). by destruct pt. }
    rewrite merge_unfold, (bind_Ok _ _ _ _ _ Hloop).
    unfold merge_tail. by rewrite (bind_Ok _ _ _ _ _ (get_head_Ok _ _ _ Hpo)).
  - destruct (merge_spec _ _ _ _ _ _ Hown Hne Hthis Hoth) as (s' & Hrun & Hown').
    rewrite merge_list_nil_l in Hown'.
    exists s'. split; [done|]. split; [|split; [done|]].
    + destruct (owned_by_owns _ _ _ _ Hown Hthis) as (pt & Hpt & ->).
      destruct (owned_by_is_live _ _ _ _ Hown Hoth) as (po & Hpo).
      assert (with_budget (λ n, merge_loop n (HeadOf this) other) s
              = Ok (HeadOf this) s) as Hloop.
      { unfold with_budget. rewrite budget_size. cbn [merge_loop deref].
        rewrite (bind_Ok _ _ _ _ _ (get_head_Ok _ _ _ Hpt)).
        by rewrite (bind_Ok _ _ _ _ _ (get_head_Ok _ _ _ Hpo)). }
      revert Hrun. rewrite merge_unfold, (bind_Ok _ _ _ _ _ Hloop).
      unfold merge_tail. rewrite (bind_Ok _ _ _ _ _ (get_head_Ok _ _ _ Hpo)).
      destruct po as [b|]; [|by intros [_ <-]%Ok_inj].
      munfold. mred. by intros [_ <-]%Ok_inj.
    + eapply owned_by_iterate; [done|]. by rewrite lookup_insert_ne, lookup_insert_eq.
Qed.

Lemma unique_list_fixed x r : unique_list (unique_from x r) = unique_from x r.
Proof.
  revert x. induction r as [|y r IH]; intros x; [done|]. simpl.
  destruct (elt_eqb x.2 y.2) eqn:E; [apply IH|].
  destruct (unique_from_head y r) as [t Ht]. pose proof (IH y) as IHy.
  rewrite Ht in *. simpl in *. by rewrite E, IHy.
Qed.

Lemma unique_list_idem xs : unique_list (unique_list xs) = unique_list xs.
Proof. destruct xs as [|x r]; [done|]. apply unique_list_fixed. Qed.

Lemma unique_from_length x r : length (unique_from x r) ≤ S (length r).
Proof.
  revert x. induction r as [|y r IH]; intros x; simpl; [lia|].
  destruct (elt_eqb x.2 y.2); [specialize (IH x)|specialize (IH y)]; simpl; lia.
Qed.

(** On a chain without equal neighbours the loop of unique writes
    nothing. *)
Lemma unique_loop_fixed fuel s p x r :
  chain (nodes s) p (x :: r) → unique_from x r = x :: r → length r < fuel →
  unique_loop fuel p s = Ok tt s.
Proof.
  revert fuel p x. induction r as [|y r IH]; intros fuel p [a v] Hc Hfix Hf;
    (destruct fuel as [|fuel]; [simpl in Hf; lia|]).
  - destruct Hc as (-> & q & Ha & ->). cbn [unique_loop].
    by rewrite (bind_Ok _ _ _ _ _ (get_next_Ok _ _ _ _ Ha)).
  - destruct y as [b w]. destruct Hc as (-> & q & Ha & Hc).
    pose proof Hc as (-> & q' & Hb & _).
    simpl in Hfix. destruct (elt_eqb v w) eqn:E.
    + pose proof (unique_from_length (a, v) r) as Hlen.
      rewrite Hfix in Hlen. simpl in Hlen. lia.
    + injection Hfix as Hfix. cbn [unique_loop].
      rewrite (bind_Ok _ _ _ _ _ (get_next_Ok _ _ _ _ Ha)).
      rewrite (bind_Ok _ _ _ _ _ (get_value_Ok _ _ _ _ Ha)).
      rewrite (bind_Ok _ _ _ _ _ (get_value_Ok _ _ _ _ Hb)). rewrite E.
      eapply IH; [done|done|]. simpl in Hf. lia.
Qed.

(** X21: unique() leaves a list on which a second unique() changes
    nothing, not even the store. *)
Theorem unique_idempotent s ch this xs :
  owned_by s ch → ch !! this = Some xs →
  ∃ s', unique this s = Ok tt s' ∧
    owned_by s' (<[this := unique_list xs]> ch) ∧
    unique_list (unique_list xs) = unique_list xs ∧
    unique this s' = Ok tt s'.
Proof.
  intros Hown Hthis.
  destruct (unique_spec _ _ _ _ Hown Hthis) as (s' & Hrun & Hown' & _).
  exists s'. split; [done|]. split; [done|]. split; [apply unique_list_idem|].
  destruct (owned_by_owns s' _ this (unique_list xs) Hown') as (p & Hp & Hc).
  { apply lookup_insert_eq. }
  unfold unique. rewrite (bind_Ok _ _ _ _ _ (get_head_Ok _ _ _ Hp)).
  unfold with_budget. destruct xs as [|x r].
  - simpl in Hc. subst p. rewrite budget_size. done.
  - simpl in Hc. destruct (unique_from_head x r) as [t Ht]. rewrite Ht in Hc.
    eapply unique_loop_fixed; [done| |].
    + pose proof (unique_list_fixed x r) as Hfix. by rewrite Ht in Hfix.
    + apply budget_chain in Hc. simpl in Hc. lia.
Qed.

(** X22: a copy of a copy iterates in the order of the original:
    each copy construction reverses, the two reversals cancel; the
    three lists are different objects and the original is unchanged. *)
Theorem copy_of_copy_restores_order s ch other ys :
  owned_by s ch → ch !! other = Some ys →
  ∃ c1 s1 c2 s2, copy_ctor other s = Ok c1 s1 ∧ copy_ctor c1 s1 = Ok c2 s2 ∧
    c1 ≠ other ∧ c2 ≠ other ∧ c2 ≠ c1 ∧
    iterate c1 s2 = Ok (rev ys.*2) s2 ∧
    iterate c2 s2 = Ok ys.*2 s2 ∧
    iterate other s2 = Ok ys.*2 s2.
Proof.
  intros Hown Hoth.
  destruct (copy_ctor_spec _ _ _ _ Hown Hoth) as (c1 & s1 & new1 & Hf1 & Hrun1 & Hown1 & Hv1).
  assert (c1 ≠ other) as Hne1 by congruence.
  destruct (copy_ctor_spec s1 _ c1 new1 Hown1) as (c2 & s2 & new2 & Hf2 & Hrun2 & Hown2 & Hv2).
  { apply lookup_insert_eq. }
  assert (c2 ≠ c1) as Hne2.
  { intros ->. by rewrite lookup_insert_eq in Hf2. }
  assert (c2 ≠ other) as Hne3.
  { intros ->. rewrite lookup_insert_ne in Hf2 by done. congruence. }
  exists c1, s1, c2, s2. split; [done|]. split; [done|].
  split; [done|]. split; [done|]. split; [done|]. split; [|split].
  - rewrite <- Hv1. eapply owned_by_iterate; [done|].
    by rewrite lookup_insert_ne, lookup_insert_eq.
  - rewrite <- (rev_involutive ys.*2), <- Hv1, <- Hv2.
    eapply owned_by_iterate; [done|]. apply lookup_insert_eq.
  - eapply owned_by_iterate; [done|]. by rewrite !lookup_insert_ne.
Qed.

End Together.

Section Validity.
Context {T : Type} `{Elem T}.
Implicit Types (s : state T) (h : gmap loc (fwd_list_node T)).
Implicit Types (p q it : ptr) (a b : loc) (l this other : lid) (v : T).
Implicit Types (xs ys zs : list (loc * T)) (ch : gmap lid (list (loc * T))).

Lemma owned_by_deref s ch l zs a v :
  owned_by s ch → ch !! l = Some zs → (a, v) ∈ zs →
  iter_deref (Some a) s = Ok v s.
Proof.
  intros Hown Hl Hin. destruct (owned_by_owns _ _ _ _ Hown Hl) as (p & _ & Hc).
  apply list_elem_of_split in Hin as (pre & suf & ->).
  apply chain_drop in Hc. destruct Hc as (_ & q & Ha & _).
  unfold iter_deref. by eapply get_value_Ok.
Qed.

(** X23: reverse, swap, merge and splice_after move no value: after
    each of them a handle to any node of the two lists still reads the
    value it read before. *)
Theorem relinking_keeps_handles s ch this other xs ys (op : M T unit) :
  owned_by s ch → this ≠ other → ch !! this = Some xs → ch !! other = Some ys →
  op ∈ [reverse this; swap this other; merge this other] ∨
    (∃ pa, pa ∈ xs.*1 ∧ op = splice_after this (Some pa) other) →
  ∃ s', op s = Ok tt s' ∧
    ∀ a v, (a, v) ∈ xs ++ ys → iter_deref (Some a) s' = Ok v s'.
Proof.
  intros Hown Hne Hthis Hoth Hop.
  assert (∀ s' xs' ys', owned_by s' (<[other := ys']> (<[this := xs']> ch)) →
            (∀ u, u ∈ xs ++ ys → u ∈ xs' ++ ys') →
            ∀ a v, (a, v) ∈ xs ++ ys → iter_deref (Some a) s' = Ok v s') as Hkeep.
  { intros s' xs' ys' Hown' Hsub a v Hin.
    apply Hsub, elem_of_app in Hin as [Hin|Hin].
    - eapply owned_by_deref; [done| |done].
      by rewrite lookup_insert_ne, lookup_insert_eq.
    - eapply owned_by_deref; [done| |done]. by rewrite lookup_insert_eq. }
  destruct Hop as [Hop|(pa & Hpa & ->)].
  - repeat (apply elem_of_cons in Hop as [->|Hop]); [| | |by apply elem_of_nil in Hop].
    + destruct (reverse_spec _ _ _ _ Hown Hthis) as (s' & Hrun & Hown').
      exists s'. split; [done|]. apply (Hkeep s' (rev xs) ys).
      * rewrite insert_id; [done|]. by rewrite lookup_insert_ne.
      * intros u. rewrite !elem_of_app, elem_of_rev. done.
    + destruct (swap_spec _ _ _ _ _ _ Hown Hne Hthis Hoth) as (s' & Hrun & Hown').
      exists s'. split; [done|]. apply (Hkeep s' ys xs); [done|].
      intros u. rewrite !elem_of_app. tauto.
    + destruct (merge_spec _ _ _ _ _ _ Hown Hne Hthis Hoth) as (s' & Hrun & Hown').
      exists s'. split; [done|]. apply (Hkeep s' (merge_list xs ys) []); [done|].
      intros u. by rewrite app_nil_r, merge_list_perm.
  - apply list_elem_of_fmap in Hpa as ([pa' pv] & -> & Hin). simpl.
    apply list_elem_of_split in Hin as (pre & suf & ->).
    destruct (splice_after_spec _ _ _ _ _ _ _ _ _ Hown Hne Hthis Hoth)
      as (s' & Hrun & Hown').
    exists s'. split; [done|].
    apply (Hkeep s' (pre ++ (pa', pv) :: ys ++ suf) []); [done|].
    intros u. rewrite app_nil_r, !elem_of_app, !elem_of_cons, !elem_of_app. tauto.
Qed.

Lemma iterate_loop_cycle n s a v :
  nodes s !! a = Some (cell v (Some a)) → iterate_loop n (Some a) None s = Diverge.
Proof.
  intros Ha. induction n as [|n IH]; [done|]. cbn [iterate_loop].
  unfold iter_deref, iter_incr. simpl.
  rewrite (bind_Ok _ _ _ _ _ (get_value_Ok _ _ _ _ Ha)).
  rewrite (bind_Ok _ _ _ _ _ (get_next_Ok _ _ _ _ Ha)).
  unfold mbind, M_bind. by rewrite IH.
Qed.

(** X24: on a store that satisfies the structural invariant a
    traversal of a live list from begin() to end() returns, after at
    most as many steps as there are live nodes; on a list whose first
    node is its own successor, which the invariant rules out, it never
    ends. *)
Theorem traversal_needs_invariant s l :
  (wf s → live s l →
   ∃ vs, iterate l s = Ok vs s ∧ length vs ≤ size (nodes s)) ∧
  (∀ a v, lists s !! l = Some (Some a) → nodes s !! a = Some (cell v (Some a)) →
     iterate l s = Diverge ∧ ¬ wf s).
Proof.
  split.
  - intros [ch Hown] Hl. destruct (owned_by_live _ _ _ Hown Hl) as (xs & Hxs).
    destruct (owned_by_owns _ _ _ _ Hown Hxs) as (p & Hp & Hc).
    exists xs.*2. split; [by eapply owned_by_iterate|].
    rewrite length_fmap. by eapply chain_length.
  - intros a v Hl Ha. split.
    + unfold iterate, begin, end_. rewrite (bind_Ok _ _ _ _ _ (get_head_Ok _ _ _ Hl)).
      unfold with_budget. simpl. by eapply iterate_loop_cycle.
    + intros Hwf. destruct (wf_structure _ _ _ Hwf Hl) as (xs & Hc & Hnd & _).
      destruct xs as [|[a' v'] xs]; [done|].
      destruct Hc as ([= <-] & q & Ha' & Hc). rewrite Ha in Ha'.
      injection Ha' as <- <-. destruct xs as [|[a'' v''] xs]; [done|].
      destruct Hc as ([= <-] & _). rewrite !fmap_cons in Hnd. simpl in Hnd.
      apply NoDup_cons in Hnd as [Hnd _]. apply Hnd. set_solver.
Qed.

End Validity.

(** * The properties on concrete stores *)

Section Examples.
Local Open Scope Z_scope.
Implicit Types (h : gmap loc (fwd_list_node Z)) (ch : gmap lid (list (loc * Z))).
Implicit Types (xs : list (loc * Z)) (p : ptr) (l : lid).

Ltac chain_tac :=
  repeat (split; [reflexivity|]; eexists; split; [reflexivity|]); reflexivity.

Ltac apart_tac :=
  let l' := fresh in let zs := fresh in let a := fresh in
  let E := fresh in let Ha := fresh in let Hb := fresh in
  intros l' zs a E Ha Hb;
  repeat (apply lookup_insert_Some in E as [[_ <-]|[_ E]];
          [set_solver|]);
  by rewrite lookup_empty in E.

Lemma owned_by_add h (ls : gmap lid ptr) ch l p xs :
  owned_by (State h ls) ch → ch !! l = None → chain h p xs →
  (∀ l' zs a, ch !! l' = Some zs → a ∈ zs.*1 → a ∉ xs.*1) →
  owned_by (State h (<[l := p]> ls)) (<[l := xs]> ch).
Proof. apply (owned_by_add_list (State h ls)). Qed.

Lemma two_lists_owned : owned_by two_lists two_chains.
Proof.
  unfold two_lists, two_chains.
  apply owned_by_add; [|done|chain_tac|apart_tac].
  apply owned_by_add; [|done|chain_tac|apart_tac].
  apply owned_by_no_lists.
Qed.

Lemma dups_list_owned : owned_by dups_list dups_chain.
Proof.
  unfold dups_list, dups_chain.
  apply owned_by_add; [|done|chain_tac|apart_tac].
  apply owned_by_no_lists.
Qed.

Lemma empty_list_owned : owned_by empty_list empty_chain.
Proof.
  unfold empty_list, empty_chain.
  apply owned_by_add; [|done|done|apart_tac].
  apply owned_by_no_lists.
Qed.

(** push_front puts the new element at the front. *)
Example push_front_front :
  returned ((push_front 1%positive 10;; push_front 1%positive 20;;
             v ← front 1%positive; vs ← iterate 1%positive; mret (v, vs))
              empty_list) = Some (20, [20; 10]).
Proof. vm_compute. reflexivity. Qed.

(** splice_after moves the whole chain of the argument behind the node
    of the handle. *)
Example splice_after_second :
  returned ((b ← begin 1%positive; it ← iter_incr b;
             splice_after 1%positive it 2%positive;;
             vs ← iterate 1%positive; ws ← iterate 2%positive; mret (vs, ws))
              two_lists) = Some ([1; 3; 2; 3; 4; 5], []).
Proof. vm_compute. reflexivity. Qed.

(** resize cuts at the front and pads at the front. *)
Example resize_both_ways :
  returned ((resize 1%positive 2 0;; resize 2%positive 5 7;;
             vs ← iterate 1%positive; ws ← iterate 2%positive; mret (vs, ws))
              two_lists) = Some ([3; 5], [7; 7; 2; 3; 4]).
Proof. vm_compute. reflexivity. Qed.

(** A list merged into itself: the loop runs out of every budget. *)
Example merge_self :
  merge 1%positive 1%positive two_lists = Diverge.
Proof.
  apply (merge_self_diverges two_lists 1%positive 1%positive 1 (Some 2%positive));
    reflexivity.
Defined.

(** Reversal, twice, of list 1 of [two_lists]. *)
Lemma reverse_involution_witness :
  ∃ s', reverse 1%positive two_lists = Ok tt s' ∧
    iterate 1%positive s' = Ok [5; 3; 1] s' ∧
    ∃ s'', reverse 1%positive s' = Ok tt s'' ∧
      iterate 1%positive s'' = Ok [1; 3; 5] s''.
Proof.
  destruct (reverse_involution two_lists two_chains 1%positive _
              two_lists_owned eq_refl)
    as (s' & Hr & _ & Hi & _ & s'' & Hr' & _ & Hi').
  exists s'. split; [exact Hr|]. split; [exact Hi|].
  exists s''. split; [exact Hr'|exact Hi'].
Defined.

(** A list copy-assigned to itself keeps its order. *)
Lemma copy_assign_self_keeps_order :
  copy_assign 1%positive 1%positive two_lists = Ok tt two_lists ∧
  iterate 1%positive two_lists = Ok [1; 3; 5] two_lists ∧
  rev [1; 3; 5] ≠ [1; 3; 5].
Proof.
  split; [reflexivity|]. split; [|discriminate].
  apply (owned_by_iterate two_lists two_chains 1%positive _ two_lists_owned eq_refl).
Qed.

(** List 2 of [two_lists] copied into a new list and into list 1. *)
Lemma copy_reverses_order_witness :
  (∃ this s', copy_ctor 2%positive two_lists = Ok this s' ∧
     iterate this s' = Ok [4; 3; 2] s' ∧
     iterate 2%positive s' = Ok [2; 3; 4] s') ∧
  (∃ s', copy_assign 1%positive 2%positive two_lists = Ok tt s' ∧
     iterate 1%positive s' = Ok [4; 3; 2] s' ∧
     iterate 2%positive s' = Ok [2; 3; 4] s').
Proof.
  destruct (copy_reverses_order two_lists two_chains 2%positive _
              two_lists_owned eq_refl) as [Hctor Hassign].
  split.
  - destruct Hctor as (this & s' & new & _ & Hrun & _ & Hi & Hi').
    exists this, s'. split; [exact Hrun|]. split; [exact Hi|exact Hi'].
  - destruct (Hassign 1%positive _ ltac:(done) eq_refl)
      as (s' & new & Hrun & _ & Hi & Hi').
    exists s'. split; [exact Hrun|]. split; [exact Hi|exact Hi'].
Defined.

Lemma sorted_135 : Sorted elt_le [1; 3; 5].
Proof. repeat constructor. Qed.

Lemma sorted_234 : Sorted elt_le [2; 3; 4].
Proof. repeat constructor. Qed.

(** List 2 of [two_lists] merged into list 1. *)
Lemma merge_sorted_witness :
  ∃ s', merge 1%positive 2%positive two_lists = Ok tt s' ∧
    iterate 1%positive s' = Ok [1; 2; 3; 3; 4; 5] s' ∧
    iterate 2%positive s' = Ok [] s'.
Proof.
  destruct (merge_sorted two_lists two_chains 1%positive 2%positive _ _
              two_lists_owned ltac:(done) eq_refl eq_refl sorted_135 sorted_234)
    as (s' & Hrun & _ & _ & _ & Hi & Hi').
  exists s'. split; [exact Hrun|]. split; [exact Hi|exact Hi'].
Defined.

(** After merge on [two_lists], node 2 of the receiver, with key 3,
    does not precede node 5 of the argument, with key 3. *)
Lemma merge_ties_receiver_not_first :
  ∃ s', merge 1%positive 2%positive two_lists = Ok tt s' ∧
    owns s' 1%positive
      [(1%positive, 1); (4%positive, 2); (5%positive, 3); (2%positive, 3);
       (6%positive, 4); (3%positive, 5)] ∧
    ¬ [(2%positive, 3); (5%positive, 3)] `sublist_of`
        [(1%positive, 1); (4%positive, 2); (5%positive, 3); (2%positive, 3);
         (6%positive, 4); (3%positive, 5)].
Proof.
  destruct (merge_spec two_lists two_chains 1%positive 2%positive _ _
              two_lists_owned ltac:(done) eq_refl eq_refl) as (s' & Hrun & Hown').
  exists s'. split; [exact Hrun|]. split.
  - apply (owned_by_owns _ _ _ _ Hown'). reflexivity.
  - intros Hs.
    repeat match type of Hs with
    | _ `sublist_of` [] => apply sublist_nil_r in Hs; discriminate
    | _ `sublist_of` (_ :: _) =>
        apply sublist_cons_r in Hs as [Hs|(? & ? & Hs)]; [|simplify_eq]
    end.
Qed.

(** The two nodes with key 3 after merge on [two_lists]. *)
Lemma merge_ties_argument_first_witness :
  ∃ s' zs, merge 1%positive 2%positive two_lists = Ok tt s' ∧
    owns s' 1%positive zs ∧
    [(5%positive, 3); (2%positive, 3)] `sublist_of` zs.
Proof.
  destruct (merge_ties_argument_first two_lists two_chains 1%positive 2%positive
              _ _ two_lists_owned ltac:(done) eq_refl eq_refl sorted_135 sorted_234)
    as (s' & zs & Hrun & Howns & Hties).
  exists s', zs. split; [exact Hrun|]. split; [exact Howns|].
  apply (Hties (2%positive, 3) (5%positive, 3)); [set_solver|set_solver|done|done].
Defined.

(** unique on [dups_list]. *)
Lemma unique_adjacent_witness :
  ∃ s', unique 1%positive dups_list = Ok tt s' ∧
    iterate 1%positive s' = Ok [1; 2; 3; 1] s'.
Proof.
  destruct (unique_adjacent dups_list dups_chain 1%positive _
              dups_list_owned eq_refl) as (s' & Hrun & _ & Hi & _).
  exists s'. split; [exact Hrun|exact Hi].
Defined.

(** remove_if and remove on [dups_list]. *)
Lemma remove_exact_witness :
  (∃ s', remove_if 1%positive Z.even dups_list = Ok tt s' ∧
     iterate 1%positive s' = Ok [1; 1; 3; 1] s') ∧
  (∃ s', remove 1%positive (RefValue 1) dups_list = Ok tt s' ∧
     iterate 1%positive s' = Ok [2; 2; 2; 3] s').
Proof.
  destruct (remove_exact dups_list dups_chain 1%positive _
              dups_list_owned eq_refl) as [Hif Hval].
  split.
  - destruct (Hif Z.even) as (s' & Hrun & _ & Hi & _).
    exists s'. split; [exact Hrun|exact Hi].
  - destruct (Hval (RefValue 1) 1 eq_refl I) as (s' & Hrun & _ & Hi & _).
    exists s'. split; [exact Hrun|exact Hi].
Defined.

(** remove(front()) on [dups_list], which iterates as 1, 1, 2, 2, 2,
    3, 1, and remove(1) on it. *)
Lemma remove_own_element_undefined_witness :
  begin 1%positive dups_list = Ok (Some 1%positive) dups_list ∧
  remove 1%positive (RefNode 1%positive) dups_list = Undefined ∧
  ∃ s', remove 1%positive (RefValue 1) dups_list = Ok tt s' ∧
    iterate 1%positive s' = Ok [2; 2; 2; 3] s'.
Proof.
  destruct (@remove_own_element_undefined Z Z_Elem dups_list dups_chain 1%positive
              1%positive 1 2%positive 1 _ dups_list_owned eq_refl eq_refl)
    as (Hb & _ & Hund & s' & Hrun & _ & Hi).
  split; [exact Hb|]. split; [exact Hund|].
  exists s'. split; [exact Hrun|exact Hi].
Defined.

(** Three pushes and two pops, one of them on the empty list. *)
Lemma push_pop_length_witness :
  ∃ k s' (zs : list (loc * Z)),
    run_ops 1%positive [Push 1; Pop; Pop; Push 2; Push 3] empty_list = Ok k s' ∧
    iterate 1%positive s' = Ok zs.*2 s' ∧
    Z.of_nat (length zs) = 3 - Z.of_nat k.
Proof.
  destruct (push_pop_length [Push 1; Pop; Pop; Push 2; Push 3]
              empty_list empty_chain 1%positive empty_list_owned eq_refl)
    as [(k & s' & zs & Hrun & _ & Hi & Hlen & _) _].
  exists k, s', zs. split; [exact Hrun|]. split; [exact Hi|exact Hlen].
Defined.



Lemma half_lists_owned : owned_by half_lists half_chains.
Proof.
  unfold half_lists, half_chains.
  apply owned_by_add; [|done|chain_tac|apart_tac].
  apply owned_by_add; [|done|done|apart_tac].
  apply owned_by_no_lists.
Qed.

(** clear on list 1 of [two_lists]. *)
Lemma clear_releases_chain_witness :
  ∃ s', clear 1%positive two_lists = Ok tt s' ∧
    empty 1%positive s' = Ok true s' ∧
    released [1%positive; 2%positive; 3%positive] two_lists s' ∧
    clear 1%positive s' = Ok tt s'.
Proof.
  destruct (clear_releases_chain two_lists two_chains 1%positive _
              two_lists_owned eq_refl) as (s' & Hrun & _ & He & Hrel & Hagain).
  exists s'. split; [exact Hrun|]. split; [exact He|]. split; [exact Hrel|exact Hagain].
Defined.

(** The destructor of list 1 of [two_lists]. *)
Lemma destructor_releases_chain_witness :
  ∃ s', dtor 1%positive two_lists = Ok tt s' ∧
    released [1%positive; 2%positive; 3%positive] two_lists s' ∧
    begin 1%positive s' = Undefined.
Proof.
  destruct (destructor_releases_chain two_lists two_chains 1%positive _
              two_lists_owned eq_refl) as (s' & Hrun & _ & _ & Hrel & Hb).
  exists s'. split; [exact Hrun|]. split; [exact Hrel|exact Hb].
Defined.

(** A list constructed beside those of [two_lists]. *)
Lemma ctor_makes_empty_list_witness :
  ∃ l s', ctor two_lists = Ok l s' ∧ nodes s' = nodes two_lists ∧
    empty l s' = Ok true s' ∧ iterate l s' = Ok [] s'.
Proof.
  destruct (ctor_makes_empty_list two_lists two_chains two_lists_owned)
    as (l & s' & _ & Hrun & Hn & _ & He & Hi & _).
  exists l, s'. split; [exact Hrun|]. split; [exact Hn|]. split; [exact He|exact Hi].
Defined.

(** A list move-constructed from list 2 of [two_lists]. *)
Lemma move_ctor_takes_chain_witness :
  ∃ this s', move_ctor 2%positive two_lists = Ok this s' ∧
    nodes s' = nodes two_lists ∧
    iterate this s' = Ok [2; 3; 4] s' ∧
    empty 2%positive s' = Ok true s'.
Proof.
  destruct (move_ctor_takes_chain two_lists two_chains 2%positive _
              two_lists_owned eq_refl) as (this & s' & _ & Hrun & _ & Hn & Hi & He).
  exists this, s'. split; [exact Hrun|]. split; [exact Hn|]. split; [exact Hi|exact He].
Defined.

(** List 2 of [two_lists] move-assigned to list 1. *)
Lemma move_assign_takes_chain_witness :
  ∃ s', move_assign 1%positive 2%positive two_lists = Ok tt s' ∧
    released [1%positive; 2%positive; 3%positive] two_lists s' ∧
    iterate 1%positive s' = Ok [2; 3; 4] s' ∧
    empty 2%positive s' = Ok true s'.
Proof.
  destruct (move_assign_takes_chain two_lists two_chains 1%positive 2%positive _ _
              two_lists_owned ltac:(done) eq_refl eq_refl)
    as (s' & Hrun & _ & Hrel & Hi & He).
  exists s'. split; [exact Hrun|]. split; [exact Hrel|]. split; [exact Hi|exact He].
Defined.

(** The lists of [two_lists] swapped, and swapped back. *)
Lemma swap_exchanges_chains_witness :
  ∃ s', swap 1%positive 2%positive two_lists = Ok tt s' ∧
    iterate 1%positive s' = Ok [2; 3; 4] s' ∧
    iterate 2%positive s' = Ok [1; 3; 5] s' ∧
    swap 1%positive 2%positive s' = Ok tt two_lists.
Proof.
  destruct (swap_exchanges_chains two_lists two_chains 1%positive 2%positive _ _
              two_lists_owned ltac:(done) eq_refl eq_refl)
    as (s' & Hrun & _ & _ & Hi & Hi' & _ & Hback & _).
  exists s'. split; [exact Hrun|]. split; [exact Hi|]. split; [exact Hi'|exact Hback].
Defined.

(** assign(2, 9) on list 1 of [two_lists], assign(2, v) with [v] the
    first element of list 2, and with [v] the first element of list 1. *)
Lemma assign_fills_witness :
  (∃ s', assign 1%positive 2 (RefValue 9) two_lists = Ok tt s' ∧
     iterate 1%positive s' = Ok [9; 9] s') ∧
  (∃ s', assign 1%positive 2 (RefNode 4%positive) two_lists = Ok tt s' ∧
     iterate 1%positive s' = Ok [2; 2] s') ∧
  assign 1%positive 2 (RefNode 1%positive) two_lists = Undefined.
Proof.
  split; [|split].
  - destruct (proj1 (assign_fills two_lists two_chains 1%positive _ 2%nat
                       (RefValue 9) two_lists_owned eq_refl) 9 eq_refl I)
      as (s' & new & Hrun & _ & Hi & _).
    exists s'. split; [exact Hrun|exact Hi].
  - destruct (proj1 (assign_fills two_lists two_chains 1%positive _ 2%nat
                       (RefNode 4%positive) two_lists_owned eq_refl) 2)
      as (s' & new & Hrun & _ & Hi & _).
    + exists (Some (Some 5%positive)). reflexivity.
    + simpl. set_solver.
    + exists s'. split; [exact Hrun|exact Hi].
  - apply (proj2 (assign_fills two_lists two_chains 1%positive _ 2%nat
                    (RefNode 1%positive) two_lists_owned eq_refl) 1%positive eq_refl).
    + simpl. set_solver.
    + lia.
Defined.

(** resize on list 1 of [two_lists], to 2 and to 5 elements. *)
Lemma resize_at_front_witness :
  (∃ s', resize 1%positive 2 0 two_lists = Ok tt s' ∧
     iterate 1%positive s' = Ok [3; 5] s') ∧
  (∃ s', resize 1%positive 5 7 two_lists = Ok tt s' ∧
     iterate 1%positive s' = Ok [7; 7; 1; 3; 5] s').
Proof.
  split.
  - destruct (resize_at_front two_lists two_chains 1%positive _ 2%nat 0
                two_lists_owned eq_refl) as (s' & new & Hrun & _ & Hi & _).
    exists s'. split; [exact Hrun|exact Hi].
  - destruct (resize_at_front two_lists two_chains 1%positive _ 5%nat 7
                two_lists_owned eq_refl) as (s' & new & Hrun & _ & Hi & _).
    exists s'. split; [exact Hrun|exact Hi].
Defined.

(** 9 pushed on list 1 of [two_lists] and popped again. *)
Lemma push_pop_round_trip_witness :
  ∃ s1, push_front 1%positive 9 two_lists = Ok tt s1 ∧
    front 1%positive s1 = Ok 9 s1 ∧
    pop_front 1%positive s1 = Ok tt two_lists.
Proof.
  destruct (push_pop_round_trip two_lists 1%positive 9)
    as (s1 & Hrun & Hf & _ & _ & Hpop).
  - exists (Some 1%positive). reflexivity.
  - exists s1. split; [exact Hrun|]. split; [exact Hf|exact Hpop].
Defined.

(** front and empty on list 1 of [two_lists] and on [empty_list]. *)
Lemma front_needs_element_witness :
  (empty 1%positive two_lists = Ok false two_lists ∧
   front 1%positive two_lists = Ok 1 two_lists) ∧
  (empty 1%positive empty_list = Ok true empty_list ∧
   front 1%positive empty_list = Undefined).
Proof.
  split.
  - destruct (front_needs_element two_lists 1%positive _
                (owned_by_owns two_lists two_chains 1%positive _ two_lists_owned eq_refl)) as [He [Hf _]].
    split; [exact He|exact Hf].
  - destruct (front_needs_element empty_list 1%positive _
                (owned_by_owns empty_list empty_chain 1%positive _ empty_list_owned eq_refl)) as [He Hf].
    split; [exact He|exact Hf].
Defined.

(** pop_front on list 1 of [two_lists]: the handle to node 1 dangles,
    the handle to node 2 reads 3 and moves on to node 3. *)
Lemma pop_front_invalidates_first_witness :
  ∃ s', pop_front 1%positive two_lists = Ok tt s' ∧
    iter_deref (Some 1%positive) s' = Undefined ∧
    iter_deref (Some 2%positive) s' = Ok 3 s' ∧
    iter_incr (Some 2%positive) s' = Ok (Some 3%positive) s'.
Proof.
  destruct (pop_front_invalidates_first two_lists two_chains 1%positive _ _ _
              two_lists_owned eq_refl) as (s' & Hrun & _ & Hd & _ & Hv & Hn).
  exists s'. split; [exact Hrun|]. split; [exact Hd|]. split.
  - apply (Hv 2%positive 3). apply list_elem_of_here.
  - apply (Hn 0%nat 2%positive 3). reflexivity.
Defined.

(** Handles into list 1 of [two_lists]. *)
Lemma advance_walks_chain_witness :
  (b ← begin 1%positive; advance 2 b) two_lists = Ok (Some 3%positive) two_lists ∧
  (b ← begin 1%positive; advance 3 b) two_lists = Ok None two_lists ∧
  (b ← begin 1%positive; advance 4 b) two_lists = Undefined ∧
  iter_deref (Some 3%positive) two_lists = Ok 5 two_lists.
Proof.
  destruct (advance_walks_chain two_lists 1%positive _
              (owned_by_owns two_lists two_chains 1%positive _ two_lists_owned eq_refl))
    as (Hadv & Hval & _ & Hpast & _).
  split; [apply (Hadv 2%nat); simpl; lia|].
  split; [apply (Hadv 3%nat); simpl; lia|].
  split; [exact Hpast|]. apply (Hval 2%nat). reflexivity.
Defined.

(** emplace_front() on list 1 of [two_lists]. *)
Lemma emplace_front_no_argument_witness :
  ∃ s', emplace_front 1%positive [] two_lists = Ok tt s' ∧
    push_front 1%positive 0 two_lists = Ok tt s' ∧
    front 1%positive s' = Ok 0 s'.
Proof.
  destruct (emplace_front_no_argument two_lists two_chains 1%positive _
              two_lists_owned eq_refl) as (a & s' & Hrun & Hpush & _ & _ & Hf).
  exists s'. split; [exact Hrun|]. split; [exact Hpush|exact Hf].
Defined.

(** reverse on list 1 of [two_lists] keeps the six nodes. *)
Lemma relinking_never_allocates_witness :
  ∃ s', reverse 1%positive two_lists = Ok tt s' ∧
    dom (nodes s') = dom (nodes two_lists).
Proof.
  destruct (reverse_spec two_lists two_chains 1%positive _ two_lists_owned eq_refl)
    as (s' & Hrun & _).
  exists s'. split; [exact Hrun|].
  destruct (relinking_never_allocates (T := Z) 1%positive 1%positive None)
    as (Hrev & _).
  exact (proj1 (Hrev _ _ _ Hrun)).
Defined.

(** List 2 of [two_lists] spliced behind node 2 of list 1. *)
Lemma splice_after_inserts_chain_witness :
  ∃ s', splice_after 1%positive (Some 2%positive) 2%positive two_lists = Ok tt s' ∧
    iterate 1%positive s' = Ok [1; 3; 2; 3; 4; 5] s' ∧
    empty 2%positive s' = Ok true s' ∧
    dom (nodes s') = dom (nodes two_lists).
Proof.
  destruct (splice_after_inserts_chain two_lists two_chains 1%positive 2%positive
              [(1%positive, 1)] 2%positive 3 [(3%positive, 5)] _
              two_lists_owned ltac:(done) eq_refl eq_refl)
    as (s' & Hrun & _ & Hi & He & Hd & _).
  exists s'. split; [exact Hrun|]. split; [exact Hi|]. split; [exact He|exact Hd].
Defined.

(** List 1 of [two_lists] spliced into itself behind its node 2. *)
Lemma splice_after_self_loses_chain_witness :
  ∃ s', splice_after 1%positive (Some 2%positive) 1%positive two_lists = Ok tt s' ∧
    iterate 1%positive s' = Ok [] s' ∧
    dom (nodes s') = dom (nodes two_lists).
Proof.
  destruct (splice_after_self_loses_chain two_lists two_chains 1%positive
              [(1%positive, 1)] 2%positive 3 [(3%positive, 5)]
              two_lists_owned eq_refl)
    as (s' & Hrun & _ & Hi & Hd).
  exists s'. split; [exact Hrun|]. split; [exact Hi|exact Hd].
Defined.

(** List 1 of [two_lists] merged into list 2. *)
Lemma merge_keeps_every_node_witness :
  ∃ s' zs, merge 2%positive 1%positive two_lists = Ok tt s' ∧
    zs ≡ₚ [(4%positive, 2); (5%positive, 3); (6%positive, 4);
           (1%positive, 1); (2%positive, 3); (3%positive, 5)] ∧
    iterate 2%positive s' = Ok zs.*2 s' ∧
    empty 1%positive s' = Ok true s' ∧
    dom (nodes s') = dom (nodes two_lists).
Proof.
  destruct (merge_keeps_every_node two_lists two_chains 2%positive 1%positive _ _
              two_lists_owned ltac:(done) eq_refl eq_refl)
    as (s' & zs & Hrun & _ & Hperm & _ & Hi & He & Hd).
  exists s', zs. split; [exact Hrun|]. split; [exact Hperm|].
  split; [exact Hi|]. split; [exact He|exact Hd].
Defined.

(** merge between the two lists of [half_lists], one of them empty. *)
Lemma merge_with_empty_list_witness :
  merge 1%positive 2%positive half_lists = Ok tt half_lists ∧
  ∃ s', merge 2%positive 1%positive half_lists = Ok tt s' ∧
    iterate 2%positive s' = Ok [4; 2] s'.
Proof.
  split.
  - apply (proj1 (merge_with_empty_list half_lists half_chains 1%positive 2%positive
                    _ half_lists_owned ltac:(done)) eq_refl eq_refl).
  - destruct (proj2 (merge_with_empty_list half_lists half_chains 2%positive 1%positive
                       _ half_lists_owned ltac:(done)) eq_refl eq_refl)
      as (s' & Hrun & _ & _ & Hi).
    exists s'. split; [exact Hrun|exact Hi].
Defined.

(** unique on [dups_list], twice. *)
Lemma unique_idempotent_witness :
  ∃ s', unique 1%positive dups_list = Ok tt s' ∧
    iterate 1%positive s' = Ok [1; 2; 3; 1] s' ∧
    unique 1%positive s' = Ok tt s'.
Proof.
  destruct (unique_idempotent dups_list dups_chain 1%positive _
              dups_list_owned eq_refl) as (s' & Hrun & Hown' & _ & Hagain).
  exists s'. split; [exact Hrun|]. split; [|exact Hagain].
  apply (owned_by_iterate _ _ 1%positive _ Hown' eq_refl).
Defined.

(** List 1 of [two_lists] copied, and the copy copied. *)
Lemma copy_of_copy_restores_order_witness :
  ∃ c1 s1 c2 s2, copy_ctor 1%positive two_lists = Ok c1 s1 ∧
    copy_ctor c1 s1 = Ok c2 s2 ∧
    iterate c1 s2 = Ok [5; 3; 1] s2 ∧
    iterate c2 s2 = Ok [1; 3; 5] s2.
Proof.
  destruct (copy_of_copy_restores_order two_lists two_chains 1%positive _
              two_lists_owned eq_refl)
    as (c1 & s1 & c2 & s2 & Hrun1 & Hrun2 & _ & _ & _ & Hi1 & Hi2 & _).
  exists c1, s1, c2, s2. split; [exact Hrun1|]. split; [exact Hrun2|].
  split; [exact Hi1|exact Hi2].
Defined.

(** After merge on [two_lists] the handle to node 5 of the argument
    still reads 3. *)
Lemma relinking_keeps_handles_witness :
  ∃ s', merge 1%positive 2%positive two_lists = Ok tt s' ∧
    iter_deref (Some 5%positive) s' = Ok 3 s'.
Proof.
  destruct (relinking_keeps_handles two_lists two_chains 1%positive 2%positive _ _
              (merge 1%positive 2%positive)
              two_lists_owned ltac:(done) eq_refl eq_refl)
    as (s' & Hrun & Hkeep).
  - left. apply list_elem_of_further, list_elem_of_further, list_elem_of_here.
  - exists s'. split; [exact Hrun|]. apply Hkeep.
    do 4 apply list_elem_of_further. apply list_elem_of_here.
Defined.

(** Traversal of list 1 of [two_lists], and of [cyclic_list]. *)
Lemma traversal_needs_invariant_witness :
  (∃ vs, iterate 1%positive two_lists = Ok vs two_lists ∧ (length vs ≤ 6)%nat) ∧
  iterate 1%positive cyclic_list = Diverge.
Proof.
  split.
  - destruct (proj1 (traversal_needs_invariant two_lists 1%positive))
      as (vs & Hi & Hlen).
    + exists two_chains. exact two_lists_owned.
    + exists (Some 1%positive). reflexivity.
    + exists vs. split; [exact Hi|exact Hlen].
  - apply (proj2 (traversal_needs_invariant cyclic_list 1%positive) 1%positive 7
             eq_refl eq_refl).
Defined.

End Examples.

